(** * Wordle: guess scoring, hard-mode constraints and the multiplayer
      party protocol

    A shallow embedding of [src/script.js] (solo game logic) and
    [src/multiplayer.js] (party protocol over a shared store), with the
    properties the specification states about them.

    Character model: a JavaScript string is a [string] of [ascii] code
    units.  Only ASCII code units (0..127) are modelled; on them
    [toUpperCase] is the JavaScript one. *)

From Stdlib Require Import Ascii Arith Lia Bool.
From stdpp Require Import base decidable option list gmap strings pretty.

Local Open Scope string_scope.
Local Open Scope list_scope.
Local Open Scope nat_scope.

(** ** JavaScript values held by the arrays of [evaluateGuess] *)

Module Js.

(** An array cell of [guessArr]/[targetArr]: a one-letter string, the
    [null] written by the correct pass, or [undefined] (a read out of
    range, or a hole left by a write past the end). *)
Inductive val : Type :=
| Undefined
| Null
| Chr (c : ascii).

#[global] Instance val_eq_dec : EqDecision val.
Proof. solve_decision. Defined.

(** [str.split('')] *)
Definition split (s : string) : list val := map Chr (String.list_ascii_of_string s).

(** [arr[i]]: out of range reads give [undefined]. *)
Definition get (a : list val) (i : nat) : val := nth i a Undefined.

(** [arr[i] = v]: in range the cell is overwritten; past the end the
    array grows, the cells in between being holes. *)
Definition set (i : nat) (v : val) (a : list val) : list val :=
  if decide (i < length a) then <[i:=v]> a
  else a ++ replicate (i - length a) Undefined ++ [v].

(** First index holding [v], scanning from the left. *)
Fixpoint find_index (v : val) (a : list val) : option nat :=
  match a with
  | [] => None
  | x :: a' => if decide (x = v) then Some 0 else S <$> find_index v a'
  end.

(** [arr.indexOf(v)] with [None] for [-1].  The only [Undefined] cells
    of the arrays below are holes, which [indexOf] skips, so a search
    for [undefined] finds nothing. *)
Definition indexOf (v : val) (a : list val) : option nat :=
  match v with
  | Undefined => None
  | _ => find_index v a
  end.

End Js.

(** ** GuessEvaluator ([src/script.js], [evaluateGuess]) *)

Definition WORD_LENGTH : nat := 5.
Definition MAX_GUESSES : nat := 6.

Inductive LetterState : Type := correct | present | absent.

#[global] Instance LetterState_eq_dec : EqDecision LetterState.
Proof. solve_decision. Defined.

(** The three local arrays of [evaluateGuess]. *)
Record EvalState : Type := mkEval {
  result : list LetterState;
  targetArr : list Js.val;
  guessArr : list Js.val
}.

(** Body of the first loop: [if (guessArr[i] === targetArr[i]) { ... }]. *)
Definition correct_step (st : EvalState) (i : nat) : EvalState :=
  if decide (Js.get (guessArr st) i = Js.get (targetArr st) i) then
    {| result := <[i:=correct]> (result st);
       targetArr := Js.set i Js.Null (targetArr st);
       guessArr := Js.set i Js.Null (guessArr st) |}
  else st.

(** Body of the second loop. *)
Definition present_step (st : EvalState) (i : nat) : EvalState :=
  if decide (Js.get (guessArr st) i = Js.Null) then st
  else
    match Js.indexOf (Js.get (guessArr st) i) (targetArr st) with
    | Some idx =>
        {| result := <[i:=present]> (result st);
           targetArr := Js.set idx Js.Null (targetArr st);
           guessArr := guessArr st |}
    | None => st
    end.

Definition eval_init (guess target : string) : EvalState :=
  {| result := replicate WORD_LENGTH absent;
     targetArr := Js.split target;
     guessArr := Js.split guess |}.

Definition correct_pass (st : EvalState) : EvalState :=
  fold_left correct_step (seq 0 WORD_LENGTH) st.

Definition present_pass (st : EvalState) : EvalState :=
  fold_left present_step (seq 0 WORD_LENGTH) st.

Definition evaluateGuess (guess target : string) : list LetterState :=
  result (present_pass (correct_pass (eval_init guess target))).

(** Number of positions at which [guess] holds [X] and the result is
    [correct] or [present]. *)
Definition is_marked (r : LetterState) : Prop := r ≠ absent.

Definition marks (X : ascii) (guess : list ascii) (res : list LetterState) : nat :=
  length (filter (λ p, p.1 = X ∧ is_marked p.2) (zip guess res)).

(** Number of occurrences of [X] in a word. *)
Definition occurrences (X : ascii) (w : list ascii) : nat :=
  length (filter (λ c, c = X) w).

(** Closed forms of the three arrays after the correct pass, for a
    guess and a target of the same length. *)
Definition res1 (g t : list ascii) : list LetterState :=
  zip_with (λ a b, if decide (a = b) then correct else absent) g t.
Definition tgt1 (g t : list ascii) : list Js.val :=
  zip_with (λ a b, if decide (a = b) then Js.Null else Js.Chr b) g t.
Definition gs1 (g t : list ascii) : list Js.val :=
  zip_with (λ a b, if decide (a = b) then Js.Null else Js.Chr a) g t.

(** The present pass as a recursion over what is left of [guessArr] and
    [result]; [T] is the current [targetArr]. *)
Fixpoint presents (G : list Js.val) (res : list LetterState) (T : list Js.val)
  : list LetterState :=
  match G, res with
  | x :: G', r :: res' =>
      if decide (x = Js.Null) then r :: presents G' res' T
      else match Js.indexOf x T with
           | Some idx => present :: presents G' res' (Js.set idx Js.Null T)
           | None => r :: presents G' res' T
           end
  | _, _ => res
  end.

(** Number of cells of an array that still hold the letter [X]. *)
Definition remaining (X : ascii) (T : list Js.val) : nat :=
  length (filter (λ v, v = Js.Chr X) T).

(** Number of positions at which [guess] holds [X] and the result is [absent]. *)
Definition absents (X : ascii) (guess : list ascii) (res : list LetterState) : nat :=
  length (filter (λ p, p.1 = X ∧ p.2 = absent) (zip guess res)).

(** ** Letter case ([String.prototype.toUpperCase] / [toLowerCase] on ASCII) *)

Definition is_lower (c : ascii) : bool :=
  (97 <=? nat_of_ascii c) && (nat_of_ascii c <=? 122).
Definition is_upper (c : ascii) : bool :=
  (65 <=? nat_of_ascii c) && (nat_of_ascii c <=? 90).
(** [/[A-Za-z]/] *)
Definition is_alpha (c : ascii) : bool := is_lower c || is_upper c.
(** [/[0-9]/] *)
Definition is_digit (c : ascii) : bool :=
  (48 <=? nat_of_ascii c) && (nat_of_ascii c <=? 57).

Definition upper_char (c : ascii) : ascii :=
  if is_lower c then ascii_of_nat (nat_of_ascii c - 32) else c.
Definition lower_char (c : ascii) : ascii :=
  if is_upper c then ascii_of_nat (nat_of_ascii c + 32) else c.

Fixpoint map_string (f : ascii → ascii) (s : string) : string :=
  match s with
  | EmptyString => EmptyString
  | String c s' => String (f c) (map_string f s')
  end.

Fixpoint forallb_string (f : ascii → bool) (s : string) : bool :=
  match s with
  | EmptyString => true
  | String c s' => f c && forallb_string f s'
  end.

(** [s.toUpperCase()] and [s.toLowerCase()] on strings of code units
    below 128: the letters a-z and A-Z are exchanged, every other such
    code unit is kept.  Above 127 JavaScript's functions do more (for
    instance, the upper case of U+00DF is the two letters SS), which
    these do not follow; a property that depends on it is stated for
    [ascii_only] strings. *)
Definition toUpperCase : string → string := map_string upper_char.
Definition toLowerCase : string → string := map_string lower_char.

(** Every code unit of the string is below 128. *)
Definition ascii_only (w : string) : bool :=
  forallb_string (λ c, nat_of_ascii c <? 128) w.

(** ** HardModeConstraintTracker ([src/script.js]) *)

(** The value of [guess[i]]: a one-letter string, or [undefined] when
    [i] is out of range. *)
Definition jsletter : Type := option ascii.

(** The string a template literal or a property key makes of it. *)
Definition show_letter (l : jsletter) : string :=
  match l with
  | Some c => String c EmptyString
  | None => "undefined"
  end.

(** An object with integer keys; [Object.entries] lists such keys in
    ascending order, which the list keeps. *)
Fixpoint obj_set {V} (i : nat) (v : V) (o : list (nat * V)) : list (nat * V) :=
  match o with
  | [] => [(i, v)]
  | (k, w) :: o' =>
      if decide (i = k) then (i, v) :: o'
      else if decide (i < k) then (i, v) :: (k, w) :: o'
      else (k, w) :: obj_set i v o'
  end.

Fixpoint obj_get {V} (i : nat) (o : list (nat * V)) : option V :=
  match o with
  | [] => None
  | (k, w) :: o' => if decide (i = k) then Some w else obj_get i o'
  end.

(** An entry [{letter, minCount}] of [mustContain]; [letter] is a
    property key of [freqMap], hence a string. *)
Record Constraint : Type := mkConstraint { letter : string; minCount : nat }.

Record HardConstraints : Type := mkHard {
  exactPositions : list (nat * jsletter);
  mustContain : list Constraint
}.

Definition no_constraints : HardConstraints :=
  {| exactPositions := []; mustContain := [] |}.

(** [arr.forEach((x, i) => ...)] threading a state, from index [i]. *)
Fixpoint forEach_i {A St} (f : St → A → nat → St) (l : list A) (i : nat) (s : St) : St :=
  match l with
  | [] => s
  | x :: l' => forEach_i f l' (S i) (f s x i)
  end.

(** [freqMap[key] = (freqMap[key] || 0) + 1] on an object with string
    keys, kept in creation order. *)
Fixpoint freq_incr (key : string) (m : list (string * nat)) : list (string * nat) :=
  match m with
  | [] => [(key, 1)]
  | (k, n) :: m' =>
      if decide (k = key) then (k, n + 1) :: m'
      else (k, n) :: freq_incr key m'
  end.

Definition digit_keys : list string :=
  ["0"; "1"; "2"; "3"; "4"; "5"; "6"; "7"; "8"; "9"].

(** [Object.entries(freqMap)]: integer-like keys first, in ascending
    order, then the other keys in creation order.  The keys of
    [freqMap] are one-letter strings or ["undefined"], so the
    integer-like ones are the ten digits. *)
Definition Object_entries (m : list (string * nat)) : list (string * nat) :=
  flat_map (λ d, filter (λ e, e.1 = d) m) digit_keys
  ++ filter (λ e, e.1 ∉ digit_keys) m.

(** [existing.minCount = Math.max(existing.minCount, count)] on the
    first entry for [l], the one [find] returns. *)
Fixpoint raise_first (l : string) (count : nat) (mc : list Constraint) : list Constraint :=
  match mc with
  | [] => []
  | c :: mc' =>
      if decide (letter c = l)
      then {| letter := letter c; minCount := Nat.max (minCount c) count |} :: mc'
      else c :: raise_first l count mc'
  end.

(** [mustContain.find(c => c.letter === l)] *)
Definition find_constraint (l : string) (mc : list Constraint) : option Constraint :=
  find (λ c, bool_decide (letter c = l)) mc.

(** Body of the loop over [Object.entries(freqMap)]. *)
Definition merge_entry (mc : list Constraint) (e : string * nat) : list Constraint :=
  match find_constraint e.1 mc with
  | None => mc ++ [{| letter := e.1; minCount := e.2 |}]
  | Some _ => raise_first e.1 e.2 mc
  end.

Definition record_exact (guess : string) (ep : list (nat * jsletter))
    (r : LetterState) (i : nat) : list (nat * jsletter) :=
  if decide (r = correct) then obj_set i (String.get i guess) ep else ep.

Definition count_mark (guess : string) (m : list (string * nat))
    (r : LetterState) (i : nat) : list (string * nat) :=
  if decide (r = correct ∨ r = present)
  then freq_incr (show_letter (String.get i guess)) m else m.

Definition build_freqMap (guess : string) (res : list LetterState) : list (string * nat) :=
  forEach_i (count_mark guess) res 0 [].

(** [updateHardConstraints(guess, result)] as a function of the
    constraints it mutates. *)
Definition update_constraints (guess : string) (res : list LetterState)
    (hc : HardConstraints) : HardConstraints :=
  {| exactPositions := forEach_i (record_exact guess) res 0 (exactPositions hc);
     mustContain :=
       fold_left merge_entry (Object_entries (build_freqMap guess res)) (mustContain hc) |}.

(** [ordinal(n)] *)
Definition ordinal (n : nat) : string :=
  match n with
  | 0 => pretty n ++ "th"
  | S m =>
      match nth_error ["1st"; "2nd"; "3rd"; "4th"; "5th"] m with
      | Some s => s
      | None => pretty n ++ "th"
      end
  end.

Definition position_message (pos : nat) (l : jsletter) : string :=
  ordinal (pos + 1) ++ " letter must be " ++ show_letter l.

Definition contains_message (l : string) : string :=
  "Guess must contain " ++ l.

(** First loop of [checkHardMode], leaving at the first violation. *)
Fixpoint check_positions (guessWord : string) (eps : list (nat * jsletter)) : option string :=
  match eps with
  | [] => None
  | (pos, l) :: eps' =>
      if decide (String.get pos guessWord ≠ l) then Some (position_message pos l)
      else check_positions guessWord eps'
  end.

(** [guessWord.split('').filter(l => l === letter).length] *)
Definition count_letter (l : string) (guessWord : string) : nat :=
  length (filter (λ c, String c EmptyString = l) (String.list_ascii_of_string guessWord)).

(** Second loop of [checkHardMode]. *)
Fixpoint check_contains (guessWord : string) (mc : list Constraint) : option string :=
  match mc with
  | [] => None
  | c :: mc' =>
      if decide (count_letter (letter c) guessWord < minCount c)
      then Some (contains_message (letter c))
      else check_contains guessWord mc'
  end.

(** ** Solo game state and its operations ([src/script.js]) *)

(** The module-level variables of [script.js] that the game logic reads
    and writes.  [modalOpen] stands for [isModalOpen()]. *)
Record Game : Type := mkGame {
  targetWord : string;
  currentRow : nat;
  currentCol : nat;
  currentGuess : list ascii;
  gameOver : bool;
  hardMode : bool;
  hardConstraints : HardConstraints;
  practiceMode : bool;
  modalOpen : bool
}.

(** Calls that leave the game logic: the DOM helpers and the multiplayer
    hooks.  [RevealRow] stands for [revealRow(row, guess, result,
    callback)], whose callback is [revealed] below. *)
Inductive Effect : Type :=
| Toast (msg : string)
| ShakeRow (row : nat)
| BounceRow (row : nat)
| RevealRow (row : nat) (guess : string) (res : list LetterState)
| UpdateKeyboard (guess : string) (res : list LetterState)
| SaveState
| RemoveSavedState
| BuildBoard
| CloseModals
| RecordResult (won : bool) (rowUsed : nat)
| MpSyncTyping (letters : list ascii)
| MpClearTyping
| MpRecordGuess (guess : string) (res : list LetterState) (rowIndex : nat)
| MpMarkDone (won : bool).

(** State and effect log threaded through the game functions. *)
Definition M (A : Type) : Type := Game → A * Game * list Effect.

#[global] Instance M_ret : MRet M := λ A a g, (a, g, []).
#[global] Instance M_bind : MBind M := λ A B k m g,
  let '(a, g1, e1) := m g in
  let '(b, g2, e2) := k a g1 in (b, g2, e1 ++ e2).
Definition gets {A} (f : Game → A) : M A := λ g, (f g, g, []).
Definition modify (f : Game → Game) : M unit := λ g, (tt, f g, []).
Definition emit (e : Effect) : M unit := λ g, (tt, g, [e]).

Definition state_of {A} (r : A * Game * list Effect) : Game := r.1.2.
Definition effects_of {A} (r : A * Game * list Effect) : list Effect := r.2.
Definition value_of {A} (r : A * Game * list Effect) : A := r.1.1.

Definition set_hardConstraints (hc : HardConstraints) (g : Game) : Game :=
  {| targetWord := targetWord g; currentRow := currentRow g;
     currentCol := currentCol g; currentGuess := currentGuess g;
     gameOver := gameOver g; hardMode := hardMode g;
     hardConstraints := hc; practiceMode := practiceMode g;
     modalOpen := modalOpen g |}.

Definition set_typing (col : nat) (letters : list ascii) (g : Game) : Game :=
  {| targetWord := targetWord g; currentRow := currentRow g;
     currentCol := col; currentGuess := letters;
     gameOver := gameOver g; hardMode := hardMode g;
     hardConstraints := hardConstraints g; practiceMode := practiceMode g;
     modalOpen := modalOpen g |}.

Definition set_row (row : nat) (over : bool) (g : Game) : Game :=
  {| targetWord := targetWord g; currentRow := row;
     currentCol := currentCol g; currentGuess := currentGuess g;
     gameOver := over; hardMode := hardMode g;
     hardConstraints := hardConstraints g; practiceMode := practiceMode g;
     modalOpen := modalOpen g |}.

Definition set_modalOpen (b : bool) (g : Game) : Game :=
  {| targetWord := targetWord g; currentRow := currentRow g;
     currentCol := currentCol g; currentGuess := currentGuess g;
     gameOver := gameOver g; hardMode := hardMode g;
     hardConstraints := hardConstraints g; practiceMode := practiceMode g;
     modalOpen := b |}.

(** [updateHardConstraints(guess, result)] *)
Definition updateHardConstraints (guess : string) (res : list LetterState) : M unit :=
  modify (λ g, set_hardConstraints (update_constraints guess res (hardConstraints g)) g).

(** [checkHardMode(guessWord)]: the message of the first violated
    constraint, or [None] for [null]. *)
Definition checkHardMode (guessWord : string) : M (option string) :=
  hc ← gets hardConstraints;
  match check_positions guessWord (exactPositions hc) with
  | Some msg => mret (Some msg)
  | None => mret (check_contains guessWord (mustContain hc))
  end.

Definition addLetter (c : ascii) : M unit :=
  col ← gets currentCol;
  if decide (WORD_LENGTH ≤ col) then mret tt
  else
    modify (λ g, set_typing (currentCol g + 1) (currentGuess g ++ [c]) g);;
    letters ← gets currentGuess;
    emit (MpSyncTyping letters).

Definition deleteLetter : M unit :=
  col ← gets currentCol;
  if decide (col ≤ 0) then mret tt
  else
    modify (λ g, set_typing (currentCol g - 1) (removelast (currentGuess g)) g);;
    letters ← gets currentGuess;
    emit (MpSyncTyping letters).

Definition win_messages : list string :=
  ["Genius!"; "Magnificent!"; "Impressive!"; "Splendid!"; "Great!"; "Phew!"].

(** The callback [submitGuess] hands to [revealRow]; it runs when the
    tiles have flipped.  [suppress] is what [mpShouldSuppressSoloEnd()]
    returns. *)
Definition revealed (suppress : bool) (guessWord : string)
    (res : list LetterState) (submittedRow : nat) : M unit :=
  emit (UpdateKeyboard guessWord res);;
  updateHardConstraints guessWord res;;
  emit SaveState;;
  emit (MpRecordGuess guessWord res submittedRow);;
  row ← gets currentRow;
  if forallb (λ r, bool_decide (r = correct)) res then
    let msg := nth (Nat.min row (length win_messages - 1)) win_messages "" in
    emit (BounceRow row);;
    modify (set_row (row + 1) true);;
    if suppress then emit (Toast msg) ;; emit (MpMarkDone true)
    else emit (Toast msg) ;; emit (RecordResult true (row + 1))
  else
    modify (λ g, set_typing 0 [] (set_row (row + 1) (gameOver g) g));;
    if decide (MAX_GUESSES ≤ row + 1) then
      modify (set_row (row + 1) true);;
      target ← gets targetWord;
      if suppress then emit (Toast target) ;; emit (MpMarkDone false)
      else emit (Toast target) ;; emit (RecordResult false 0)
    else mret tt.

(** [startGame()]; [answer] is the entry of [ANSWERS] that [pickWord]
    draws. *)
Definition startGame (answer : string) : M unit :=
  emit CloseModals;;
  emit RemoveSavedState;;
  modify (λ g,
    {| targetWord := toUpperCase answer; currentRow := 0; currentCol := 0;
       currentGuess := []; gameOver := false; hardMode := hardMode g;
       hardConstraints := no_constraints; practiceMode := false;
       modalOpen := false |});;
  emit BuildBoard.

Section Dictionary.

(** [ALL_VALID_WORDS], the accepted word list of [words.js]. *)
Context (ALL_VALID_WORDS : gset string).

(** [isValidWord(word)] *)
Definition isValidWord (word : string) : bool :=
  bool_decide (toLowerCase word ∈ ALL_VALID_WORDS).

(** [submitGuess()] *)
Definition submitGuess : M unit :=
  col ← gets currentCol;
  row ← gets currentRow;
  if decide (col < WORD_LENGTH) then
    emit (Toast "Not enough letters") ;; emit (ShakeRow row)
  else
    letters ← gets currentGuess;
    let guessWord := String.string_of_list_ascii letters in
    emit MpClearTyping;;
    if negb (isValidWord guessWord) then
      emit (Toast "Not in word list") ;; emit (ShakeRow row)
    else
      hard ← gets hardMode;
      hardError ← (if (hard : bool) then checkHardMode guessWord else mret None);
      match hardError with
      | Some msg => emit (Toast msg) ;; emit (ShakeRow row)
      | None =>
          target ← gets targetWord;
          emit (RevealRow row guessWord (evaluateGuess guessWord target))
      end.

(** A key that is one letter: [/^[a-z]$/i.test(key) && key.length === 1]. *)
Definition letter_key (key : string) : option ascii :=
  match key with
  | String c EmptyString => if is_alpha c then Some c else None
  | _ => None
  end.

Definition game_key (key : string) : bool :=
  bool_decide (key = "Enter") || bool_decide (key = "Backspace")
  || bool_decide (is_Some (letter_key key)).

Definition dispatchKey (key : string) : M unit :=
  if decide (key = "Enter") then submitGuess
  else if decide (key = "Backspace") then deleteLetter
  else match letter_key key with
       | Some c => addLetter (upper_char c)
       | None => mret tt
       end.

(** [handleKey(key)] *)
Definition handleKey (key : string) : M unit :=
  over ← gets gameOver;
  if (over : bool) then mret tt
  else
    modal ← gets modalOpen;
    if (modal : bool) then
      if game_key key then
        emit CloseModals ;; modify (set_modalOpen false) ;; dispatchKey key
      else mret tt
    else dispatchKey key.

End Dictionary.

(** ** The shared store ([src/multiplayer.js], record layout of
      [parties/{code}]) *)

Inductive Status : Type := lobby | choosing | playing | results.

#[global] Instance Status_eq_dec : EqDecision Status.
Proof. solve_decision. Defined.

Inductive GameMode : Type := classic | custom.

Record Guess : Type := mkGuess { word : string; marks_csv : string }.

(** A player record.  The store is schemaless: a field that was never
    written, or was written [null], is absent ([None]), and reads as
    [undefined]; an empty [guesses] object is an absent one. *)
Record Player : Type := mkPlayer {
  name : option string;
  done : option bool;
  won : option bool;
  guessCount : option nat;
  guesses : list (nat * Guess);
  isWordSetter : option bool;
  typing : option string;
  proposedWord : option string
}.

Definition no_player : Player :=
  {| name := None; done := None; won := None; guessCount := None;
     guesses := []; isWordSetter := None; typing := None; proposedWord := None |}.

(** [mpPlayerObj(name)] *)
Definition mpPlayerObj (n : string) : Player :=
  {| name := Some n; done := Some false; won := Some false;
     guessCount := Some 0; guesses := []; isWordSetter := Some false;
     typing := None; proposedWord := None |}.

Record Party : Type := mkParty {
  host : string;
  status : Status;
  gameMode : GameMode;
  round : nat;
  partyTargetWord : string;
  wordSetterIndex : nat;
  wordQueue : list (nat * string);
  players : gmap string Player
}.

(** One path/value pair of a multi-path [update], or a [set]. *)
Inductive Leaf : Type :=
| PlayerDone (id : string) (v : bool)
| PlayerWon (id : string) (v : bool)
| PlayerGuessCount (id : string) (v : nat)
| PlayerGuessesEmpty (id : string)
| PlayerIsWordSetter (id : string) (v : bool)
| PlayerProposedWord (id : string) (v : option string)
| TargetWord (w : string)
| StatusIs (s : Status).

Definition with_player (id : string) (f : Player → Player) (pt : Party) : Party :=
  {| host := host pt; status := status pt; gameMode := gameMode pt;
     round := round pt; partyTargetWord := partyTargetWord pt;
     wordSetterIndex := wordSetterIndex pt; wordQueue := wordQueue pt;
     players := <[id := f (default no_player (players pt !! id))]> (players pt) |}.

(** Writing one leaf; a write below a missing player creates the record. *)
Definition write_leaf (pt : Party) (l : Leaf) : Party :=
  match l with
  | PlayerDone id v => with_player id (λ p,
      {| name := name p; done := Some v; won := won p; guessCount := guessCount p;
         guesses := guesses p; isWordSetter := isWordSetter p; typing := typing p;
         proposedWord := proposedWord p |}) pt
  | PlayerWon id v => with_player id (λ p,
      {| name := name p; done := done p; won := Some v; guessCount := guessCount p;
         guesses := guesses p; isWordSetter := isWordSetter p; typing := typing p;
         proposedWord := proposedWord p |}) pt
  | PlayerGuessCount id v => with_player id (λ p,
      {| name := name p; done := done p; won := won p; guessCount := Some v;
         guesses := guesses p; isWordSetter := isWordSetter p; typing := typing p;
         proposedWord := proposedWord p |}) pt
  | PlayerGuessesEmpty id => with_player id (λ p,
      {| name := name p; done := done p; won := won p; guessCount := guessCount p;
         guesses := []; isWordSetter := isWordSetter p; typing := typing p;
         proposedWord := proposedWord p |}) pt
  | PlayerIsWordSetter id v => with_player id (λ p,
      {| name := name p; done := done p; won := won p; guessCount := guessCount p;
         guesses := guesses p; isWordSetter := Some v; typing := typing p;
         proposedWord := proposedWord p |}) pt
  | PlayerProposedWord id v => with_player id (λ p,
      {| name := name p; done := done p; won := won p; guessCount := guessCount p;
         guesses := guesses p; isWordSetter := isWordSetter p; typing := typing p;
         proposedWord := v |}) pt
  | TargetWord w =>
      {| host := host pt; status := status pt; gameMode := gameMode pt;
         round := round pt; partyTargetWord := w;
         wordSetterIndex := wordSetterIndex pt; wordQueue := wordQueue pt;
         players := players pt |}
  | StatusIs s =>
      {| host := host pt; status := s; gameMode := gameMode pt;
         round := round pt; partyTargetWord := partyTargetWord pt;
         wordSetterIndex := wordSetterIndex pt; wordQueue := wordQueue pt;
         players := players pt |}
  end.

(** What a client sends to the store. *)
Inductive Write : Type :=
| Update (leaves : list Leaf)
| RemoveParty
| RemovePlayer (id : string).

(** [mpPartyRef.update(obj)]: all leaves at once. *)
Definition apply_update (leaves : list Leaf) (pt : Party) : Party :=
  fold_left write_leaf leaves pt.

(** The per-player part of the [resets] object built by the host relay
    and by the host's own [mpSubmitSecretWord]. *)
Definition round_resets (setterId : option string) (clearProposed : bool)
    (id : string) : list Leaf :=
  [ PlayerDone id (bool_decide (Some id = setterId));
    PlayerWon id false;
    PlayerGuessCount id 0;
    PlayerGuessesEmpty id;
    PlayerIsWordSetter id (bool_decide (Some id = setterId)) ]
  ++ (if clearProposed then [PlayerProposedWord id None] else []).

(** [Object.keys(snap.val() || {})] *)
Definition Object_keys (ps : gmap string Player) : list string :=
  (map_to_list ps).*1.

(** [/^[A-Za-z]{5}$/.test(w)] *)
Definition five_letters (w : string) : bool :=
  bool_decide (String.length w = 5) && forallb_string is_alpha w.

(** [/^[A-Z]+$/.test(w)] *)
Definition upper_letters (w : string) : bool :=
  negb (bool_decide (w = EmptyString)) && forallb_string is_upper w.

(** [all.length > 0 && all.every(p => p.done)] on [Object.values(players)] *)
Definition all_done (ps : gmap string Player) : bool :=
  bool_decide (0 < size ps)
  && forallb (λ p, bool_decide (done p = Some true)) (map_to_list ps).*2.

(** ** A multiplayer client ([src/multiplayer.js]) *)

(** The listener callbacks of [multiplayer.js], one constructor per
    closure passed to [ref.on('value', ...)]. *)
Inductive Callback : Type :=
| LobbyPlayers                          (* fn1 of listenLobby *)
| LobbyMode                             (* fn2 of listenLobby *)
| LobbyStatus                           (* fn3 of listenLobby *)
| ChoosingStatus                        (* fn of handleChoosingPhase *)
| Relay (setterId : option string)      (* relayFn of handleChoosingPhase *)
| SetterStatus                          (* fn of mpSubmitSecretWord *)
| WatchPlayers                          (* players fn of showMpWatchingOverlay *)
| WatchStatus                           (* status fn of showMpWatchingOverlay *)
| RoundEndPlayers                       (* fn of listenForRoundEnd *)
| RoundEndStatus                        (* fn2 of listenForRoundEnd *)
| ResultsStatus                         (* nextRoundFn of showMpResults *)
| LiveBoards (spectatorMode : bool).    (* fn of startLiveBoardsListener *)

#[global] Instance Callback_eq_dec : EqDecision Callback.
Proof. solve_decision. Defined.

(** A ['value'] notification: the path it is for and [snap.val()]. *)
Inductive Event : Type :=
| EvStatus (s : option Status)
| EvPlayers (ps : gmap string Player)
| EvGameMode (m : option GameMode)
| EvProposed (playerId : option string) (v : option string).

(** The module-level variables of [multiplayer.js], with the listeners
    this client has attached at the store ([attached], each under the
    handle [on] returned) and the next fresh handle.  [mpListeners]
    holds the clean-up closures, each detaching the handle it names. *)
Record Client : Type := mkClient {
  mpActive : bool;
  mpPlayerId : string;
  mpIsHost : bool;
  mpGameMode : GameMode;
  mpPartyRef : bool;
  mpListeners : list nat;
  mpLocalGuesses : list (string * list LetterState);
  mpDone : bool;
  mpIsWordSetter : bool;
  attached : list (nat * Callback);
  nextHandle : nat
}.

(** Functions of [multiplayer.js] that start with an [await] of a store
    read; calling one suspends it until the read resolves. *)
Inductive Task : Type :=
| StartMpRound
| HandleChoosingPhase
| ShowMpResults
| RelayApply (setterId : option string) (proposed : string).

Inductive Action : Type :=
| Send (w : Write)            (* a write issued to the store *)
| Call (t : Task)             (* an async function started *)
| ShowToast (msg : string)
| ResetBoard                  (* startGame() of script.js *)
| SetTarget (w : string).     (* targetWord = party.targetWord *)

Definition set_listeners (ls : list nat) (a : list (nat * Callback)) (n : nat)
    (c : Client) : Client :=
  {| mpActive := mpActive c; mpPlayerId := mpPlayerId c; mpIsHost := mpIsHost c;
     mpGameMode := mpGameMode c; mpPartyRef := mpPartyRef c; mpListeners := ls;
     mpLocalGuesses := mpLocalGuesses c; mpDone := mpDone c;
     mpIsWordSetter := mpIsWordSetter c; attached := a; nextHandle := n |}.

(** [const fn = ref.on('value', k); mpListeners.push(() => ref.off('value', fn))] *)
Definition attach (k : Callback) (c : Client) : Client :=
  set_listeners (mpListeners c ++ [nextHandle c])
                (attached c ++ [(nextHandle c, k)]) (S (nextHandle c)) c.

(** [ref.off('value', fn)] *)
Definition off (h : nat) (c : Client) : Client :=
  set_listeners (mpListeners c) (filter (λ e, e.1 ≠ h) (attached c)) (nextHandle c) c.

Definition set_round_vars (guesses0 : list (string * list LetterState))
    (isDone isSetter : bool) (c : Client) : Client :=
  {| mpActive := mpActive c; mpPlayerId := mpPlayerId c; mpIsHost := mpIsHost c;
     mpGameMode := mpGameMode c; mpPartyRef := mpPartyRef c;
     mpListeners := mpListeners c; mpLocalGuesses := guesses0; mpDone := isDone;
     mpIsWordSetter := isSetter; attached := attached c; nextHandle := nextHandle c |}.

Definition set_identity (id : string) (c : Client) : Client :=
  {| mpActive := mpActive c; mpPlayerId := id; mpIsHost := mpIsHost c;
     mpGameMode := mpGameMode c; mpPartyRef := mpPartyRef c;
     mpListeners := mpListeners c; mpLocalGuesses := mpLocalGuesses c;
     mpDone := mpDone c; mpIsWordSetter := mpIsWordSetter c;
     attached := attached c; nextHandle := nextHandle c |}.

Definition set_mode (m : GameMode) (c : Client) : Client :=
  {| mpActive := mpActive c; mpPlayerId := mpPlayerId c; mpIsHost := mpIsHost c;
     mpGameMode := m; mpPartyRef := mpPartyRef c;
     mpListeners := mpListeners c; mpLocalGuesses := mpLocalGuesses c;
     mpDone := mpDone c; mpIsWordSetter := mpIsWordSetter c;
     attached := attached c; nextHandle := nextHandle c |}.

Definition set_active (b : bool) (c : Client) : Client :=
  {| mpActive := b; mpPlayerId := mpPlayerId c; mpIsHost := mpIsHost c;
     mpGameMode := mpGameMode c; mpPartyRef := mpPartyRef c;
     mpListeners := mpListeners c; mpLocalGuesses := mpLocalGuesses c;
     mpDone := mpDone c; mpIsWordSetter := mpIsWordSetter c;
     attached := attached c; nextHandle := nextHandle c |}.

(** [listenLobby()] *)
Definition listenLobby (c : Client) : Client :=
  attach LobbyStatus (attach LobbyMode (attach LobbyPlayers c)).

(** [enterLobby()] *)
Definition enterLobby (c : Client) : Client :=
  listenLobby (set_active true c).

(** [startLiveBoardsListener(spectatorMode)]; its container is part of
    the page. *)
Definition startLiveBoardsListener (spectatorMode : bool) (c : Client) : Client :=
  attach (LiveBoards spectatorMode) c.

(** [listenForRoundEnd()] *)
Definition listenForRoundEnd (c : Client) : Client :=
  let c1 := if mpIsHost c then attach RoundEndPlayers c else c in
  attach RoundEndStatus c1.

(** [showMpWatchingOverlay()] *)
Definition showMpWatchingOverlay (c : Client) : Client :=
  let c1 := startLiveBoardsListener true c in
  let c2 := if mpIsHost c1 then attach WatchPlayers c1 else c1 in
  attach WatchStatus c2.

(** The body of a listener callback up to its first [await]; [h] is the
    handle of the listener itself. *)
Definition on_value (k : Callback) (h : nat) (ev : Event) (c : Client)
  : Client * list Action :=
  match k, ev with
  | LobbyMode, EvGameMode (Some m) => (set_mode m c, [])
  | LobbyStatus, EvStatus (Some choosing) => (off h c, [Call HandleChoosingPhase])
  | LobbyStatus, EvStatus (Some playing) => (off h c, [Call StartMpRound])
  | ChoosingStatus, EvStatus (Some playing) => (off h c, [Call StartMpRound])
  | SetterStatus, EvStatus (Some playing) => (showMpWatchingOverlay (off h c), [])
  | WatchStatus, EvStatus (Some results) => (off h c, [Call ShowMpResults])
  | RoundEndStatus, EvStatus (Some results) => (off h c, [Call ShowMpResults])
  | ResultsStatus, EvStatus (Some playing) => (off h c, [Call StartMpRound])
  | ResultsStatus, EvStatus (Some choosing) => (off h c, [Call HandleChoosingPhase])
  | ResultsStatus, EvStatus (Some lobby) => (enterLobby (off h c), [])
  | WatchPlayers, EvPlayers ps
  | RoundEndPlayers, EvPlayers ps =>
      if all_done ps then (off h c, [Send (Update [StatusIs results])]) else (c, [])
  | Relay setterId, EvProposed _ (Some proposed) =>
      if five_letters proposed
      then (off h c, [Call (RelayApply setterId proposed)])
      else (c, [])
  | _, _ => (c, [])
  end.

(** The path a callback is registered on is the path of the event. *)
Definition listens (k : Callback) (ev : Event) : bool :=
  match k, ev with
  | (LobbyPlayers | WatchPlayers | RoundEndPlayers | LiveBoards _), EvPlayers _ => true
  | LobbyMode, EvGameMode _ => true
  | (LobbyStatus | ChoosingStatus | SetterStatus | WatchStatus | RoundEndStatus
     | ResultsStatus), EvStatus _ => true
  | Relay setterId, EvProposed id _ => bool_decide (setterId = id)
  | _, _ => false
  end.

Definition notify (ev : Event) (acc : Client * list Action) (e : nat * Callback)
  : Client * list Action :=
  if decide (e ∈ attached acc.1 ∧ listens e.2 ev = true) then
    let r := on_value e.2 e.1 ev acc.1 in (r.1, acc.2 ++ r.2)
  else acc.

(** The store notifies the listeners attached when the event arrives,
    in order; one detached by an earlier callback is not called. *)
Definition deliver (ev : Event) (c : Client) : Client * list Action :=
  fold_left (notify ev) (attached c) (c, []).

(** The rest of an async function once its read has resolved with
    [party] ([None]: the party is gone, [snap.val()] is [null]). *)
Definition resume (t : Task) (party : option Party) (c : Client)
  : Client * list Action :=
  match t, party with
  | StartMpRound, None =>
      (* [party.targetWord] throws after the board was reset *)
      (set_round_vars [] false false c, [ResetBoard])
  | StartMpRound, Some pt =>
      let c1 := set_round_vars [] false false c in
      (listenForRoundEnd (startLiveBoardsListener false c1),
       [ResetBoard; SetTarget (partyTargetWord pt)])
  | HandleChoosingPhase, None => (c, [])
  | HandleChoosingPhase, Some pt =>
      let setterId := obj_get (wordSetterIndex pt) (wordQueue pt) in
      let setter := bool_decide (Some (mpPlayerId c) = setterId) in
      let c1 := set_round_vars (mpLocalGuesses c) (mpDone c) setter c in
      if setter then (c1, [])
      else if decide (players pt = ∅) then (c1, [])   (* [party.players] is undefined *)
      else
        let c2 := attach ChoosingStatus c1 in
        (if mpIsHost c2 then attach (Relay setterId) c2 else c2, [])
  | ShowMpResults, None => (c, [])
  | ShowMpResults, Some pt =>
      if mpPartyRef c then (attach ResultsStatus c, []) else (c, [])
  | RelayApply setterId proposed, _ =>
      let ids := Object_keys (from_option players ∅ party) in
      (c, [Send (Update (flat_map (round_resets setterId true) ids));
           Send (Update [TargetWord (toUpperCase proposed); StatusIs playing])])
  end.

(** [cleanupMp()]: every clean-up closure runs, then the variables are
    reset. *)
Definition cleanupMp (c : Client) : Client :=
  let c1 := fold_left (λ c' h, off h c') (mpListeners c) c in
  {| mpActive := false; mpPlayerId := mpPlayerId c1; mpIsHost := false;
     mpGameMode := mpGameMode c1; mpPartyRef := false; mpListeners := [];
     mpLocalGuesses := []; mpDone := false; mpIsWordSetter := false;
     attached := attached c1; nextHandle := nextHandle c1 |}.

(** [leaveParty()]; [removed] tells whether the awaited [remove()]
    resolved ([true]) or rejected ([false]).  A rejection leaves the
    function at the [await]. *)
Definition leaveParty (removed : bool) (c : Client) : Client * list Action :=
  if mpPartyRef c then
    let w := if mpIsHost c then RemoveParty else RemovePlayer (mpPlayerId c) in
    if removed then (cleanupMp c, [Send w; ShowToast "Left party"])
    else (c, [Send w])
  else (cleanupMp c, [ShowToast "Left party"]).

(** [String.prototype.trim] on ASCII: tab, line feed, vertical tab, form
    feed, carriage return and space. *)
Definition is_space (c : ascii) : bool :=
  ((9 <=? nat_of_ascii c) && (nat_of_ascii c <=? 13)) || (nat_of_ascii c =? 32).

Fixpoint drop_spaces (l : list ascii) : list ascii :=
  match l with
  | [] => []
  | c :: l' => if is_space c then drop_spaces l' else l
  end.

Definition trim (s : string) : string :=
  String.string_of_list_ascii
    (rev (drop_spaces (rev (drop_spaces (String.list_ascii_of_string s))))).

(** How an awaited write ended: resolved, rejected with
    [PERMISSION_DENIED], or rejected otherwise. *)
Inductive WriteOutcome : Type := Accepted | PermissionDenied | OtherFailure.

(** What [mpSubmitSecretWord] learns from outside while it runs: the
    outcome of [ensureFirebaseReady()] and its error message, the auth
    uid (empty when there is none), the party read back from the store
    ([None]: the read failed; [Some None]: no such party), the text of
    the input field, the players the host reads before resetting them,
    and how the non-host's write of [proposedWord] ended. *)
Record SubmitEnv : Type := mkSubmitEnv {
  ready : bool;
  authError : string;
  authUid : string;
  partyRead : option (option Party);
  input : string;
  playersRead : gmap string Player;
  proposeOutcome : WriteOutcome
}.

Definition or_default (msg fallback : string) : string :=
  if decide (msg = EmptyString) then fallback else msg.

Definition set_done (b : bool) (c : Client) : Client :=
  set_round_vars (mpLocalGuesses c) b (mpIsWordSetter c) c.

(** [mpSubmitSecretWord()] of [src/multiplayer.js]. *)
Definition mpSubmitSecretWord (env : SubmitEnv) (c : Client) : Client * list Action :=
  if negb (ready env) then
    (c, [ShowToast (or_default (authError env) "Multiplayer unavailable right now")])
  else if decide (authUid env = EmptyString) then
    (c, [ShowToast "Multiplayer session unavailable. Please rejoin the party."])
  else
    let previousPlayerId := mpPlayerId c in
    let c1 := set_identity (authUid env) c in
    match partyRead env with
    | None => (c1, [ShowToast "Failed to validate chooser state. Please try again."])
    | Some party =>
        let queue := from_option wordQueue [] party in
        let idx := from_option wordSetterIndex 0 party in
        let liveSetterId := default EmptyString (obj_get idx queue) in
        let setter := bool_decide (mpPlayerId c1 = liveSetterId) in
        let c2 := set_round_vars (mpLocalGuesses c1) (mpDone c1) setter c1 in
        if negb setter then
          if bool_decide (previousPlayerId ≠ EmptyString)
             && bool_decide (previousPlayerId ≠ mpPlayerId c2)
             && bool_decide (previousPlayerId = liveSetterId)
          then (c2, [ShowToast
                  "Session changed on this device. Rejoin the party to submit the word."])
          else (c2, [ShowToast "Waiting for the selected player to submit the word"])
        else
          let w := toUpperCase (trim (input env)) in
          if negb (bool_decide (String.length w = 5)) then
            (c2, [ShowToast "Word must be exactly 5 letters"])
          else if negb (upper_letters w) then
            (c2, [ShowToast "Word must contain only letters"])
          else if mpIsHost c2 then
            let ids := Object_keys (playersRead env) in
            (showMpWatchingOverlay (set_done true c2),
             [Send (Update (flat_map (round_resets (Some (mpPlayerId c2)) false) ids));
              Send (Update [TargetWord w; StatusIs playing])])
          else
            let proposal := Send (Update [PlayerProposedWord (authUid env) (Some w)]) in
            match proposeOutcome env with
            | Accepted => (attach SetterStatus (set_done true c2), [proposal])
            | PermissionDenied =>
                (c2, [proposal; ShowToast
                  "Submission denied. Your phone session changed — rejoin the party and try again."])
            | OtherFailure =>
                (c2, [proposal; ShowToast "Failed to submit word. Please try again."])
            end
    end.

(** The older copy of the module kept in the repository
    ([src/unnamed/part_000]). *)
Module Legacy.

(** Its [showMpWatchingOverlay()] only waits for the results. *)
Definition showMpWatchingOverlay (c : Client) : Client := attach WatchStatus c.

(** Its [mpSubmitSecretWord()]; [dict] is [ALL_VALID_WORDS]. *)
Definition mpSubmitSecretWord (dict : gset string) (input : string)
    (playersRead : gmap string Player) (c : Client) : Client * list Action :=
  let w := toUpperCase (trim input) in
  if negb (bool_decide (String.length w = 5)) then
    (c, [ShowToast "Word must be 5 letters"])
  else if negb (isValidWord dict w) then
    (c, [ShowToast "Not in word list"])
  else
    let ids := Object_keys playersRead in
    (showMpWatchingOverlay (set_done true c),
     [Send (Update (flat_map (round_resets (Some (mpPlayerId c)) false) ids));
      Send (Update [TargetWord w; StatusIs playing])]).

End Legacy.


(** The async functions started by a step. *)
Definition calls (acts : list Action) : list Task :=
  omap (λ a, match a with Call t => Some t | _ => None end) acts.

(** Delivering a sequence of events, with the actions of each. *)
Fixpoint run (evs : list Event) (c : Client) : list (list Action) :=
  match evs with
  | [] => []
  | ev :: evs' => let r := deliver ev c in r.2 :: run evs' r.1
  end.

(** Resuming started functions in order, each with the read it awaited. *)
Fixpoint resume_all (ts : list Task) (reads : list (option Party)) (c : Client) : Client :=
  match ts, reads with
  | t :: ts', rd :: reads' => resume_all ts' reads' (resume t rd c).1
  | _, _ => c
  end.

(** ** Notions used to state the properties *)

(** A renaming of the letters, applied to an array cell. *)
Definition val_map (f : ascii → ascii) (v : Js.val) : Js.val :=
  match v with
  | Js.Chr c => Js.Chr (f c)
  | _ => v
  end.

(** A recorded exact position that the word does not satisfy. *)
Definition violated_position (hc : HardConstraints) (w : string) (pos : nat)
    (l : jsletter) : Prop :=
  (pos, l) ∈ exactPositions hc ∧ String.get pos w ≠ l.

(** A recorded letter that the word holds too few times. *)
Definition violated_letter (hc : HardConstraints) (w : string) (c : Constraint) : Prop :=
  c ∈ mustContain hc ∧ count_letter (letter c) w < minCount c.

(** The minimum count recorded for a letter, [0] when there is none. *)
Definition minimum_for (l : string) (mc : list Constraint) : nat :=
  match find_constraint l mc with
  | Some c => minCount c
  | None => 0
  end.

(** Lookup in an object with string keys. *)
Definition freq_get (l : string) (m : list (string * nat)) : nat :=
  match find (λ e, bool_decide (e.1 = l)) m with
  | Some e => e.2
  | None => 0
  end.

(** [hc'] records everything [hc] does: the same positions, and at
    each index of [mustContain] the same letter with a minimum that
    is not smaller. *)
Definition constraints_le (hc hc' : HardConstraints) : Prop :=
  (∀ pos, is_Some (obj_get pos (exactPositions hc)) →
          is_Some (obj_get pos (exactPositions hc')))
  ∧ (∀ k c, mustContain hc !! k = Some c →
            ∃ c', mustContain hc' !! k = Some c'
                  ∧ letter c' = letter c ∧ minCount c ≤ minCount c').

(** Every recorded position holds the target's letter. *)
Definition agrees_with (hc : HardConstraints) (target : string) : Prop :=
  ∀ pos l, obj_get pos (exactPositions hc) = Some l → String.get pos target = l.

(** The two callbacks that run the all-done check. *)
Definition is_barrier (k : Callback) : bool :=
  match k with
  | RoundEndPlayers | WatchPlayers => true
  | _ => false
  end.

Definition barriers (c : Client) : list (nat * Callback) :=
  filter (λ e, is_barrier e.2 = true) (attached c).

Definition results_write : list Action := [Send (Update [StatusIs results])].

(** The writes a host issues over a sequence of players snapshots:
    [results] at the first one in which everyone is done, if the
    check is still [armed], and nothing otherwise. *)
Fixpoint barrier_writes (armed : bool) (snaps : list (gmap string Player))
  : list (list Action) :=
  match snaps with
  | [] => []
  | ps :: snaps' =>
      if armed && all_done ps then results_write :: barrier_writes false snaps'
      else [] :: barrier_writes armed snaps'
  end.

(** The status values on which a status callback detaches and acts. *)
Definition reacts (k : Callback) (s : option Status) : bool :=
  match k, s with
  | LobbyStatus, Some (choosing | playing) => true
  | ChoosingStatus, Some playing => true
  | SetterStatus, Some playing => true
  | WatchStatus, Some results => true
  | RoundEndStatus, Some results => true
  | ResultsStatus, Some (playing | choosing | lobby) => true
  | _, _ => false
  end.

(** No attached listener reacts to [s]. *)
Definition quiescent (s : option Status) (c : Client) : Prop :=
  ∀ e, e ∈ attached c → reacts e.2 s = false.

(** The async function a status callback starts on a value. *)
Definition started (k : Callback) (s : option Status) : list Task :=
  match k, s with
  | LobbyStatus, Some choosing => [HandleChoosingPhase]
  | LobbyStatus, Some playing => [StartMpRound]
  | ChoosingStatus, Some playing => [StartMpRound]
  | WatchStatus, Some results => [ShowMpResults]
  | RoundEndStatus, Some results => [ShowMpResults]
  | ResultsStatus, Some playing => [StartMpRound]
  | ResultsStatus, Some choosing => [HandleChoosingPhase]
  | _, _ => []
  end.

(** The status value that starts each async function. *)
Definition started_on (t : Task) (s : option Status) : Prop :=
  match t with
  | StartMpRound => s = Some playing
  | HandleChoosingPhase => s = Some choosing
  | ShowMpResults => s = Some results
  | RelayApply _ _ => False
  end.

(** A player record after the round reset. *)
Definition reset_player (sid : option string) (clearProposed : bool) (id : string)
    (p : Player) : Player :=
  {| name := name p;
     done := Some (bool_decide (Some id = sid));
     won := Some false;
     guessCount := Some 0;
     guesses := [];
     isWordSetter := Some (bool_decide (Some id = sid));
     typing := typing p;
     proposedWord := if clearProposed then None else proposedWord p |}.

(** ** Sample inputs *)

(** A client that has just created ([isHost]) or joined a party. *)
Definition fresh_client (id : string) (isHost : bool) : Client :=
  {| mpActive := false; mpPlayerId := id; mpIsHost := isHost; mpGameMode := classic;
     mpPartyRef := true; mpListeners := []; mpLocalGuesses := []; mpDone := false;
     mpIsWordSetter := false; attached := []; nextHandle := 0 |}.

(** A custom-mode party in its choosing phase whose setter is ["guest"]. *)
Definition sample_party : Party :=
  {| host := "host"; status := choosing; gameMode := custom; round := 1;
     partyTargetWord := ""; wordSetterIndex := 0;
     wordQueue := [(0, "guest"); (1, "host")];
     players := <["guest" := mpPlayerObj "Ann"]> (<["host" := mpPlayerObj "Bob"]> ∅) |}.

(** The non-host setter of [sample_party] typing a word. *)
Definition sample_submission (text : string) : SubmitEnv :=
  {| ready := true; authError := ""; authUid := "guest";
     partyRead := Some (Some sample_party); input := text;
     playersRead := players sample_party; proposeOutcome := Accepted |}.

(** The constraints after the guess TRACE against the target CRANE. *)
Definition sample_constraints : HardConstraints :=
  update_constraints "TRACE" (evaluateGuess "TRACE" "CRANE") no_constraints.

(** A hard-mode game on its second row with the letters of [w] typed. *)
Definition sample_game (w : string) : Game :=
  {| targetWord := "CRANE"; currentRow := 1; currentCol := 5;
     currentGuess := String.list_ascii_of_string w; gameOver := false;
     hardMode := true; hardConstraints := sample_constraints;
     practiceMode := false; modalOpen := false |}.

Definition sample_words : gset string := {[ "crane"; "trace"; "grade"; "blast"; "crate" ]}.

(** Players snapshots of a round with setter ["host"]: the guest still
    guessing, then done. *)
Definition snapshot_guessing : gmap string Player :=
  <["guest" := mpPlayerObj "Ann"]>
    (<["host" := reset_player (Some "host") false "host" (mpPlayerObj "Bob")]> ∅).

Definition snapshot_finished : gmap string Player :=
  <["guest" := {| name := Some "Ann"; done := Some true; won := Some true;
                  guessCount := Some 3; guesses := []; isWordSetter := Some false;
                  typing := None; proposedWord := None |}]> snapshot_guessing.

Definition sample_snapshots : list (gmap string Player) :=
  [snapshot_guessing; snapshot_finished; snapshot_finished].

(** ** Further notions for the scoring and the hard-mode engine *)

(** The constraints a player has accumulated after the guesses [ws],
    each scored against [target], in a round that started empty. *)
Definition accumulated_constraints (target : string) (ws : list string) : HardConstraints :=
  fold_left (λ hc w, update_constraints w (evaluateGuess w target) hc) ws no_constraints.

(** [result.every(r => r === 'correct')] *)
Definition all_correct (res : list LetterState) : bool :=
  forallb (λ r, bool_decide (r = correct)) res.

(** Every recorded position holds the target's letter and every
    recorded minimum is within the target's count of that letter. *)
Definition target_satisfies (target : string) (hc : HardConstraints) : Prop :=
  (∀ pos l, (pos, l) ∈ exactPositions hc → String.get pos target = l)
  ∧ Forall (λ c, minCount c ≤ count_letter (letter c) target) (mustContain hc).

(** What the typed letters always look like: as many as [currentCol]
    says, at most [WORD_LENGTH], all of them upper-case letters. *)
Definition typing_ok (g : Game) : Prop :=
  currentCol g = length (currentGuess g)
  ∧ currentCol g ≤ WORD_LENGTH
  ∧ Forall (λ c, is_upper c = true) (currentGuess g).

(** ** Keyboard colouring ([src/script.js], [updateKeyboard]) *)

(** [STATE_PRIORITY[state] || 0] on the state of a key; a key that was
    never coloured has none. *)
Definition STATE_PRIORITY (s : option LetterState) : nat :=
  match s with
  | Some correct => 3
  | Some present => 2
  | Some absent => 1
  | None => 0
  end.

(** The [data-state] of the keys of the on-screen keyboard, with
    whether the loop has been left by an exception. *)
Record KeyboardRun : Type := mkKeyboardRun {
  keyStates : gmap ascii LetterState;
  thrown : bool
}.

(** What [document.querySelector] makes of the selector
    [.key[data-key="<letter>"]]: the key element, [null] when the page
    has no such key, or a [SyntaxError] when the letter makes the
    selector ill-formed (a double quote or a backslash, for instance). *)
Inductive KeyQuery : Type := KeyFound | KeyMissing | KeyInvalid.

(** Body of the loop of [updateKeyboard]; [querySelector] answers the
    selector made from a letter.  [guess[i].toLowerCase()] throws when
    [guess[i]] is [undefined] and [querySelector] may throw; either
    ends the loop. *)
Definition color_key (querySelector : ascii → KeyQuery) (guess : string)
    (run : KeyboardRun) (state : LetterState) (i : nat) : KeyboardRun :=
  if thrown run then run
  else
    match String.get i guess with
    | None => {| keyStates := keyStates run; thrown := true |}
    | Some c =>
        let key := lower_char c in
        match querySelector key with
        | KeyInvalid => {| keyStates := keyStates run; thrown := true |}
        | KeyMissing => run
        | KeyFound =>
            if decide (STATE_PRIORITY (keyStates run !! key) < STATE_PRIORITY (Some state))
            then {| keyStates := <[key := state]> (keyStates run); thrown := false |}
            else run
        end
    end.

(** [updateKeyboard(guess, result)] *)
Definition updateKeyboard (querySelector : ascii → KeyQuery) (guess : string)
    (res : list LetterState) (kb : gmap ascii LetterState) : KeyboardRun :=
  forEach_i (color_key querySelector guess) res 0 {| keyStates := kb; thrown := false |}.

(** Whether the body of the loop throws at index [i]. *)
Definition throws_at (querySelector : ascii → KeyQuery) (guess : string) (i : nat) : bool :=
  match String.get i guess with
  | None => true
  | Some c =>
      match querySelector (lower_char c) with
      | KeyInvalid => true
      | _ => false
      end
  end.

(** A page with a key for each of the letters a-z; the double quote
    (code 34) and the backslash (code 92) make the selector
    ill-formed. *)
Definition letter_keys (k : ascii) : KeyQuery :=
  if is_lower k then KeyFound
  else if decide (k = "034"%char ∨ k = "092"%char) then KeyInvalid
  else KeyMissing.

(** A hard-mode game on its second row with the letters of [w] typed so
    far. *)
Definition typing_game (w : string) : Game :=
  {| targetWord := "CRANE"; currentRow := 1; currentCol := String.length w;
     currentGuess := String.list_ascii_of_string w; gameOver := false;
     hardMode := true; hardConstraints := sample_constraints;
     practiceMode := false; modalOpen := false |}.

(** ** The hooks called from [script.js] ([src/multiplayer.js]) *)

(** The strings [evaluateGuess] stores in its result array. *)
Definition state_name (s : LetterState) : string :=
  match s with
  | correct => "correct"
  | present => "present"
  | absent => "absent"
  end.

(** [Array.prototype.join] *)
Fixpoint join (sep : string) (l : list string) : string :=
  match l with
  | [] => ""
  | [x] => x
  | x :: l' => String.append x (String.append sep (join sep l'))
  end.

(** [String.prototype.split] on a one-character separator. *)
Fixpoint split (sep : ascii) (s : string) : list string :=
  match s with
  | EmptyString => [""]
  | String c s' =>
      if decide (c = sep) then "" :: split sep s'
      else
        match split sep s' with
        | w :: ws => String c w :: ws
        | [] => [String c ""]
        end
  end.

(** [VALID_STATES.has(rawState) ? rawState : 'absent'] *)
Definition parse_state (rawState : string) : LetterState :=
  if decide (rawState = "correct") then correct
  else if decide (rawState = "present") then present
  else absent.

(** The tiles [showMpResults] draws for one stored guess:
    [(g.result || '').split(',')] with each entry validated. *)
Definition mini_tiles (result : option string) : list LetterState :=
  map parse_state (split "," (default "" result)).

(** What the hooks write below [players/{mpPlayerId}]. *)
Inductive HookWrite : Type :=
| SetGuess (id : string) (rowIndex : nat) (g : Guess)
| SetGuessCount (id : string) (n : nat)
| UpdateDone (id : string) (won : bool) (n : nat)
| SetTyping (id : string) (letters : string).

Definition push_guess (guessWord : string) (res : list LetterState) (c : Client)
  : Client :=
  set_round_vars (mpLocalGuesses c ++ [(guessWord, res)]) (mpDone c)
    (mpIsWordSetter c) c.

(** [mpRecordGuess(guessWord, result, rowIndex)] up to its first
    [await].  [None] stands for the [TypeError] of [mpPartyRef.child] on
    a [null] reference, which rejects the promise. *)
Definition mpRecordGuess (guessWord : string) (res : list LetterState)
    (rowIndex : nat) (c : Client) : Client * option (list HookWrite) :=
  if negb (mpActive c) || mpDone c || mpIsWordSetter c then (c, Some [])
  else
    let c' := push_guess guessWord res c in
    if mpPartyRef c' then
      (c', Some [SetGuess (mpPlayerId c') rowIndex
                   {| word := guessWord;
                      marks_csv := join "," (map state_name res) |}])
    else (c', None).

(** The rest of [mpRecordGuess], run when the first write has resolved:
    it reads [mpLocalGuesses.length] as it is by then. *)
Definition mpRecordGuess_resume (c : Client) : Client * option (list HookWrite) :=
  if mpPartyRef c then
    (c, Some [SetGuessCount (mpPlayerId c) (length (mpLocalGuesses c))])
  else (c, None).

(** [mpMarkDone(won)] up to its [await]; the toast that follows the
    write is left out. *)
Definition mpMarkDone (isWon : bool) (c : Client) : Client * option (list HookWrite) :=
  if negb (mpActive c) || mpDone c || mpIsWordSetter c then (c, Some [])
  else
    let c' := set_round_vars (mpLocalGuesses c) true (mpIsWordSetter c) c in
    if mpPartyRef c' then
      (c', Some [UpdateDone (mpPlayerId c') isWon (length (mpLocalGuesses c'))])
    else (c', None).

(** [mpShouldSuppressSoloEnd()] *)
Definition mpShouldSuppressSoloEnd (c : Client) : bool := mpActive c.

(** [mpSyncTyping(letters)] *)
Definition mpSyncTyping (letters : list ascii) (c : Client)
  : Client * option (list HookWrite) :=
  if negb (mpActive c) || mpDone c || mpIsWordSetter c || negb (mpPartyRef c)
  then (c, Some [])
  else (c, Some [SetTyping (mpPlayerId c) (String.string_of_list_ascii letters)]).

(** [mpClearTyping()] *)
Definition mpClearTyping (c : Client) : Client * option (list HookWrite) :=
  if negb (mpActive c) || negb (mpPartyRef c) then (c, Some [])
  else (c, Some [SetTyping (mpPlayerId c) ""]).

(** What reaches the hooks, in order: the calls [script.js] makes and
    the resumptions of [mpRecordGuess]. *)
Inductive HookCall : Type :=
| RecordGuessCall (guessWord : string) (res : list LetterState) (rowIndex : nat)
| RecordGuessResume
| MarkDoneCall (isWon : bool)
| SyncTypingCall (letters : list ascii)
| ClearTypingCall.

Definition hook (e : HookCall) (c : Client) : Client * option (list HookWrite) :=
  match e with
  | RecordGuessCall w res row => mpRecordGuess w res row c
  | RecordGuessResume => mpRecordGuess_resume c
  | MarkDoneCall b => mpMarkDone b c
  | SyncTypingCall letters => mpSyncTyping letters c
  | ClearTypingCall => mpClearTyping c
  end.

(** The writes of a sequence of hook calls; a call that throws writes
    nothing. *)
Fixpoint run_hooks (calls : list HookCall) (c : Client) : Client * list HookWrite :=
  match calls with
  | [] => (c, [])
  | e :: calls' =>
      let '(c1, w1) := hook e c in
      let '(c2, w2) := run_hooks calls' c1 in
      (c2, default [] w1 ++ w2)
  end.

(** The hook calls among the effects of a game function. *)
Definition hook_calls (effs : list Effect) : list HookCall :=
  omap (λ e, match e with
             | MpRecordGuess w res row => Some (RecordGuessCall w res row)
             | MpMarkDone b => Some (MarkDoneCall b)
             | MpSyncTyping letters => Some (SyncTypingCall letters)
             | MpClearTyping => Some ClearTypingCall
             | _ => None
             end) effs.

Definition is_guess_write (w : HookWrite) : bool :=
  match w with SetGuess _ _ _ => true | _ => false end.

Definition is_done_write (w : HookWrite) : bool :=
  match w with UpdateDone _ _ _ => true | _ => false end.

Definition is_typed_write (w : HookWrite) : bool :=
  match w with
  | SetTyping _ letters => negb (bool_decide (letters = ""))
  | _ => false
  end.

(** A client in a running round; [isDone] and [isSetter] as
    [startMpRound] set them. *)
Definition playing_client (id : string) (isDone isSetter : bool) : Client :=
  {| mpActive := true; mpPlayerId := id; mpIsHost := false; mpGameMode := classic;
     mpPartyRef := true; mpListeners := []; mpLocalGuesses := []; mpDone := isDone;
     mpIsWordSetter := isSetter; attached := []; nextHandle := 0 |}.

(** The guard shared by [mpRecordGuess] and [mpMarkDone]. *)
Definition hooks_blocked (c : Client) : bool :=
  negb (mpActive c) || mpDone c || mpIsWordSetter c.

Definition count_writes (p : HookWrite → bool) (ws : list HookWrite) : nat :=
  length (List.filter p ws).

(** ** Party codes and player names ([src/multiplayer.js]) *)

Definition party_chars : string := "ABCDEFGHJKLMNPQRSTUVWXYZ23456789".

(** [chars[b % chars.length]] *)
Definition code_char (b : nat) : option ascii :=
  String.get (b mod String.length party_chars) party_chars.

(** [generatePartyCode()]; [arr] is the byte array as
    [crypto.getRandomValues] filled it.  [join('')] writes nothing for
    an [undefined] entry. *)
Definition generatePartyCode (arr : list nat) : string :=
  String.string_of_list_ascii (omap code_char arr).

(** [s.replace(/[^...]/g, '')] for a character class [keep]. *)
Definition filter_string (keep : ascii → bool) (s : string) : string :=
  String.string_of_list_ascii (List.filter keep (String.list_ascii_of_string s)).

(** The code [joinParty] reads:
    [value.trim().toUpperCase().replace(/[^A-Z0-9]/g, '')]. *)
Definition normalize_code (raw : string) : string :=
  filter_string (λ c, is_upper c || is_digit c) (toUpperCase (trim raw)).

(** [code.length !== 6] lets the code through. *)
Definition code_accepted (code : string) : bool :=
  bool_decide (String.length code = 6).

(** [/[A-Za-z0-9 '\-]/] *)
Definition name_char (c : ascii) : bool :=
  is_alpha c || is_digit c || Ascii.eqb c " " || Ascii.eqb c "'" || Ascii.eqb c "-".

(** [replace(/\s+/g, ' ')] on a list of characters; [in_run] tells that
    the previous character was white space. *)
Fixpoint collapse_spaces (in_run : bool) (l : list ascii) : list ascii :=
  match l with
  | [] => []
  | c :: l' =>
      if is_space c then
        if in_run then collapse_spaces true l' else " "%char :: collapse_spaces true l'
      else c :: collapse_spaces false l'
  end.

(** [s.slice(0, n)] *)
Definition slice_to (n : nat) (s : string) : string :=
  String.string_of_list_ascii (take n (String.list_ascii_of_string s)).

(** [sanitizePlayerName(raw)] *)
Definition sanitizePlayerName (raw : string) : string :=
  let stripped := filter_string name_char raw in
  let collapsed :=
    String.string_of_list_ascii
      (collapse_spaces false (String.list_ascii_of_string stripped)) in
  slice_to 20 (trim collapsed).

(** ** The word of the day ([src/script.js], [pickWord]) *)

(** [((epochDay % n) + n) % n] with the truncating [%] of JavaScript;
    [None] is the [NaN] that [n = 0] gives. *)
Definition daily_index (epochDay : Z) (n : nat) : option nat :=
  if decide (n = 0) then None
  else Some (Z.to_nat (Z.rem (Z.rem epochDay (Z.of_nat n) + Z.of_nat n) (Z.of_nat n))).

(** The branch of [pickWord()] for the daily game; [epochDay] is the
    number of days since 19 June 2021.  [None] stands for the
    [TypeError] of [ANSWERS[idx].toUpperCase()] on a missing entry. *)
Definition pickWord_daily (ANSWERS : list string) (epochDay : Z) : option string :=
  idx ← daily_index epochDay (length ANSWERS);
  toUpperCase <$> ANSWERS !! idx.

(** ** Statistics ([src/script.js], [recordResult]) *)

(** A number of the distribution: a count, or [NaN]. *)
Inductive Num : Type := Count (n : nat) | NaN.

Record Stats : Type := mkStats {
  played : nat;
  wins : nat;
  streak : nat;
  maxStreak : nat;
  distribution : gmap nat Num
}.

(** The initial value of [stats]. *)
Definition initial_stats : Stats :=
  {| played := 0; wins := 0; streak := 0; maxStreak := 0;
     distribution := list_to_map (map (λ i, (i, Count 0)) (seq 1 MAX_GUESSES)) |}.

(** [x++] on a property that may be missing: [undefined + 1] is [NaN]. *)
Definition increment (v : option Num) : Num :=
  match v with
  | Some (Count n) => Count (n + 1)
  | _ => NaN
  end.

(** [recordResult(won, rowUsed)], the update of [stats]; saving and
    rendering are left out. *)
Definition recordResult (isWon : bool) (rowUsed : nat) (s : Stats) : Stats :=
  if isWon then
    {| played := played s + 1; wins := wins s + 1; streak := streak s + 1;
       maxStreak := Nat.max (maxStreak s) (streak s + 1);
       distribution :=
         <[rowUsed := increment (distribution s !! rowUsed)]> (distribution s) |}
  else
    {| played := played s + 1; wins := wins s; streak := 0;
       maxStreak := maxStreak s; distribution := distribution s |}.

(** [stats.distribution[i] || 0], the count [renderStats] shows. *)
Definition shown_count (d : gmap nat Num) (i : nat) : nat :=
  match d !! i with
  | Some (Count n) => n
  | _ => 0
  end.

(** The statistics add up: wins within games played, the streak within
    the best streak within the wins, and the six bars counting the
    wins. *)
Definition stats_ok (s : Stats) : Prop :=
  wins s ≤ played s ∧ streak s ≤ maxStreak s ∧ maxStreak s ≤ wins s
  ∧ (∀ i, 1 ≤ i ≤ MAX_GUESSES → ∃ n, distribution s !! i = Some (Count n))
  ∧ sum_list (map (shown_count (distribution s)) (seq 1 MAX_GUESSES)) = wins s.

(** ** The word-setter queue ([src/multiplayer.js], [mpHostStart] and
      [mpPlayAgain]) *)

(** The entries [i: x] of an array, from index [i] on. *)
Fixpoint entries_from {A} (i : nat) (l : list A) : list (nat * A) :=
  match l with
  | [] => []
  | x :: l' => (i, x) :: entries_from (S i) l'
  end.

(** [shuffled.forEach((id, i) => { wordQueue[i] = id; })] *)
Definition build_queue (shuffled : list string) : list (nat * string) :=
  forEach_i (λ q id i, obj_set i id q) shuffled 0 [].

(** The last update of [mpHostStart] in custom mode, on the party. *)
Definition start_custom (shuffled : list string) (pt : Party) : Party :=
  {| host := host pt; status := choosing; gameMode := gameMode pt;
     round := round pt + 1; partyTargetWord := ""; wordSetterIndex := 0;
     wordQueue := build_queue shuffled; players := players pt |}.

(** [((party.wordSetterIndex || 0) + 1) % queueLen]; [None] is [NaN]. *)
Definition next_setter_index (pt : Party) : option nat :=
  let queueLen := length (wordQueue pt) in
  if decide (queueLen = 0) then None
  else Some ((wordSetterIndex pt + 1) mod queueLen).

(** The last update of [mpPlayAgain] in custom mode, on the party it
    read; [None] when the index is [NaN], which the store refuses. *)
Definition play_again_custom (pt : Party) : option Party :=
  nextIdx ← next_setter_index pt;
  Some {| host := host pt; status := choosing; gameMode := gameMode pt;
          round := round pt + 1; partyTargetWord := ""; wordSetterIndex := nextIdx;
          wordQueue := wordQueue pt; players := players pt |}.

(** [party.wordQueue[party.wordSetterIndex]], the setter
    [handleChoosingPhase] reads. *)
Definition current_setter (pt : Party) : option string :=
  obj_get (wordSetterIndex pt) (wordQueue pt).

(** [k] rounds of play-again. *)
Fixpoint play_again_rounds (k : nat) (pt : Party) : option Party :=
  match k with
  | 0 => Some pt
  | S k' => pt' ← play_again_rounds k' pt; play_again_custom pt'
  end.

(** ** Runs of the reveal callback *)

(** The reveal callbacks of the rows in [rs], run in order; each entry
    is the guess, its marks and the row it was submitted on. *)
Definition reveal_all (suppress : bool)
    (rs : list (string * list LetterState * nat)) (g : Game) : Game :=
  fold_left (λ g' r, state_of (revealed suppress r.1.1 r.1.2 r.2 g')) rs g.

(** A custom-mode party whose only player is the host. *)
Definition lone_party : Party :=
  {| host := "host"; status := choosing; gameMode := custom; round := 1;
     partyTargetWord := ""; wordSetterIndex := 0; wordQueue := [(0, "host")];
     players := {[ "host" := mpPlayerObj "Bob" ]} |}.

(** ** The countdown ([src/script.js], [updateTimer]) *)

(** [s.padStart(2, '0')] *)
Definition pad2 (s : string) : string :=
  String.append
    (String.string_of_list_ascii (replicate (2 - String.length s) "0"%char)) s.

(** The three fields [updateTimer] computes from [diff], the
    milliseconds left until midnight. *)
Definition timer_hours (diff : N) : N := (diff / 3600000)%N.
Definition timer_minutes (diff : N) : N := (diff mod 3600000 / 60000)%N.
Definition timer_seconds (diff : N) : N := (diff mod 60000 / 1000)%N.

(** The text [updateTimer] shows. *)
Definition timer_text (diff : N) : string :=
  String.append (pad2 (pretty (timer_hours diff)))
    (String.append ":"
       (String.append (pad2 (pretty (timer_minutes diff)))
          (String.append ":" (pad2 (pretty (timer_seconds diff)))))).

(** ** Signing in ([src/multiplayer.js], [ensureFirebaseReady]) *)

Definition MAX_TRIES : nat := 3.

(** How one pass through the [try] block ends: both awaits resolve, or
    one rejects with an error whose [code] is given. *)
Inductive AttemptOutcome : Type :=
| SignedIn
| Rejected (code : option string).

Inductive RetryStep : Type :=
| Attempt (n : nat)          (* the sign-in of attempt [n] *)
| BackOff (ms : nat).        (* the awaited [setTimeout] *)

Inductive RetryResult : Type :=
| Ready                      (* [return] *)
| SignInDisabled             (* the new [Error] for [auth/operation-not-allowed] *)
| LastError.                 (* [throw lastErr] *)

(** The [for] loop of the sign-in promise with [left] passes to go;
    [outcome n] is how attempt [n] ends. *)
Fixpoint sign_in_loop (left attempt : nat) (outcome : nat → AttemptOutcome)
  : list RetryStep * RetryResult :=
  match left with
  | 0 => ([], LastError)
  | S left' =>
      match outcome attempt with
      | SignedIn => ([Attempt attempt], Ready)
      | Rejected code =>
          if decide (code = Some "auth/operation-not-allowed")
          then ([Attempt attempt], SignInDisabled)
          else
            let '(steps, r) := sign_in_loop left' (S attempt) outcome in
            (Attempt attempt
               :: (if decide (attempt < MAX_TRIES) then [BackOff (1200 * attempt)] else [])
               ++ steps, r)
      end
  end.

Definition sign_in (outcome : nat → AttemptOutcome) : list RetryStep * RetryResult :=
  sign_in_loop MAX_TRIES 1 outcome.

Definition attempts (steps : list RetryStep) : list nat :=
  omap (λ s, match s with Attempt n => Some n | BackOff _ => None end) steps.

Definition back_offs (steps : list RetryStep) : list nat :=
  omap (λ s, match s with BackOff ms => Some ms | Attempt _ => None end) steps.

(** An attempt that fails in a way worth retrying. *)
Definition retryable (o : AttemptOutcome) : Prop :=
  ∃ code, o = Rejected code ∧ code ≠ Some "auth/operation-not-allowed".

(** ** Player ids ([src/multiplayer.js], [getOrCreatePlayerId]) *)

Definition hex_digit (d : nat) : ascii :=
  nth d (String.list_ascii_of_string "0123456789abcdef") "0"%char.

Fixpoint hex_digits (fuel n : nat) : list ascii :=
  match fuel with
  | 0 => []
  | S fuel' =>
      if n <? 16 then [hex_digit n]
      else hex_digits fuel' (n / 16) ++ [hex_digit (n mod 16)]
  end.

(** [n.toString(16)] *)
Definition toString16 (n : nat) : string :=
  String.string_of_list_ascii (hex_digits (S n) n).

(** [Array.from(arr, b => b.toString(16).padStart(2, '0')).join('')] *)
Definition new_player_id (arr : list nat) : string :=
  join "" (map (λ b, pad2 (toString16 b)) arr).

(** [getOrCreatePlayerId()]: [authUid] is the uid of the signed-in user,
    or [''], [stored] the session's [mp_player_id] item, [arr] the
    random bytes.  Returns the id and the item afterwards. *)
Definition getOrCreatePlayerId (authUid : string) (stored : option string)
    (arr : list nat) : string * option string :=
  if decide (authUid = "") then
    match stored with
    | Some id =>
        if decide (id = "") then (new_player_id arr, Some (new_player_id arr))
        else (id, stored)
    | None => (new_player_id arr, Some (new_player_id arr))
    end
  else (authUid, stored).

Definition is_hex (c : ascii) : bool :=
  is_digit c || ((97 <=? nat_of_ascii c) && (nat_of_ascii c <=? 102)).

(** A custom-mode party in its choosing phase whose setter is the host. *)
Definition host_party : Party :=
  {| host := "host"; status := choosing; gameMode := custom; round := 1;
     partyTargetWord := ""; wordSetterIndex := 0;
     wordQueue := [(0, "host"); (1, "guest")];
     players := <["guest" := mpPlayerObj "Ann"]> (<["host" := mpPlayerObj "Bob"]> ∅) |}.

(** The host of [host_party], its setter, typing a word. *)
Definition host_submission (text : string) : SubmitEnv :=
  {| ready := true; authError := ""; authUid := "host";
     partyRead := Some (Some host_party); input := text;
     playersRead := players host_party; proposeOutcome := Accepted |}.

(** A client that entered the lobby, saw [status] become [choosing] and
    ran [handleChoosingPhase] on the party [pt]. *)
Definition choosing_client (id : string) (isHost : bool) (pt : Party) : Client :=
  (resume HandleChoosingPhase (Some pt)
     (deliver (EvStatus (Some choosing)) (enterLobby (fresh_client id isHost))).1).1.

(** Pressing the submit button of the word modal [n] times. *)
Fixpoint submit_times (n : nat) (env : SubmitEnv) (c : Client) : Client :=
  match n with
  | 0 => c
  | S n' => (mpSubmitSecretWord env (submit_times n' env c)).1
  end.

(* ==== THEOREMS ==== *)

(** Case analysis on membership in a list that is given element by
    element. *)
Ltac split_elem H :=
  cbn in H;
  repeat (apply elem_of_cons in H as [H|H]);
  [..|apply elem_of_nil in H; destruct H].

(** ** Letter case *)

Lemma length_map_string (f : ascii → ascii) (w : string) :
  String.length (map_string f w) = String.length w.
Proof. induction w as [|a w IH]; cbn [map_string String.length]; [|rewrite IH]; reflexivity. Qed.

Lemma list_map_string (f : ascii → ascii) (w : string) :
  String.list_ascii_of_string (map_string f w) = map f (String.list_ascii_of_string w).
Proof.
  induction w as [|a w IH]; cbn [map_string String.list_ascii_of_string map];
    [|rewrite IH]; reflexivity.
Qed.

Lemma upper_char_alpha (ch : ascii) : is_alpha ch = true → is_upper (upper_char ch) = true.
Proof. destruct ch as [[] [] [] [] [] [] [] []]; vm_compute; congruence. Qed.

Lemma upper_char_not_lower (ch : ascii) : is_lower (upper_char ch) = false.
Proof. destruct ch as [[] [] [] [] [] [] [] []]; reflexivity. Qed.

Lemma upper_lower_char (ch : ascii) : upper_char (lower_char ch) = upper_char ch.
Proof. destruct ch as [[] [] [] [] [] [] [] []]; reflexivity. Qed.

Lemma lower_upper_char (ch : ascii) : lower_char (upper_char ch) = lower_char ch.
Proof. destruct ch as [[] [] [] [] [] [] [] []]; reflexivity. Qed.

Lemma lower_lower_char (ch : ascii) : lower_char (lower_char ch) = lower_char ch.
Proof. destruct ch as [[] [] [] [] [] [] [] []]; reflexivity. Qed.

Lemma lower_char_not_upper (ch : ascii) : is_upper (lower_char ch) = false.
Proof. destruct ch as [[] [] [] [] [] [] [] []]; reflexivity. Qed.

Lemma toUpperCase_toLowerCase (w : string) : toUpperCase (toLowerCase w) = toUpperCase w.
Proof.
  unfold toUpperCase, toLowerCase.
  induction w as [|a w IH]; cbn [map_string]; [reflexivity|].
  rewrite upper_lower_char. f_equal. exact IH.
Qed.

Lemma toLowerCase_toUpperCase (w : string) : toLowerCase (toUpperCase w) = toLowerCase w.
Proof.
  unfold toUpperCase, toLowerCase.
  induction w as [|a w IH]; cbn [map_string]; [reflexivity|].
  rewrite lower_upper_char. f_equal. exact IH.
Qed.

Lemma toLowerCase_idemp (w : string) : toLowerCase (toLowerCase w) = toLowerCase w.
Proof.
  unfold toLowerCase.
  induction w as [|a w IH]; cbn [map_string]; [reflexivity|].
  rewrite lower_lower_char. f_equal. exact IH.
Qed.

Lemma toLowerCase_no_upper (w : string) :
  forallb_string (λ c, negb (is_upper c)) (toLowerCase w) = true.
Proof.
  unfold toLowerCase.
  induction w as [|a w IH]; cbn [map_string forallb_string]; [reflexivity|].
  rewrite lower_char_not_upper, IH. reflexivity.
Qed.

(** ** Scoring examples *)

Example evaluateGuess_trace_crane :
  evaluateGuess "TRACE" "CRANE" = [absent; correct; correct; present; correct].
Proof. reflexivity. Qed.

Example evaluateGuess_crane_crane :
  evaluateGuess "CRANE" "CRANE" = [correct; correct; correct; correct; correct].
Proof. reflexivity. Qed.

Example evaluateGuess_duplicates :
  evaluateGuess "EERIE" "ELDER" = [correct; present; present; absent; absent].
Proof. reflexivity. Qed.

(** ** The two passes as recursion over the arrays *)

Section EvaluateGuess.

Implicit Types (g t : list ascii) (G T : list Js.val) (res : list LetterState).

Lemma get_middle (pre : list Js.val) x post k :
  length pre = k → Js.get (pre ++ x :: post) k = x.
Proof. intros <-. unfold Js.get. induction pre; simpl; auto. Qed.

Lemma set_middle (pre : list Js.val) x y post k :
  length pre = k → Js.set k y (pre ++ x :: post) = pre ++ y :: post.
Proof.
  intros <-. unfold Js.set. rewrite decide_True.
  - induction pre; simpl; f_equal; auto.
  - rewrite length_app. simpl. lia.
Qed.

Lemma insert_middle {A} (pre : list A) x y post k :
  length pre = k → <[k:=y]> (pre ++ x :: post) = pre ++ y :: post.
Proof. intros <-. induction pre; simpl; f_equal; auto. Qed.

Lemma length_snoc {A} (pre : list A) x k : length pre = k → length (pre ++ [x]) = S k.
Proof. intros <-. rewrite length_app. simpl. lia. Qed.

(** Apply an induction hypothesis stated for the prefix extended by
    one cell. *)
Ltac use_IH H :=
  let H' := fresh in
  pose proof H as H';
  rewrite <- ?app_assoc in H'; simpl in H';
  apply H'; auto using length_snoc.

Lemma correct_fold g : ∀ t rp tp gp k,
  length g = length t →
  length rp = k → length tp = k → length gp = k →
  fold_left correct_step (seq k (length g))
    (mkEval (rp ++ replicate (length g) absent)
            (tp ++ map Js.Chr t) (gp ++ map Js.Chr g))
  = mkEval (rp ++ res1 g t) (tp ++ tgt1 g t) (gp ++ gs1 g t).
Proof.
  induction g as [|a g IH]; intros [|b t] rp tp gp k Hlen Hr Ht Hg;
    simpl in Hlen; try discriminate; [reflexivity|].
  injection Hlen as Hlen. cbn [length seq fold_left map replicate].
  unfold correct_step at 2. cbn [guessArr targetArr result].
  rewrite !get_middle by assumption.
  unfold res1, tgt1, gs1. cbn [zip_with].
  destruct (decide (a = b)) as [->|Hne].
  - rewrite decide_True by reflexivity.
    rewrite insert_middle, !set_middle by assumption.
    use_IH (IH t (rp ++ [correct]) (tp ++ [Js.Null]) (gp ++ [Js.Null]) (S k)).
  - rewrite decide_False by congruence.
    use_IH (IH t (rp ++ [absent]) (tp ++ [Js.Chr b]) (gp ++ [Js.Chr a]) (S k)).
Qed.

Lemma present_fold G : ∀ res T rp gp k,
  length G = length res → length rp = k → length gp = k →
  result (fold_left present_step (seq k (length G))
            (mkEval (rp ++ res) T (gp ++ G)))
  = rp ++ presents G res T.
Proof.
  induction G as [|x G IH]; intros [|r res] T rp gp k Hlen Hr Hg;
    simpl in Hlen; try discriminate; [reflexivity|].
  injection Hlen as Hlen. cbn [length seq fold_left presents].
  unfold present_step at 2. cbn [guessArr targetArr result].
  rewrite !get_middle by assumption.
  destruct (decide (x = Js.Null)) as [Hx|Hx].
  - use_IH (IH res T (rp ++ [r]) (gp ++ [x]) (S k)).
  - destruct (Js.indexOf x T) as [idx|].
    + rewrite insert_middle by assumption.
      use_IH (IH res (Js.set idx Js.Null T) (rp ++ [present]) (gp ++ [x]) (S k)).
    + use_IH (IH res T (rp ++ [r]) (gp ++ [x]) (S k)).
Qed.

(** On words of [WORD_LENGTH] letters the loops of [evaluateGuess]
    compute the recursive form. *)
Lemma evaluateGuess_presents (guess target : string) :
  let g := String.list_ascii_of_string guess in
  let t := String.list_ascii_of_string target in
  length g = WORD_LENGTH → length t = WORD_LENGTH →
  evaluateGuess guess target = presents (gs1 g t) (res1 g t) (tgt1 g t).
Proof.
  intros g t Hg Ht. unfold evaluateGuess, present_pass, correct_pass, eval_init, Js.split.
  fold g t.
  pose proof (correct_fold g t [] [] [] 0) as H1. simpl in H1.
  rewrite Hg in H1. rewrite H1 by (auto; lia).
  pose proof (present_fold (gs1 g t) (res1 g t) (tgt1 g t) [] [] 0) as H2.
  simpl in H2.
  assert (Hl : length (gs1 g t) = WORD_LENGTH).
  { unfold gs1. rewrite length_zip_with. lia. }
  rewrite Hl in H2. apply H2; auto.
  unfold res1. rewrite length_zip_with. lia.
Qed.

(** *** Counting letters *)

(** Split on every letter comparison in the goal and close the cases
    by arithmetic or by contradiction. *)
Ltac count_cases :=
  repeat case_decide; unfold is_marked in *; simplify_eq;
  solve [lia | exfalso; intuition congruence].

Lemma marks_cons X c g r res :
  marks X (c :: g) (r :: res)
  = (if decide (c = X ∧ is_marked r) then 1 else 0) + marks X g res.
Proof.
  unfold marks. cbn [zip zip_with]. rewrite filter_cons. cbn [fst snd].
  destruct (decide (c = X ∧ is_marked r)); reflexivity.
Qed.

Lemma absents_cons X c g r res :
  absents X (c :: g) (r :: res)
  = (if decide (c = X ∧ r = absent) then 1 else 0) + absents X g res.
Proof.
  unfold absents. cbn [zip zip_with]. rewrite filter_cons. cbn [fst snd].
  destruct (decide (c = X ∧ r = absent)); reflexivity.
Qed.

Lemma occurrences_cons X c g :
  occurrences X (c :: g) = (if decide (c = X) then 1 else 0) + occurrences X g.
Proof.
  unfold occurrences. rewrite filter_cons. destruct (decide (c = X)); reflexivity.
Qed.

Lemma remaining_cons X v T :
  remaining X (v :: T) = (if decide (v = Js.Chr X) then 1 else 0) + remaining X T.
Proof.
  unfold remaining. rewrite filter_cons. destruct (decide (v = Js.Chr X)); reflexivity.
Qed.

Lemma find_index_lookup v T idx :
  Js.find_index v T = Some idx → T !! idx = Some v.
Proof.
  revert idx. induction T as [|x T IH]; intros idx; simpl; [discriminate|].
  destruct (decide (x = v)) as [->|].
  - intros [= <-]. reflexivity.
  - destruct (Js.find_index v T) as [k|]; simpl; [|discriminate].
    intros [= <-]. simpl. auto.
Qed.

Lemma find_index_None X T :
  Js.find_index (Js.Chr X) T = None → remaining X T = 0.
Proof.
  induction T as [|x T IH]; simpl; [reflexivity|].
  rewrite remaining_cons.
  destruct (decide (x = Js.Chr X)); [discriminate|].
  destruct (Js.find_index (Js.Chr X) T); simpl; [discriminate|]. auto.
Qed.

(** Consuming the cell found by [indexOf] removes one copy of that
    letter and no copy of another. *)
Lemma remaining_set X c T idx :
  T !! idx = Some (Js.Chr c) →
  remaining X (Js.set idx Js.Null T) + (if decide (c = X) then 1 else 0)
  = remaining X T.
Proof.
  intros Hl. unfold Js.set. rewrite decide_True by (eapply lookup_lt_Some; eauto).
  revert idx Hl. induction T as [|x T IH]; intros [|idx]; simpl; try discriminate.
  - intros [= ->]. rewrite !remaining_cons.
    rewrite (decide_False (P := Js.Null = Js.Chr X)) by discriminate.
    destruct (decide (c = X)) as [->|].
    + rewrite decide_True by reflexivity. lia.
    + rewrite decide_False by congruence. lia.
  - intros Hl. rewrite !remaining_cons. specialize (IH idx Hl). lia.
Qed.

Lemma indexOf_Chr_Some c T idx :
  Js.indexOf (Js.Chr c) T = Some idx → T !! idx = Some (Js.Chr c).
Proof. apply find_index_lookup. Qed.

(** The present pass marks, for each letter, as many unmatched guess
    positions as the target still has copies of it, and no more. *)
Lemma presents_marks X g : ∀ t T,
  length g = length t →
  marks X g (presents (gs1 g t) (res1 g t) T)
  = marks X g (res1 g t) + min (remaining X (gs1 g t)) (remaining X T).
Proof.
  induction g as [|a g IH]; intros [|b t] T Hlen; simpl in Hlen;
    try discriminate; [reflexivity|].
  injection Hlen as Hlen. unfold gs1, res1. cbn [zip_with presents].
  fold (gs1 g t) (res1 g t).
  destruct (decide (a = b)) as [->|Hne].
  - rewrite decide_True by reflexivity.
    rewrite !marks_cons, remaining_cons, IH by assumption.
    rewrite (decide_False (P := Js.Null = Js.Chr X)) by discriminate. lia.
  - rewrite decide_False by discriminate.
    destruct (Js.indexOf (Js.Chr a) T) as [idx|] eqn:Hidx.
    + apply indexOf_Chr_Some in Hidx.
      pose proof (remaining_set X a T idx Hidx) as Hrem.
      rewrite !marks_cons, remaining_cons, IH by assumption.
      rewrite (decide_False (P := a = X ∧ is_marked absent))
        by (unfold is_marked; intros [_ ?]; congruence).
      destruct (decide (a = X)) as [->|HaX].
      * rewrite !decide_True by (unfold is_marked; auto; split; congruence).
        lia.
      * rewrite !decide_False by (try intros [? _]; congruence). lia.
    + apply find_index_None in Hidx.
      rewrite !marks_cons, remaining_cons, IH by assumption.
      destruct (decide (a = X)) as [->|HaX].
      * rewrite Hidx. lia.
      * rewrite !decide_False by (try intros [? _]; congruence). lia.
Qed.

(** After the correct pass, every copy of [X] in the guess is either
    marked [correct] or still in [guessArr]; likewise for the target. *)
Lemma correct_pass_guess X g : ∀ t,
  length g = length t →
  marks X g (res1 g t) + remaining X (gs1 g t) = occurrences X g.
Proof.
  induction g as [|a g IH]; intros [|b t] Hlen; simpl in Hlen;
    try discriminate; [reflexivity|].
  injection Hlen as Hlen. unfold gs1, res1. cbn [zip_with].
  fold (gs1 g t) (res1 g t).
  rewrite marks_cons, remaining_cons, occurrences_cons.
  specialize (IH t Hlen).
  count_cases.
Qed.

Lemma correct_pass_target X g : ∀ t,
  length g = length t →
  marks X g (res1 g t) + remaining X (tgt1 g t) = occurrences X t.
Proof.
  induction g as [|a g IH]; intros [|b t] Hlen; simpl in Hlen;
    try discriminate; [reflexivity|].
  injection Hlen as Hlen. unfold tgt1, res1. cbn [zip_with].
  fold (tgt1 g t) (res1 g t).
  rewrite marks_cons, remaining_cons, occurrences_cons.
  specialize (IH t Hlen).
  count_cases.
Qed.

Lemma marks_absents X g : ∀ res,
  length g = length res → marks X g res + absents X g res = occurrences X g.
Proof.
  induction g as [|a g IH]; intros [|r res] Hlen; simpl in Hlen;
    try discriminate; [reflexivity|].
  injection Hlen as Hlen.
  rewrite marks_cons, absents_cons, occurrences_cons. specialize (IH res Hlen).
  destruct r; count_cases.
Qed.

Lemma presents_length G : ∀ res T, length (presents G res T) = length res.
Proof.
  induction G as [|x G IH]; intros [|r res] T; simpl; auto.
  destruct (decide (x = Js.Null)); simpl; auto.
  destruct (Js.indexOf x T); simpl; auto.
Qed.

(** *** Leftmost guess positions claim the remaining target copies *)

Lemma indexOf_Some_remaining X T idx :
  Js.indexOf (Js.Chr X) T = Some idx → 0 < remaining X T.
Proof.
  intros H. apply indexOf_Chr_Some in H.
  pose proof (remaining_set X X T idx H) as Hrem.
  rewrite decide_True in Hrem by reflexivity. lia.
Qed.

(** Once the target has no copy of [X] left, every later unmatched
    [X] of the guess stays [absent]. *)
Lemma presents_exhausted X g : ∀ t T j,
  length g = length t → remaining X T = 0 →
  gs1 g t !! j = Some (Js.Chr X) →
  presents (gs1 g t) (res1 g t) T !! j = Some absent.
Proof.
  induction g as [|a g IH]; intros [|b t] T j Hlen Hrem; simpl in Hlen;
    try discriminate Hlen; [intros H; discriminate H|].
  injection Hlen as Hlen. unfold gs1, res1. cbn [zip_with presents].
  fold (gs1 g t) (res1 g t).
  destruct (decide (a = b)) as [->|Hne].
  - rewrite decide_True by reflexivity.
    destruct j as [|j]; simpl; [discriminate|]. eauto.
  - rewrite decide_False by discriminate.
    destruct (Js.indexOf (Js.Chr a) T) as [idx|] eqn:Hidx.
    + destruct j as [|j]; simpl.
      * intros [= ->]. apply indexOf_Some_remaining in Hidx. lia.
      * apply IH; [assumption|].
        apply indexOf_Chr_Some in Hidx.
        pose proof (remaining_set X a T idx Hidx). lia.
    + destruct j as [|j]; simpl; eauto.
Qed.

Lemma presents_leftmost X g : ∀ t T i j,
  length g = length t → i < j →
  gs1 g t !! i = Some (Js.Chr X) → gs1 g t !! j = Some (Js.Chr X) →
  presents (gs1 g t) (res1 g t) T !! j = Some present →
  presents (gs1 g t) (res1 g t) T !! i = Some present.
Proof.
  induction g as [|a g IH]; intros [|b t] T i j Hlen Hij; simpl in Hlen;
    try discriminate Hlen; [intros H; discriminate H|].
  injection Hlen as Hlen. unfold gs1, res1. cbn [zip_with presents].
  fold (gs1 g t) (res1 g t).
  destruct j as [|j]; [lia|].
  destruct (decide (a = b)) as [->|Hne].
  - rewrite decide_True by reflexivity.
    destruct i as [|i]; simpl; [discriminate|]. apply IH; [assumption|lia].
  - rewrite decide_False by discriminate.
    destruct (Js.indexOf (Js.Chr a) T) as [idx|] eqn:Hidx.
    + destruct i as [|i]; simpl; [reflexivity|]. apply IH; [assumption|lia].
    + destruct i as [|i]; simpl; [|apply IH; [assumption|lia]].
      intros [= ->] Hj Hp. apply find_index_None in Hidx.
      rewrite (presents_exhausted X g t T j Hlen Hidx Hj) in Hp. discriminate.
Qed.

(** Positions matched by the correct pass keep their [correct] mark. *)
Lemma presents_matched g : ∀ t T i,
  length g = length t →
  gs1 g t !! i = Some Js.Null →
  presents (gs1 g t) (res1 g t) T !! i = Some correct.
Proof.
  induction g as [|a g IH]; intros [|b t] T i Hlen; simpl in Hlen;
    try discriminate Hlen; [intros H; discriminate H|].
  injection Hlen as Hlen. unfold gs1, res1. cbn [zip_with presents].
  fold (gs1 g t) (res1 g t).
  destruct (decide (a = b)) as [->|Hne].
  - rewrite decide_True by reflexivity.
    destruct i as [|i]; simpl; [reflexivity|]. eauto.
  - rewrite decide_False by discriminate.
    destruct (Js.indexOf (Js.Chr a) T) as [idx|];
      (destruct i as [|i]; simpl; [discriminate|]; eauto).
Qed.

Lemma gs1_lookup X g : ∀ t i,
  length g = length t → g !! i = Some X →
  gs1 g t !! i = Some Js.Null ∨ gs1 g t !! i = Some (Js.Chr X).
Proof.
  induction g as [|a g IH]; intros [|b t] i Hlen; simpl in Hlen;
    try discriminate Hlen; [intros H; discriminate H|].
  injection Hlen as Hlen. unfold gs1. cbn [zip_with]. fold (gs1 g t).
  destruct i as [|i]; simpl.
  - intros [= ->]. destruct (decide (X = b)); auto.
  - eauto.
Qed.

Lemma length_list_ascii (s : string) :
  length (String.list_ascii_of_string s) = String.length s.
Proof. induction s; simpl; auto. Qed.

End EvaluateGuess.

(** C1. For a guess and a target of five letters and every letter [X]:
    the positions holding [X] that [evaluateGuess] marks [correct] or
    [present] are at most as many as the copies of [X] in the target
    (they are exactly the smaller of the two counts); the copies of [X]
    in the guess beyond the target's count are the ones marked [absent];
    and among the positions holding [X] that the correct pass left
    unmarked, a position marked [present] has every such position to its
    left marked [present] as well. *)
Theorem evaluateGuess_marks_bounded (guess target : string) (X : ascii) :
  String.length guess = WORD_LENGTH →
  String.length target = WORD_LENGTH →
  let g := String.list_ascii_of_string guess in
  let t := String.list_ascii_of_string target in
  let res := evaluateGuess guess target in
  marks X g res ≤ occurrences X t
  ∧ marks X g res = min (occurrences X g) (occurrences X t)
  ∧ absents X g res = occurrences X g - occurrences X t
  ∧ (∀ i j, i < j → g !! i = Some X → g !! j = Some X →
            res !! i ≠ Some correct → res !! j = Some present →
            res !! i = Some present).
Proof.
  intros Hg Ht g t res.
  assert (Hlg : length g = WORD_LENGTH) by (unfold g; rewrite length_list_ascii; exact Hg).
  assert (Hlt : length t = WORD_LENGTH) by (unfold t; rewrite length_list_ascii; exact Ht).
  assert (Hlen : length g = length t) by congruence.
  assert (Hres : res = presents (gs1 g t) (res1 g t) (tgt1 g t))
    by (apply evaluateGuess_presents; assumption).
  assert (Hmarks : marks X g res = min (occurrences X g) (occurrences X t)).
  { rewrite Hres, presents_marks by assumption.
    pose proof (correct_pass_guess X g t Hlen).
    pose proof (correct_pass_target X g t Hlen). lia. }
  assert (Hlres : length g = length res).
  { rewrite Hres, presents_length. unfold res1. rewrite length_zip_with. lia. }
  pose proof (marks_absents X g res Hlres) as Hsum.
  repeat split; [lia|assumption|lia|].
  intros i j Hij Hi Hj Hnc Hp. rewrite Hres in *.
  destruct (gs1_lookup X g t i Hlen Hi) as [Hni|Hci].
  { exfalso. apply Hnc. apply presents_matched; assumption. }
  destruct (gs1_lookup X g t j Hlen Hj) as [Hnj|Hcj].
  { rewrite (presents_matched g t _ j Hlen Hnj) in Hp. discriminate. }
  eapply presents_leftmost; eauto.
Qed.

(** The theorem applied to the guess EERIE against the target ELDER
    and the letter E. *)
Lemma evaluateGuess_marks_bounded_witness :
  marks "E" (String.list_ascii_of_string "EERIE") (evaluateGuess "EERIE" "ELDER")
  ≤ occurrences "E" (String.list_ascii_of_string "ELDER").
Proof.
  apply (evaluateGuess_marks_bounded "EERIE" "ELDER" "E"); reflexivity.
Defined.

(** ** Hard-mode validation *)

Section HardMode.

Implicit Types (g : Game) (w : string) (hc : HardConstraints).

Lemma check_positions_Some w eps msg :
  check_positions w eps = Some msg →
  ∃ pos l, (pos, l) ∈ eps ∧ String.get pos w ≠ l ∧ msg = position_message pos l.
Proof.
  induction eps as [|[pos l] eps IH]; simpl; [discriminate|].
  destruct (decide (String.get pos w ≠ l)) as [Hne|Heq].
  - intros [= <-]. exists pos, l. split; [left|auto].
  - intros H. destruct (IH H) as (p & l' & Hin & Hv & Hm).
    exists p, l'. split; [right; assumption|auto].
Qed.

Lemma check_positions_None w eps :
  check_positions w eps = None →
  ∀ pos l, (pos, l) ∈ eps → String.get pos w = l.
Proof.
  induction eps as [|[pos l] eps IH]; simpl; intros H p l' Hin.
  - inversion Hin.
  - destruct (decide (String.get pos w ≠ l)) as [Hne|Heq]; [discriminate|].
    apply elem_of_cons in Hin as [[= -> ->]|Hin]; [|eauto].
    destruct (decide (String.get pos w = l)); [assumption|contradiction].
Qed.

Lemma check_contains_Some w mc msg :
  check_contains w mc = Some msg →
  ∃ c, c ∈ mc ∧ count_letter (letter c) w < minCount c
       ∧ msg = contains_message (letter c).
Proof.
  induction mc as [|c mc IH]; simpl; [discriminate|].
  destruct (decide (count_letter (letter c) w < minCount c)) as [Hlt|Hge].
  - intros [= <-]. exists c. split; [left|auto].
  - intros H. destruct (IH H) as (c' & Hin & Hv & Hm).
    exists c'. split; [right; assumption|auto].
Qed.

Lemma check_contains_None w mc :
  check_contains w mc = None →
  ∀ c, c ∈ mc → minCount c ≤ count_letter (letter c) w.
Proof.
  induction mc as [|c mc IH]; simpl; intros H c' Hin.
  - inversion Hin.
  - destruct (decide (count_letter (letter c) w < minCount c)) as [Hlt|Hge];
      [discriminate|].
    apply elem_of_cons in Hin as [->|Hin]; [lia|eauto].
Qed.

(** The text of the two messages: the ordinal of the position counted
    from one, then the letter; or the letter alone. *)
Lemma position_message_text (pos : nat) (l : jsletter) :
  position_message pos l
  = (nth pos ["1st"; "2nd"; "3rd"; "4th"; "5th"] (pretty (pos + 1) ++ "th")
     ++ " letter must be "
     ++ match l with Some ch => String ch "" | None => "undefined" end)%string.
Proof.
  unfold position_message, ordinal, show_letter. rewrite Nat.add_1_r. f_equal.
  do 5 (destruct pos as [|pos]; [reflexivity|]). destruct pos; reflexivity.
Qed.

(** What [checkHardMode] returns, and that it returns the state it
    was given and calls nothing. *)
Lemma checkHardMode_run w g :
  checkHardMode w g =
    (match check_positions w (exactPositions (hardConstraints g)) with
     | Some msg => Some msg
     | None => check_contains w (mustContain (hardConstraints g))
     end, g, []).
Proof.
  unfold checkHardMode, mbind, M_bind, gets, mret, M_ret.
  destruct (check_positions w (exactPositions (hardConstraints g))); reflexivity.
Qed.

Lemma checkHardMode_Some w g msg :
  value_of (checkHardMode w g) = Some msg →
  (∃ pos l, violated_position (hardConstraints g) w pos l
            ∧ msg = position_message pos l)
  ∨ (∃ c, violated_letter (hardConstraints g) w c
          ∧ msg = contains_message (letter c)).
Proof.
  rewrite checkHardMode_run. unfold value_of, violated_position, violated_letter.
  cbn [fst snd].
  destruct (check_positions _ _) as [m|] eqn:Hp.
  - intros [= <-]. left. apply check_positions_Some in Hp as (p & l & ? & ? & ?).
    eauto 6.
  - intros Hc. right. apply check_contains_Some in Hc as (c & ? & ? & ?). eauto 6.
Qed.

Lemma checkHardMode_None w g :
  value_of (checkHardMode w g) = None →
  (∀ pos l, ¬ violated_position (hardConstraints g) w pos l)
  ∧ (∀ c, ¬ violated_letter (hardConstraints g) w c).
Proof.
  rewrite checkHardMode_run. unfold value_of, violated_position, violated_letter.
  cbn [fst snd].
  destruct (check_positions _ _) as [m|] eqn:Hp; [discriminate|].
  intros Hc. split.
  - intros pos l [Hin Hv]. apply Hv. eapply check_positions_None; eauto.
  - intros c [Hin Hv]. pose proof (check_contains_None _ _ Hc c Hin). lia.
Qed.

(** The reveal callback records the guess, grows the constraints and
    moves to the next row. *)
Lemma revealed_run suppress w res row g :
  let r := revealed suppress w res row g in
  currentRow (state_of r) = currentRow g + 1
  ∧ hardConstraints (state_of r) = update_constraints w res (hardConstraints g)
  ∧ MpRecordGuess w res row ∈ effects_of r.
Proof.
  unfold revealed, updateHardConstraints, mbind, M_bind, gets, modify, emit,
    mret, M_ret, state_of, effects_of.
  cbn [currentRow set_hardConstraints].
  destruct (forallb _ res); [destruct suppress|];
    [| |destruct (decide (MAX_GUESSES ≤ currentRow g + 1)); [destruct suppress|]];
    cbn; (split; [reflexivity|split; [reflexivity|]]);
    repeat (first [apply list_elem_of_here | apply list_elem_of_further]).
Qed.

End HardMode.

(** C4. With hard mode on, a complete guess that is in the word list is
    checked against the recorded constraints before it is scored.  If a
    recorded position does not hold its letter, or a recorded letter
    occurs fewer times than its minimum, [submitGuess] only clears the
    typing indicator, shows a message naming a violated position
    ("2nd letter must be R": the ordinal of the position counted from
    one, then the letter) or a violated letter ("Guess must contain C")
    and shakes the row: the state (current row,
    constraints, guess) is unchanged and nothing is revealed or
    recorded.  If every constraint holds, the guess is scored with
    [evaluateGuess] and revealed, and the reveal callback records it and
    advances the row. *)
Theorem submitGuess_hard_mode (dict : gset string) (g : Game) :
  let w := String.string_of_list_ascii (currentGuess g) in
  let hc := hardConstraints g in
  hardMode g = true →
  WORD_LENGTH ≤ currentCol g →
  isValidWord dict w = true →
  ((∃ pos l, violated_position hc w pos l) ∨ (∃ c, violated_letter hc w c) →
   ∃ msg,
     submitGuess dict g = (tt, g, [MpClearTyping; Toast msg; ShakeRow (currentRow g)])
     ∧ ((∃ pos l, violated_position hc w pos l ∧ msg = position_message pos l
           ∧ msg = (nth pos ["1st"; "2nd"; "3rd"; "4th"; "5th"] (pretty (pos + 1) ++ "th")
                    ++ " letter must be "
                    ++ match l with Some ch => String ch "" | None => "undefined" end)%string)
        ∨ (∃ c, violated_letter hc w c ∧ msg = contains_message (letter c)
             ∧ msg = ("Guess must contain " ++ letter c)%string)))
  ∧ ((∀ pos l, ¬ violated_position hc w pos l) ∧ (∀ c, ¬ violated_letter hc w c) →
     let res := evaluateGuess w (targetWord g) in
     submitGuess dict g = (tt, g, [MpClearTyping; RevealRow (currentRow g) w res])
     ∧ ∀ suppress,
         let r := revealed suppress w res (currentRow g) g in
         currentRow (state_of r) = currentRow g + 1
         ∧ MpRecordGuess w res (currentRow g) ∈ effects_of r).
Proof.
  intros w hc Hhard Hcol Hvalid.
  assert (Hrun : submitGuess dict g =
    match value_of (checkHardMode w g) with
    | Some msg => (tt, g, [MpClearTyping; Toast msg; ShakeRow (currentRow g)])
    | None => (tt, g, [MpClearTyping;
                       RevealRow (currentRow g) w (evaluateGuess w (targetWord g))])
    end).
  { cbv [submitGuess mbind M_bind gets emit mret M_ret].
    rewrite decide_False by lia. fold w. rewrite Hvalid. cbn [negb].
    rewrite Hhard.
    rewrite checkHardMode_run. unfold value_of. cbn [fst snd app].
    destruct (match check_positions w _ with Some _ => _ | None => _ end);
      reflexivity. }
  split.
  - intros Hviol. destruct (value_of (checkHardMode w g)) as [msg|] eqn:Hchk.
    + exists msg. split; [assumption|].
      destruct (checkHardMode_Some _ _ _ Hchk) as [(pos & l & Hv & Hm)|(c & Hv & Hm)].
      * left. exists pos, l. split; [exact Hv|split; [exact Hm|]].
        rewrite Hm. apply position_message_text.
      * right. exists c. split; [exact Hv|split; [exact Hm|]].
        rewrite Hm. reflexivity.
    + exfalso. apply checkHardMode_None in Hchk as [Hp Hl].
      destruct Hviol as [(pos & l & Hv)|(c & Hv)]; [eapply Hp|eapply Hl]; eauto.
  - intros [Hp Hl] res. split.
    + destruct (value_of (checkHardMode w g)) as [msg|] eqn:Hchk; [|assumption].
      exfalso. apply checkHardMode_Some in Hchk as [(pos & l & Hv & _)|(c & Hv & _)];
        [eapply Hp|eapply Hl]; eauto.
    + intros suppress r.
      pose proof (revealed_run suppress w res (currentRow g) g) as (H1 & _ & H3).
      split; assumption.
Qed.

(** C10. [checkHardMode] returns a message or [null] and leaves the
    game state, hence [hardConstraints], exactly as it was and calls
    nothing; and [submitGuess], which consults it, never changes the
    constraints either, so a rejection keeps the recorded evidence. *)
Theorem checkHardMode_frame (guessWord : string) (g : Game) :
  state_of (checkHardMode guessWord g) = g
  ∧ effects_of (checkHardMode guessWord g) = []
  ∧ exactPositions (hardConstraints (state_of (checkHardMode guessWord g)))
    = exactPositions (hardConstraints g)
  ∧ mustContain (hardConstraints (state_of (checkHardMode guessWord g)))
    = mustContain (hardConstraints g)
  ∧ ∀ dict, hardConstraints (state_of (submitGuess dict g)) = hardConstraints g.
Proof.
  rewrite checkHardMode_run. unfold state_of, effects_of. cbn [fst snd].
  repeat split.
  intros dict. cbv [submitGuess mbind M_bind gets emit mret M_ret].
  destruct (decide (currentCol g < WORD_LENGTH)); [reflexivity|].
  destruct (negb _); [reflexivity|]. cbn beta.
  destruct (hardMode g); [rewrite checkHardMode_run|];
    repeat match goal with |- context [match ?x with Some _ => _ | None => _ end] =>
      destruct x end; reflexivity.
Qed.

(** ** Growth of the hard-mode constraints *)

Section Constraints.

Implicit Types (g : Game) (hc : HardConstraints) (mc : list Constraint)
  (ep : list (nat * jsletter)) (res : list LetterState).

(** *** Exact positions *)

Lemma obj_get_set_eq {V} i (v : V) o : obj_get i (obj_set i v o) = Some v.
Proof.
  induction o as [|[k w] o IH]; simpl.
  - rewrite decide_True; auto.
  - destruct (decide (i = k)) as [->|Hne]; simpl.
    + rewrite decide_True; auto.
    + destruct (decide (i < k)); simpl.
      * rewrite decide_True; auto.
      * rewrite decide_False; auto.
Qed.

Lemma obj_get_set_ne {V} i j (v : V) o :
  i ≠ j → obj_get j (obj_set i v o) = obj_get j o.
Proof.
  intros Hij. induction o as [|[k w] o IH]; simpl.
  - rewrite decide_False; auto.
  - destruct (decide (i = k)) as [->|Hne]; simpl.
    + rewrite !decide_False; auto.
    + destruct (decide (i < k)); simpl.
      * rewrite (decide_False (P := j = i)); auto.
      * destruct (decide (j = k)); auto.
Qed.

(** The first loop of [updateHardConstraints], position by position. *)
Lemma record_exact_get guess res : ∀ k ep i,
  obj_get i (forEach_i (record_exact guess) res k ep)
  = if decide (k ≤ i ∧ res !! (i - k) = Some correct)
    then Some (String.get i guess) else obj_get i ep.
Proof.
  induction res as [|r res IH]; intros k ep i; simpl.
  - rewrite decide_False; [reflexivity|]. intros [_ H]. discriminate H.
  - rewrite IH. unfold record_exact.
    destruct (decide (i = k)) as [->|Hik].
    + replace (k - k) with 0 by lia. simpl.
      rewrite (decide_False (P := S k ≤ k ∧ _)) by lia.
      destruct (decide (r = correct)) as [->|Hr].
      * rewrite obj_get_set_eq, decide_True; auto.
      * rewrite decide_False; [reflexivity|]. intros [_ [= ?]]. contradiction.
    + assert (Hget : ∀ ep', ep' = ep ∨ ep' = obj_set k (String.get k guess) ep →
                            obj_get i ep' = obj_get i ep).
      { intros ep' [->| ->]; [reflexivity|]. apply obj_get_set_ne. congruence. }
      rewrite (Hget (if decide (r = correct) then _ else _))
        by (destruct (decide (r = correct)); auto).
      destruct (decide (k ≤ i)) as [Hle|Hgt].
      * replace (i - k) with (S (i - S k)) by lia. simpl.
        destruct (decide (S k ≤ i ∧ res !! (i - S k) = Some correct)) as [[_ H]|H].
        -- rewrite decide_True; auto.
        -- rewrite decide_False; [reflexivity|]. intros [_ H']. apply H. split; [lia|auto].
      * rewrite !decide_False by lia. reflexivity.
Qed.

(** *** Minimum counts *)

Lemma find_constraint_cons l c mc :
  find_constraint l (c :: mc)
  = if decide (letter c = l) then Some c else find_constraint l mc.
Proof.
  unfold find_constraint. simpl.
  destruct (decide (letter c = l)).
  - rewrite bool_decide_eq_true_2; auto.
  - rewrite bool_decide_eq_false_2; auto.
Qed.

Lemma find_constraint_app_None l mc c :
  find_constraint l mc = None →
  find_constraint l (mc ++ [c]) = if decide (letter c = l) then Some c else None.
Proof.
  induction mc as [|c' mc IH]; simpl app.
  - intros _. rewrite find_constraint_cons. reflexivity.
  - rewrite !find_constraint_cons. destruct (decide (letter c' = l)); [discriminate|auto].
Qed.

Lemma find_constraint_app_Some l mc c c0 :
  find_constraint l mc = Some c0 → find_constraint l (mc ++ [c]) = Some c0.
Proof.
  induction mc as [|c' mc IH]; simpl app.
  - discriminate.
  - rewrite !find_constraint_cons. destruct (decide (letter c' = l)); auto.
Qed.

Lemma minimum_for_raise l l' n mc :
  minimum_for l (raise_first l' n mc)
  = if decide (l' = l)
    then (match find_constraint l mc with
          | Some c => Nat.max (minCount c) n
          | None => 0
          end)
    else minimum_for l mc.
Proof.
  unfold minimum_for. induction mc as [|c mc IH]; cbn [raise_first].
  - destruct (decide (l' = l)); reflexivity.
  - destruct (decide (letter c = l')) as [Hc|Hc].
    + rewrite !find_constraint_cons. cbn [letter minCount].
      destruct (decide (l' = l)) as [->|Hl].
      * rewrite !decide_True by assumption. reflexivity.
      * rewrite !decide_False by congruence. reflexivity.
    + rewrite !find_constraint_cons.
      destruct (decide (letter c = l)) as [Hcl|Hcl].
      * rewrite decide_False by congruence. reflexivity.
      * exact IH.
Qed.

(** One turn of the loop over the entries of [freqMap]. *)
Lemma minimum_for_merge l mc (e : string * nat) :
  minimum_for l (merge_entry mc e)
  = if decide (e.1 = l) then Nat.max (minimum_for l mc) e.2 else minimum_for l mc.
Proof.
  unfold merge_entry.
  destruct (find_constraint e.1 mc) as [c0|] eqn:Hf.
  - rewrite minimum_for_raise.
    destruct (decide (e.1 = l)) as [<-|]; [|reflexivity].
    unfold minimum_for. rewrite Hf. reflexivity.
  - unfold minimum_for.
    destruct (decide (e.1 = l)) as [<-|Hne].
    + rewrite find_constraint_app_None by assumption. cbn [letter].
      rewrite decide_True by reflexivity. rewrite Hf. reflexivity.
    + destruct (find_constraint l mc) as [c1|] eqn:Hl.
      * erewrite find_constraint_app_Some by eassumption. reflexivity.
      * rewrite find_constraint_app_None by assumption. cbn [letter].
        rewrite decide_False by assumption. reflexivity.
Qed.

Lemma minimum_for_fold l (es : list (string * nat)) : ∀ mc,
  NoDup (es.*1) →
  minimum_for l (fold_left merge_entry es mc)
  = if decide (l ∈ es.*1) then Nat.max (minimum_for l mc) (freq_get l es)
    else minimum_for l mc.
Proof.
  induction es as [|[k n] es IH]; intros mc Hnd.
  - reflexivity.
  - rewrite fmap_cons in *. cbn [fold_left fst] in *.
    apply NoDup_cons in Hnd as [Hk Hnd]. rewrite IH by assumption.
    rewrite minimum_for_merge. cbn [fst snd]. unfold freq_get. cbn [find fst].
    destruct (decide (k = l)) as [->|Hkl].
    + rewrite bool_decide_eq_true_2 by reflexivity.
      rewrite (decide_False (P := l ∈ es.*1)) by assumption.
      rewrite decide_True by left. reflexivity.
    + rewrite bool_decide_eq_false_2 by assumption.
      destruct (decide (l ∈ es.*1)) as [Hin|Hin].
      * rewrite decide_True by (right; assumption). reflexivity.
      * rewrite decide_False; [reflexivity|].
        intros H. apply elem_of_cons in H as [->|H]; contradiction.
Qed.

(** *** The entries of [freqMap] *)

Lemma filter_key_split (d : string) (ds : list string) (m : list (string * nat)) :
  d ∉ ds →
  filter (λ e, e.1 = d) m ++ filter (λ e, e.1 ∈ ds) m
  ≡ₚ filter (λ e, e.1 ∈ d :: ds) m.
Proof.
  intros Hd. induction m as [|e m IH]; [reflexivity|].
  rewrite !filter_cons.
  destruct (decide (e.1 = d)) as [He|He].
  - rewrite decide_False by (rewrite He; assumption).
    rewrite decide_True by (rewrite He; left).
    simpl. constructor. exact IH.
  - destruct (decide (e.1 ∈ ds)) as [Hin|Hin].
    + rewrite decide_True by (right; assumption).
      rewrite <- Permutation_middle. constructor. exact IH.
    + rewrite decide_False; [exact IH|].
      intros H. apply elem_of_cons in H as [?|?]; contradiction.
Qed.

Lemma flat_map_filter_keys (ds : list string) (m : list (string * nat)) :
  NoDup ds →
  flat_map (λ d, filter (λ e, e.1 = d) m) ds ≡ₚ filter (λ e, e.1 ∈ ds) m.
Proof.
  induction 1 as [|d ds Hd Hnd IH]; simpl.
  - induction m as [|e m IHm]; [reflexivity|].
    rewrite filter_cons, decide_False; [exact IHm|]. inversion 1.
  - rewrite IH. apply filter_key_split. assumption.
Qed.

Lemma digit_keys_NoDup : NoDup digit_keys.
Proof. apply NoDup_ListNoDup. unfold digit_keys. repeat constructor; simpl; intuition discriminate. Qed.

Lemma Object_entries_perm (m : list (string * nat)) : Object_entries m ≡ₚ m.
Proof.
  unfold Object_entries. rewrite flat_map_filter_keys by apply digit_keys_NoDup.
  apply (filter_app_complement (λ e : string * nat, e.1 ∈ digit_keys)).
Qed.

Lemma freq_get_elem l n (m : list (string * nat)) :
  NoDup (m.*1) → (l, n) ∈ m → freq_get l m = n.
Proof.
  unfold freq_get. induction m as [|[k v] m IH]; intros Hnd Hin.
  - inversion Hin.
  - rewrite fmap_cons in Hnd. apply NoDup_cons in Hnd as [Hk Hnd]. cbn [find fst].
    apply elem_of_cons in Hin as [[= -> ->]|Hin].
    + rewrite bool_decide_eq_true_2 by reflexivity. reflexivity.
    + rewrite bool_decide_eq_false_2; [auto|].
      intros ->. apply Hk. apply list_elem_of_fmap. exists (l, n). auto.
Qed.

Lemma freq_get_absent l (m : list (string * nat)) :
  l ∉ m.*1 → freq_get l m = 0.
Proof.
  unfold freq_get. induction m as [|[k v] m IH]; intros Hin; [reflexivity|].
  rewrite fmap_cons in Hin. cbn [find fst].
  rewrite bool_decide_eq_false_2.
  - apply IH. intros H. apply Hin. right. assumption.
  - intros ->. apply Hin. left.
Qed.

Lemma freq_get_perm l (m m' : list (string * nat)) :
  m ≡ₚ m' → NoDup (m.*1) → freq_get l m = freq_get l m'.
Proof.
  intros Hp Hnd.
  assert (Hnd' : NoDup (m'.*1)) by (rewrite <- Hp; assumption).
  destruct (decide (l ∈ m.*1)) as [Hin|Hin].
  - apply list_elem_of_fmap in Hin as ([k n] & -> & Hin). cbn [fst].
    rewrite (freq_get_elem k n m Hnd Hin).
    symmetry. apply freq_get_elem; [assumption|]. rewrite <- Hp. assumption.
  - rewrite (freq_get_absent l m Hin).
    symmetry. apply freq_get_absent. rewrite <- Hp. assumption.
Qed.

Lemma freq_incr_keys key (m : list (string * nat)) :
  (freq_incr key m).*1 = if decide (key ∈ m.*1) then m.*1 else m.*1 ++ [key].
Proof.
  induction m as [|[k n] m IH]; [reflexivity|]. cbn [freq_incr].
  destruct (decide (k = key)) as [->|Hk].
  - rewrite !fmap_cons. cbn [fst]. rewrite decide_True by left. reflexivity.
  - rewrite !fmap_cons, IH. cbn [fst].
    destruct (decide (key ∈ m.*1)) as [Hin|Hin].
    + rewrite decide_True by (right; assumption). reflexivity.
    + rewrite decide_False; [reflexivity|].
      intros H. apply elem_of_cons in H as [->|H]; contradiction.
Qed.

Lemma freq_incr_NoDup key (m : list (string * nat)) :
  NoDup (m.*1) → NoDup ((freq_incr key m).*1).
Proof.
  intros Hnd. rewrite freq_incr_keys.
  destruct (decide (key ∈ m.*1)); [assumption|].
  apply NoDup_app. repeat split; [assumption| |apply NoDup_singleton].
  intros x Hx Hx'. apply list_elem_of_singleton in Hx'. subst. contradiction.
Qed.

Lemma freq_get_incr l key (m : list (string * nat)) :
  freq_get l (freq_incr key m) = freq_get l m + (if decide (key = l) then 1 else 0).
Proof.
  unfold freq_get. induction m as [|[k n] m IH]; cbn [freq_incr find fst].
  - destruct (decide (key = l)).
    + rewrite bool_decide_eq_true_2 by assumption. reflexivity.
    + rewrite bool_decide_eq_false_2 by assumption. reflexivity.
  - destruct (decide (k = key)) as [->|Hk]; cbn [find fst snd].
    + destruct (decide (key = l)).
      * rewrite !bool_decide_eq_true_2 by assumption. reflexivity.
      * rewrite !bool_decide_eq_false_2 by assumption. lia.
    + destruct (decide (k = l)) as [->|Hkl].
      * rewrite !bool_decide_eq_true_2 by reflexivity.
        rewrite decide_False by congruence. cbn [snd]. lia.
      * rewrite !bool_decide_eq_false_2 by assumption. exact IH.
Qed.

Lemma get_list_ascii (s : string) : ∀ i,
  String.get i s = String.list_ascii_of_string s !! i.
Proof. induction s as [|c s IH]; intros [|i]; simpl; auto. Qed.

(** The second loop of [updateHardConstraints] counts, for each
    letter, its [correct] and [present] marks. *)
Lemma count_mark_fold guess X : ∀ res letters k (m : list (string * nat)),
  length letters = length res →
  (∀ j, j < length res → String.get (k + j) guess = letters !! j) →
  let r := forEach_i (count_mark guess) res k m in
  (NoDup (m.*1) → NoDup (r.*1))
  ∧ freq_get (String X EmptyString) r
    = freq_get (String X EmptyString) m + marks X letters res.
Proof.
  induction res as [|r res IH]; intros [|c letters] k m Hlen Hget;
    simpl in Hlen; try discriminate Hlen.
  - simpl. split; [auto|]. unfold marks. simpl. lia.
  - injection Hlen as Hlen. cbn [forEach_i].
    specialize (IH letters (S k) (count_mark guess m r k) Hlen).
    destruct IH as [IHnd IHget].
    { intros j Hj. replace (S k + j) with (k + S j) by lia.
      rewrite Hget by (simpl; lia). reflexivity. }
    assert (Hk : String.get k guess = Some c).
    { replace k with (k + 0) by lia. rewrite Hget by (simpl; lia). reflexivity. }
    split.
    + intros Hnd. apply IHnd. unfold count_mark.
      destruct (decide (r = correct ∨ r = present)); [|assumption].
      apply freq_incr_NoDup. assumption.
    + rewrite IHget, marks_cons. unfold count_mark. rewrite Hk. cbn [show_letter].
      destruct (decide (r = correct ∨ r = present)) as [Hm|Hm].
      * rewrite freq_get_incr.
        destruct (decide (c = X)) as [->|Hc].
        -- rewrite decide_True by reflexivity.
           rewrite decide_True; [lia|]. split; [reflexivity|].
           unfold is_marked. destruct Hm; congruence.
        -- rewrite decide_False by congruence.
           rewrite decide_False; [lia|]. intros [? _]. contradiction.
      * rewrite decide_False; [lia|]. intros [_ Hr]. apply Hm.
        unfold is_marked in Hr. destruct r; auto. contradiction.
Qed.

(** The minimum count of each letter after [updateHardConstraints]. *)
Lemma update_constraints_minimum guess res hc X :
  String.length guess = length res →
  minimum_for (String X EmptyString) (mustContain (update_constraints guess res hc))
  = Nat.max (minimum_for (String X EmptyString) (mustContain hc))
            (marks X (String.list_ascii_of_string guess) res).
Proof.
  intros Hlen. unfold update_constraints. cbn [mustContain].
  set (m := build_freqMap guess res).
  destruct (count_mark_fold guess X res (String.list_ascii_of_string guess) 0 [])
    as [Hnd Hget].
  { rewrite length_list_ascii. assumption. }
  { intros j _. apply get_list_ascii. }
  fold (build_freqMap guess res) in Hnd, Hget. fold m in Hnd, Hget.
  specialize (Hnd (NoDup_nil_2 : NoDup ([] : list (string * nat)).*1)).
  pose proof (Object_entries_perm m) as Hperm.
  assert (Hnd' : NoDup ((Object_entries m).*1)) by (rewrite Hperm; assumption).
  rewrite minimum_for_fold by assumption.
  rewrite (freq_get_perm _ _ _ Hperm Hnd'), Hget. cbn [freq_get find]. simpl.
  destruct (decide (String X EmptyString ∈ (Object_entries m).*1)) as [Hin|Hin];
    [reflexivity|].
  rewrite Hperm in Hin. apply freq_get_absent in Hin.
  rewrite Hget in Hin. unfold freq_get in Hin. simpl in Hin. lia.
Qed.


(** *** Nothing recorded is lost *)

Lemma raise_first_mono l n mc : ∀ k c,
  mc !! k = Some c →
  ∃ c', raise_first l n mc !! k = Some c'
        ∧ letter c' = letter c ∧ minCount c ≤ minCount c'.
Proof.
  induction mc as [|c0 mc IH]; intros k c Hk; [discriminate Hk|].
  cbn [raise_first]. destruct (decide (letter c0 = l)).
  - destruct k as [|k]; simpl in *.
    + injection Hk as <-. eexists. split; [reflexivity|]. cbn. split; [reflexivity|lia].
    + exists c. auto.
  - destruct k as [|k]; simpl in *.
    + exists c. auto.
    + apply IH. assumption.
Qed.

Lemma merge_entry_mono mc e : ∀ k c,
  mc !! k = Some c →
  ∃ c', merge_entry mc e !! k = Some c'
        ∧ letter c' = letter c ∧ minCount c ≤ minCount c'.
Proof.
  intros k c Hk. unfold merge_entry.
  destruct (find_constraint e.1 mc).
  - apply raise_first_mono. assumption.
  - exists c. split; [|auto]. apply lookup_app_l_Some. assumption.
Qed.

Lemma merge_fold_mono (es : list (string * nat)) : ∀ mc k c,
  mc !! k = Some c →
  ∃ c', fold_left merge_entry es mc !! k = Some c'
        ∧ letter c' = letter c ∧ minCount c ≤ minCount c'.
Proof.
  induction es as [|e es IH]; intros mc k c Hk; simpl.
  - exists c. auto.
  - destruct (merge_entry_mono mc e k c Hk) as (c1 & H1 & Hl1 & Hm1).
    destruct (IH _ k c1 H1) as (c2 & H2 & Hl2 & Hm2).
    exists c2. split; [assumption|]. split; [congruence|lia].
Qed.

Lemma update_constraints_le guess res hc :
  constraints_le hc (update_constraints guess res hc).
Proof.
  split.
  - intros pos Hpos. unfold update_constraints. cbn [exactPositions].
    rewrite record_exact_get. destruct (decide _); [eauto|assumption].
  - intros k c Hk. apply merge_fold_mono. assumption.
Qed.

(** *** A correct mark repeats the letter already recorded *)

Lemma presents_correct (ws : list ascii) : ∀ (ts : list ascii) T i,
  length ws = length ts →
  presents (gs1 ws ts) (res1 ws ts) T !! i = Some correct →
  ws !! i = ts !! i.
Proof.
  induction ws as [|a ws IH]; intros [|b ts] T i Hlen; simpl in Hlen;
    try discriminate Hlen; [reflexivity|].
  injection Hlen as Hlen. unfold gs1, res1. cbn [zip_with presents].
  fold (gs1 ws ts) (res1 ws ts).
  destruct (decide (a = b)) as [->|Hne].
  - rewrite decide_True by reflexivity.
    destruct i as [|i]; simpl; [reflexivity|]. eauto.
  - rewrite decide_False by discriminate.
    destruct (Js.indexOf (Js.Chr a) T) as [idx|];
      (destruct i as [|i]; simpl; [discriminate|]; eauto).
Qed.

Lemma evaluateGuess_correct guess target i :
  String.length guess = WORD_LENGTH → String.length target = WORD_LENGTH →
  evaluateGuess guess target !! i = Some correct →
  String.get i guess = String.get i target.
Proof.
  intros Hg Ht. rewrite <- length_list_ascii in Hg, Ht.
  rewrite evaluateGuess_presents by assumption.
  rewrite !get_list_ascii. apply presents_correct. congruence.
Qed.

Lemma update_constraints_agrees guess target hc :
  String.length guess = WORD_LENGTH → String.length target = WORD_LENGTH →
  agrees_with hc target →
  let hc' := update_constraints guess (evaluateGuess guess target) hc in
  (∀ pos l, obj_get pos (exactPositions hc) = Some l →
            obj_get pos (exactPositions hc') = Some l)
  ∧ agrees_with hc' target.
Proof.
  intros Hg Ht Hagree hc'.
  assert (Hget : ∀ pos l, obj_get pos (exactPositions hc') = Some l →
                          String.get pos target = l).
  { intros pos l. unfold hc', update_constraints. cbn [exactPositions].
    rewrite record_exact_get.
    destruct (decide _) as [[_ Hc]|_]; [|apply Hagree].
    replace (pos - 0) with pos in Hc by lia.
    intros [= <-]. symmetry. apply evaluateGuess_correct; assumption. }
  split; [|exact Hget].
  intros pos l Hl. destruct (update_constraints_le guess (evaluateGuess guess target) hc)
    as [Hpos _].
  destruct (Hpos pos) as [l' Hl']; [eauto|]. fold hc' in Hl'.
  rewrite Hl'. f_equal. rewrite <- (Hget pos l' Hl'). apply Hagree. assumption.
Qed.

(** *** Which operations touch the constraints *)

Lemma startGame_constraints answer g :
  hardConstraints (state_of (startGame answer g)) = no_constraints.
Proof. reflexivity. Qed.

Lemma addLetter_constraints c g :
  hardConstraints (state_of (addLetter c g)) = hardConstraints g.
Proof.
  cbv [addLetter mbind M_bind gets modify emit mret M_ret state_of].
  destruct (decide (WORD_LENGTH ≤ currentCol g)); reflexivity.
Qed.

Lemma deleteLetter_constraints g :
  hardConstraints (state_of (deleteLetter g)) = hardConstraints g.
Proof.
  cbv [deleteLetter mbind M_bind gets modify emit mret M_ret state_of].
  destruct (decide (currentCol g ≤ 0)); reflexivity.
Qed.

Lemma submitGuess_state dict g : state_of (submitGuess dict g) = g.
Proof.
  cbv [submitGuess mbind M_bind gets emit mret M_ret state_of].
  destruct (decide (currentCol g < WORD_LENGTH)); [reflexivity|].
  destruct (negb _); [reflexivity|]. cbn beta.
  destruct (hardMode g); [rewrite checkHardMode_run|];
    repeat match goal with |- context [match ?x with Some _ => _ | None => _ end] =>
      destruct x end; reflexivity.
Qed.

Lemma dispatchKey_constraints dict key g :
  hardConstraints (state_of (dispatchKey dict key g)) = hardConstraints g.
Proof.
  unfold dispatchKey.
  destruct (decide (key = "Enter")); [rewrite submitGuess_state; reflexivity|].
  destruct (decide (key = "Backspace")); [apply deleteLetter_constraints|].
  destruct (letter_key key); [apply addLetter_constraints|reflexivity].
Qed.

Lemma handleKey_constraints dict key g :
  hardConstraints (state_of (handleKey dict key g)) = hardConstraints g.
Proof.
  cbv [handleKey mbind M_bind gets modify emit mret M_ret].
  destruct (gameOver g); [reflexivity|]. cbn beta.
  destruct (modalOpen g); cbn beta.
  - destruct (game_key key); [|reflexivity]. cbn beta.
    pose proof (dispatchKey_constraints dict key (set_modalOpen false g)) as H.
    unfold state_of in *.
    destruct (dispatchKey dict key (set_modalOpen false g)) as [[u g'] e].
    exact H.
  - pose proof (dispatchKey_constraints dict key g) as H. unfold state_of in *.
    destruct (dispatchKey dict key g) as [[u g'] e]. exact H.
Qed.


End Constraints.

(** C5. [updateHardConstraints] only grows the constraints.  After it
    has run on a guess and its result: every position marked [correct]
    is recorded with the guess's letter; every letter has as minimum
    the larger of its previous minimum and the number of its [correct]
    and [present] marks in this guess (so a letter without a mark keeps
    its minimum); every position recorded before is still recorded and
    every entry of [mustContain] keeps its place and letter with a
    minimum that is not smaller.  When the result is the score of the
    guess against the target that the recorded positions agree with,
    the recorded letters do not change at all.  Of the game operations,
    [startGame] empties the constraints, key presses leave them as they
    are, and the reveal callback changes them by this update only. *)
Theorem updateHardConstraints_grows (guess : string) (res : list LetterState) (g : Game) :
  String.length guess = length res →
  let hc := hardConstraints g in
  let hc' := hardConstraints (state_of (updateHardConstraints guess res g)) in
  let letters := String.list_ascii_of_string guess in
  (∀ i, res !! i = Some correct →
        obj_get i (exactPositions hc') = Some (String.get i guess))
  ∧ (∀ X, minimum_for (String X EmptyString) (mustContain hc')
          = Nat.max (minimum_for (String X EmptyString) (mustContain hc))
                    (marks X letters res))
  ∧ constraints_le hc hc'
  ∧ (∀ target,
       String.length guess = WORD_LENGTH → String.length target = WORD_LENGTH →
       res = evaluateGuess guess target → agrees_with hc target →
       (∀ pos l, obj_get pos (exactPositions hc) = Some l →
                 obj_get pos (exactPositions hc') = Some l)
       ∧ agrees_with hc' target)
  ∧ (∀ answer, hardConstraints (state_of (startGame answer g)) = no_constraints)
  ∧ (∀ dict key, hardConstraints (state_of (handleKey dict key g)) = hc)
  ∧ (∀ suppress row,
       hardConstraints (state_of (revealed suppress guess res row g)) = hc').
Proof.
  intros Hlen hc hc' letters.
  assert (Hhc' : hc' = update_constraints guess res hc) by reflexivity.
  rewrite Hhc'. repeat split.
  - intros i Hi. unfold update_constraints. cbn [exactPositions].
    rewrite record_exact_get, decide_True; [reflexivity|].
    split; [lia|]. replace (i - 0) with i by lia. assumption.
  - intros X. apply update_constraints_minimum. assumption.
  - apply update_constraints_le.
  - apply update_constraints_le.
  - intros pos l. subst res. apply update_constraints_agrees; assumption.
  - subst res. apply update_constraints_agrees; assumption.
  - intros dict key. apply handleKey_constraints.
  - intros suppress row. apply revealed_run.
Qed.

(** ** The round barrier *)

Section RoundEnd.

Implicit Types (c : Client) (ps : gmap string Player) (e : nat * Callback).

Lemma all_done_spec ps :
  all_done ps = true ↔
  ps ≠ ∅ ∧ ∀ id p, ps !! id = Some p → done p = Some true.
Proof.
  unfold all_done. rewrite andb_true_iff, bool_decide_eq_true, forallb_forall.
  split.
  - intros [Hsize Hall]. split.
    + intros ->. rewrite map_size_empty in Hsize. lia.
    + intros id p Hp. eapply bool_decide_eq_true_1. apply Hall.
      apply list_elem_of_In. apply list_elem_of_fmap. exists (id, p). split; [reflexivity|].
      apply elem_of_map_to_list. assumption.
  - intros [Hne Hall]. split.
    + destruct (decide (size ps = 0)) as [Hz|Hz]; [|lia].
      apply map_size_empty_inv in Hz. contradiction.
    + intros p Hin. apply bool_decide_eq_true_2.
      apply list_elem_of_In in Hin. apply list_elem_of_fmap in Hin as ([id p'] & -> & Hin).
      apply elem_of_map_to_list in Hin. eauto.
Qed.

(** A players notification only matters to a barrier callback, and
    then only when everyone is done. *)
Lemma on_value_players k h ps c :
  on_value k h (EvPlayers ps) c
  = if is_barrier k && all_done ps then (off h c, results_write) else (c, []).
Proof. destruct k; simpl; try reflexivity; destruct (all_done ps); reflexivity. Qed.

Lemma notify_players_idle ps (l : list (nat * Callback)) : ∀ c acts,
  all_done ps = false ∨ (∀ e, e ∈ l → e ∈ attached c → is_barrier e.2 = false) →
  fold_left (notify (EvPlayers ps)) l (c, acts) = (c, acts).
Proof.
  induction l as [|e l IH]; intros c acts Hidle; [reflexivity|].
  cbn [fold_left]. unfold notify at 2. cbn [fst snd].
  destruct (decide _) as [[Hin Hl]|_].
  - rewrite on_value_players.
    assert (Hoff : is_barrier e.2 && all_done ps = false).
    { destruct Hidle as [->|Hb]; [apply andb_false_r|].
      rewrite Hb; [reflexivity|left|assumption]. }
    rewrite Hoff. cbn [fst snd]. rewrite app_nil_r. apply IH.
    destruct Hidle as [?|Hb]; [left; assumption|right].
    intros e' He'. apply Hb. right. assumption.
  - apply IH. destruct Hidle as [?|Hb]; [left; assumption|right].
    intros e' He'. apply Hb. right. assumption.
Qed.

Lemma barriers_off h c :
  barriers (off h c) = filter (λ e, e.1 ≠ h) (barriers c).
Proof.
  unfold barriers, off. cbn [attached set_listeners].
  induction (attached c) as [|e l IH]; [reflexivity|].
  rewrite !filter_cons.
  destruct (decide (e.1 ≠ h)); destruct (decide (is_barrier e.2 = true));
    rewrite ?filter_cons; rewrite ?decide_True by assumption;
    rewrite ?decide_False by assumption; rewrite ?IH; reflexivity.
Qed.

Lemma barriers_none c e :
  barriers c = [] → e ∈ attached c → is_barrier e.2 = false.
Proof.
  intros Hb He. destruct (is_barrier e.2) eqn:Hk; [|reflexivity].
  assert (Hin : e ∈ barriers c) by (apply list_elem_of_filter; auto).
  rewrite Hb in Hin. inversion Hin.
Qed.

(** With one barrier listener attached, a snapshot in which everyone
    is done makes it write [results] once and detach. *)
Lemma notify_players_fire ps h k (l : list (nat * Callback)) : ∀ c acts,
  all_done ps = true → barriers c = [(h, k)] → (h, k) ∈ l →
  (∀ e, e ∈ l → listens e.2 (EvPlayers ps) = true ∨ is_barrier e.2 = false) →
  ∃ c', fold_left (notify (EvPlayers ps)) l (c, acts) = (c', acts ++ results_write)
        ∧ barriers c' = [].
Proof.
  induction l as [|e l IH]; intros c acts Hdone Hb Hin Hl; [inversion Hin|].
  assert (Hhk : (h, k) ∈ attached c ∧ is_barrier k = true).
  { assert (H : (h, k) ∈ barriers c) by (rewrite Hb; left).
    apply list_elem_of_filter in H as [? ?]. auto. }
  destruct Hhk as [Hatt Hk].
  cbn [fold_left]. unfold notify at 2. cbn [fst snd].
  destruct (decide (e = (h, k))) as [->|Hne].
  - rewrite decide_True.
    + rewrite on_value_players. cbn [fst snd]. rewrite Hk, Hdone. cbn [andb fst snd].
      exists (off h c). split.
      * apply notify_players_idle. right. intros e' _ He'.
        apply (barriers_none (off h c)); [|assumption].
        rewrite barriers_off, Hb. rewrite filter_cons. cbn [fst].
        rewrite decide_False by (intros H; apply H; reflexivity). reflexivity.
      * rewrite barriers_off, Hb. rewrite filter_cons. cbn [fst].
        rewrite decide_False by (intros H; apply H; reflexivity). reflexivity.
    + split; [assumption|]. cbn [snd].
      destruct (Hl (h, k)) as [?|Hf]; [left|assumption|]. cbn [snd] in Hf. congruence.
  - assert (Hidle : ∀ c0, c0 = c → e ∈ attached c0 → is_barrier e.2 = false).
    { intros c0 -> He. destruct (is_barrier e.2) eqn:Hbe; [|reflexivity].
      assert (H : e ∈ barriers c) by (apply list_elem_of_filter; auto).
      rewrite Hb in H. apply list_elem_of_singleton in H. contradiction. }
    assert (Hstep : (if decide (e ∈ attached c ∧ listens e.2 (EvPlayers ps) = true)
                     then ((on_value e.2 e.1 (EvPlayers ps) c).1,
                           acts ++ (on_value e.2 e.1 (EvPlayers ps) c).2)
                     else (c, acts)) = (c, acts)).
    { destruct (decide _) as [[He _]|_]; [|reflexivity].
      rewrite on_value_players, (Hidle c eq_refl He). cbn. rewrite app_nil_r. reflexivity. }
    rewrite Hstep. apply IH; auto.
    + apply elem_of_cons in Hin as [?|?]; [congruence|assumption].
    + intros e' He'. apply Hl. right. assumption.
Qed.

Lemma deliver_players_idle ps c :
  all_done ps = false ∨ barriers c = [] →
  deliver (EvPlayers ps) c = (c, []).
Proof.
  intros H. unfold deliver. apply notify_players_idle.
  destruct H as [?|Hb]; [left; assumption|right].
  intros e _ He. eapply barriers_none; eauto.
Qed.

Lemma deliver_players_fire ps h k c :
  all_done ps = true → barriers c = [(h, k)] →
  (∀ e, e ∈ attached c → listens e.2 (EvPlayers ps) = true ∨ is_barrier e.2 = false) →
  ∃ c', deliver (EvPlayers ps) c = (c', results_write) ∧ barriers c' = [].
Proof.
  intros Hdone Hb Hl. unfold deliver.
  assert (Hin : (h, k) ∈ attached c).
  { assert (H : (h, k) ∈ barriers c) by (rewrite Hb; left).
    apply list_elem_of_filter in H as [? ?]. auto. }
  destruct (notify_players_fire ps h k (attached c) c [] Hdone Hb Hin Hl)
    as (c' & Hrun & Hb').
  exists c'. split; assumption.
Qed.

Lemma listens_barrier k ps : is_barrier k = true → listens k (EvPlayers ps) = true.
Proof. destruct k; simpl; congruence. Qed.

Lemma run_disarmed snaps : ∀ c,
  barriers c = [] → run (EvPlayers <$> snaps) c = barrier_writes false snaps.
Proof.
  induction snaps as [|ps snaps IH]; intros c Hb; [reflexivity|].
  rewrite fmap_cons. cbn [run barrier_writes andb].
  rewrite deliver_players_idle by (right; assumption). cbn [fst snd].
  f_equal. apply IH. assumption.
Qed.

Lemma run_armed snaps : ∀ c h k,
  barriers c = [(h, k)] →
  run (EvPlayers <$> snaps) c = barrier_writes true snaps.
Proof.
  induction snaps as [|ps snaps IH]; intros c h k Hb; [reflexivity|].
  rewrite fmap_cons. cbn [run barrier_writes andb].
  destruct (all_done ps) eqn:Hdone.
  - destruct (deliver_players_fire ps h k c Hdone Hb) as (c' & Hrun & Hb').
    { intros e He. destruct (is_barrier e.2) eqn:Hk; [left|right; reflexivity].
      apply listens_barrier. assumption. }
    rewrite Hrun. cbn [fst snd]. f_equal. apply run_disarmed. assumption.
  - rewrite deliver_players_idle by (left; assumption). cbn [fst snd].
    f_equal. eapply IH. eassumption.
Qed.

Lemma barriers_attach k c :
  barriers (attach k c)
  = barriers c ++ (if is_barrier k then [(nextHandle c, k)] else []).
Proof.
  unfold barriers, attach. cbn [attached set_listeners].
  rewrite filter_app, filter_cons, filter_nil. cbn [snd].
  destruct (is_barrier k); [rewrite decide_True by reflexivity|
                            rewrite decide_False by discriminate]; reflexivity.
Qed.

Lemma barriers_listenForRoundEnd c :
  barriers c = [] →
  barriers (listenForRoundEnd c)
  = if mpIsHost c then [(nextHandle c, RoundEndPlayers)] else [].
Proof.
  intros Hb. unfold listenForRoundEnd.
  destruct (mpIsHost c); rewrite !barriers_attach, Hb; reflexivity.
Qed.

Lemma barriers_showMpWatchingOverlay c :
  barriers c = [] →
  barriers (showMpWatchingOverlay c)
  = if mpIsHost c then [(S (nextHandle c), WatchPlayers)] else [].
Proof.
  intros Hb. unfold showMpWatchingOverlay, startLiveBoardsListener.
  change (mpIsHost (attach (LiveBoards true) c)) with (mpIsHost c).
  destruct (mpIsHost c); rewrite !barriers_attach, Hb; reflexivity.
Qed.

End RoundEnd.

Lemma barrier_writes_disarmed (snaps : list (gmap string Player)) :
  barrier_writes false snaps = (λ _, []) <$> snaps.
Proof. induction snaps as [|ps snaps IH]; simpl; [|rewrite IH]; reflexivity. Qed.

Lemma barrier_writes_lookup (snaps : list (gmap string Player)) : ∀ j ps,
  snaps !! j = Some ps →
  barrier_writes true snaps !! j
  = Some (if all_done ps && forallb (λ q, negb (all_done q)) (take j snaps)
          then results_write else []).
Proof.
  induction snaps as [|q snaps IH]; intros j ps Hj; [discriminate Hj|].
  cbn [barrier_writes andb]. destruct j as [|j]; simpl in Hj.
  - injection Hj as ->. destruct (all_done ps); reflexivity.
  - cbn [take forallb]. destruct (all_done q) eqn:Hq; cbn [negb andb lookup].
    + rewrite barrier_writes_disarmed. simpl. rewrite list_lookup_fmap, Hj.
      rewrite andb_false_r. reflexivity.
    + simpl. apply IH. assumption.
Qed.

Lemma barrier_writes_once (armed : bool) (snaps : list (gmap string Player)) :
  length (concat (barrier_writes armed snaps)) ≤ 1.
Proof.
  revert armed. induction snaps as [|ps snaps IH]; intros armed; simpl; [lia|].
  destruct (armed && all_done ps); simpl.
  - rewrite barrier_writes_disarmed.
    assert (H : concat ((λ _ : gmap string Player, ([] : list Action)) <$> snaps) = []).
    { clear. induction snaps; simpl; auto. }
    rewrite H. simpl. lia.
  - apply IH.
Qed.

(** One round-end check on its own.  On a client that holds no other
    round-end check, the one installed by [listenForRoundEnd] or, for a
    host who is the spectating word-setter, by [showMpWatchingOverlay],
    writes [status = results] at the first snapshot that is non-empty
    with every record (the setter's included) done, and nothing before
    or after, because the callback detaches itself before it writes.
    A client that is not the host writes nothing. *)
Lemma host_round_end_once (c : Client) (snaps : list (gmap string Player)) :
  barriers c = [] →
  (∀ ps, all_done ps = true ↔
         ps ≠ ∅ ∧ ∀ id p, ps !! id = Some p → done p = Some true)
  ∧ run (EvPlayers <$> snaps) (listenForRoundEnd c)
    = (if mpIsHost c then barrier_writes true snaps else (λ _, []) <$> snaps)
  ∧ run (EvPlayers <$> snaps) (showMpWatchingOverlay c)
    = (if mpIsHost c then barrier_writes true snaps else (λ _, []) <$> snaps)
  ∧ (∀ j ps, snaps !! j = Some ps →
       barrier_writes true snaps !! j
       = Some (if all_done ps && forallb (λ q, negb (all_done q)) (take j snaps)
               then [Send (Update [StatusIs results])] else []))
  ∧ length (concat (barrier_writes true snaps)) ≤ 1.
Proof.
  intros Hb. split; [apply all_done_spec|].
  pose proof (barriers_listenForRoundEnd c Hb) as H1.
  pose proof (barriers_showMpWatchingOverlay c Hb) as H2.
  repeat split.
  - destruct (mpIsHost c).
    + eapply run_armed. eassumption.
    + rewrite <- barrier_writes_disarmed. apply run_disarmed. assumption.
  - destruct (mpIsHost c).
    + eapply run_armed. eassumption.
    + rewrite <- barrier_writes_disarmed. apply run_disarmed. assumption.
  - apply barrier_writes_lookup.
  - apply barrier_writes_once.
Qed.

(** ** One-shot status listeners *)

Section StatusListeners.

Implicit Types (c : Client) (s : option Status) (e : nat * Callback).

Lemma on_value_idle k h s c :
  reacts k s = false → on_value k h (EvStatus s) c = (c, []).
Proof. destruct k, s as [[]|]; simpl; congruence. Qed.

Lemma attached_attach k c e :
  e ∈ attached (attach k c) ↔ e ∈ attached c ∨ e = (nextHandle c, k).
Proof.
  unfold attach. cbn [attached set_listeners].
  rewrite elem_of_app, list_elem_of_singleton. reflexivity.
Qed.

Lemma attached_off h c e :
  e ∈ attached (off h c) ↔ e ∈ attached c ∧ e.1 ≠ h.
Proof.
  unfold off. cbn [attached set_listeners].
  rewrite list_elem_of_filter. tauto.
Qed.

(** A callback that reacts detaches itself, and whatever it attaches
    in the same turn does not react to the same value. *)
Lemma on_value_reacts k h s c e :
  reacts k s = true →
  e ∈ attached (on_value k h (EvStatus s) c).1 →
  (e ∈ attached c ∧ e.1 ≠ h) ∨ reacts e.2 s = false.
Proof.
  destruct k, s as [[]|]; cbn [reacts on_value fst]; try discriminate; intros _;
    unfold showMpWatchingOverlay, startLiveBoardsListener, enterLobby, listenLobby;
    repeat match goal with
           | |- context [if ?b then _ else _] => destruct b
           end;
    rewrite ?attached_attach;
    change (attached (set_active true (off h c))) with (attached (off h c));
    rewrite ?attached_off;
    intuition (subst; auto).
Qed.

Lemma notify_status_todo s (l : list (nat * Callback)) : ∀ c acts,
  (∀ e, e ∈ attached c → reacts e.2 s = true → e ∈ l) →
  quiescent s (fold_left (notify (EvStatus s)) l (c, acts)).1.
Proof.
  induction l as [|e l IH]; intros c acts Htodo.
  - intros e He. destruct (reacts e.2 s) eqn:Hr; [|reflexivity].
    specialize (Htodo e He Hr). inversion Htodo.
  - cbn [fold_left]. unfold notify at 2. cbn [fst snd].
    assert (Hlisten : ∀ k, reacts k s = true → listens k (EvStatus s) = true).
    { intros k. destruct k, s as [[]|]; simpl; congruence. }
    destruct (decide _) as [[He Hl]|Hno].
    + destruct (reacts e.2 s) eqn:Hr.
      * apply IH. intros e' He' Hr'.
        destruct (on_value_reacts e.2 e.1 s c e' Hr He') as [[Hin Hne]|Hf];
          [|congruence].
        specialize (Htodo e' Hin Hr').
        apply elem_of_cons in Htodo as [->|?]; [contradiction|assumption].
      * rewrite on_value_idle by assumption. cbn [fst snd]. apply IH.
        intros e' He' Hr'. specialize (Htodo e' He' Hr').
        apply elem_of_cons in Htodo as [->|?]; [congruence|assumption].
    + apply IH. intros e' He' Hr'. specialize (Htodo e' He' Hr').
      apply elem_of_cons in Htodo as [->|?]; [|assumption].
      exfalso. apply Hno. split; [assumption|]. apply Hlisten. assumption.
Qed.

Lemma deliver_quiescent s c : quiescent s (deliver (EvStatus s) c).1.
Proof. unfold deliver. apply notify_status_todo. auto. Qed.

Lemma notify_status_idle s (l : list (nat * Callback)) : ∀ c acts,
  quiescent s c → fold_left (notify (EvStatus s)) l (c, acts) = (c, acts).
Proof.
  induction l as [|e l IH]; intros c acts Hq; [reflexivity|].
  cbn [fold_left]. unfold notify at 2. cbn [fst snd].
  destruct (decide _) as [[He _]|_]; [|apply IH; assumption].
  rewrite on_value_idle by (apply Hq; assumption).
  cbn [fst snd]. rewrite app_nil_r. apply IH. assumption.
Qed.

Lemma deliver_idle s c : quiescent s c → deliver (EvStatus s) c = (c, []).
Proof. apply notify_status_idle. Qed.

Lemma calls_app (a b : list Action) : calls (a ++ b) = calls a ++ calls b.
Proof. unfold calls. apply omap_app. Qed.

Lemma on_value_calls k h s c :
  calls (on_value k h (EvStatus s) c).2
  = if listens k (EvStatus s) then started k s else [].
Proof. destruct k, s as [[]|]; reflexivity. Qed.

Lemma started_started_on k s t : t ∈ started k s → started_on t s.
Proof.
  destruct k, s as [[]|]; simpl; intros H;
    repeat (apply elem_of_cons in H as [->|H]); try inversion H; reflexivity.
Qed.

Lemma on_value_keeps k h s c e :
  e ∈ attached c → e.1 ≠ h → e ∈ attached (on_value k h (EvStatus s) c).1.
Proof.
  intros He Hne.
  destruct k, s as [[]|]; cbn [on_value fst]; try assumption;
    unfold showMpWatchingOverlay, startLiveBoardsListener, enterLobby, listenLobby;
    repeat match goal with
           | |- context [if ?b then _ else _] => destruct b
           end;
    rewrite ?attached_attach;
    change (attached (set_active true (off h c))) with (attached (off h c));
    rewrite ?attached_off; auto 10.
Qed.

(** With distinct handles, each attached listener is called, and the
    functions started are those of the listeners that react. *)
Lemma notify_status_calls s (l : list (nat * Callback)) : ∀ c acts,
  NoDup (l.*1) → (∀ e, e ∈ l → e ∈ attached c) →
  calls (fold_left (notify (EvStatus s)) l (c, acts)).2
  = calls acts ++ flat_map (λ e, started e.2 s) l.
Proof.
  induction l as [|e l IH]; intros c acts Hnd Hatt.
  - simpl. rewrite app_nil_r. reflexivity.
  - rewrite fmap_cons in Hnd. apply NoDup_cons in Hnd as [Hh Hnd].
    cbn [fold_left flat_map]. unfold notify at 2. cbn [fst snd].
    destruct (decide _) as [[He Hl]|Hno].
    + rewrite IH; [|assumption|].
      * rewrite calls_app, on_value_calls, Hl, <- app_assoc. reflexivity.
      * intros e' He'. apply on_value_keeps; [apply Hatt; right; assumption|].
        intros Heq. apply Hh. rewrite <- Heq.
        apply list_elem_of_fmap. exists e'. auto.
    + rewrite IH; [|assumption|intros e' He'; apply Hatt; right; assumption].
      assert (Hs : started e.2 s = []).
      { destruct (listens e.2 (EvStatus s)) eqn:Hl.
        - exfalso. apply Hno. split; [apply Hatt; left|reflexivity].
        - destruct e as [h k]. destruct k, s as [[]|]; simpl in *; congruence. }
      rewrite Hs. reflexivity.
Qed.

Lemma deliver_calls s c :
  NoDup ((attached c).*1) →
  calls (deliver (EvStatus s) c).2 = flat_map (λ e, started e.2 s) (attached c).
Proof.
  intros Hnd. unfold deliver. rewrite notify_status_calls; auto.
Qed.

Lemma notify_status_started_on s (l : list (nat * Callback)) : ∀ c acts,
  Forall (λ t, started_on t s) (calls acts) →
  Forall (λ t, started_on t s) (calls (fold_left (notify (EvStatus s)) l (c, acts)).2).
Proof.
  induction l as [|e l IH]; intros c acts Hacts; [assumption|].
  cbn [fold_left]. unfold notify at 2. cbn [fst snd].
  destruct (decide _) as [[He Hl]|_]; [|apply IH; assumption].
  apply IH. rewrite calls_app, on_value_calls, Hl. apply Forall_app. split; [assumption|].
  apply Forall_forall. intros t. apply started_started_on.
Qed.

Lemma attached_set_round_vars gs b1 b2 c :
  attached (set_round_vars gs b1 b2 c) = attached c.
Proof. reflexivity. Qed.

(** What the rest of a started function attaches does not react to
    the value that started it. *)
Lemma resume_quiescent t s party c :
  started_on t s → quiescent s c → quiescent s (resume t party c).1.
Proof.
  intros Ht Hq e.
  destruct t; cbn [started_on] in Ht; try contradiction; subst s;
    destruct party as [pt|]; cbn [resume fst];
    unfold listenForRoundEnd, startLiveBoardsListener;
    repeat match goal with
           | |- context [if ?b then _ else _] => destruct b
           end; cbn [fst];
    repeat (rewrite attached_attach || rewrite attached_set_round_vars);
    intros He; decompose [or] He; subst;
    first [reflexivity | apply Hq; assumption].
Qed.

Lemma resume_all_quiescent s (ts : list Task) : ∀ reads c,
  Forall (λ t, started_on t s) ts → quiescent s c →
  quiescent s (resume_all ts reads c).
Proof.
  induction ts as [|t ts IH]; intros reads c Hts Hq; [assumption|].
  destruct reads as [|rd reads]; [assumption|]. cbn [resume_all].
  apply Forall_cons in Hts as [Ht Hts].
  apply IH; [assumption|]. apply resume_quiescent; assumption.
Qed.


End StatusListeners.

(** Each status listener is one-shot.  When a status value arrives,
    each attached listener that reacts to it is detached by the end of
    the delivery; delivering the same value again calls no function,
    issues no write and leaves the client as it is, both right away and
    after the async functions started by the first delivery
    ([startMpRound], [handleChoosingPhase], [showMpResults]) have run on
    whatever they read.  With distinct listener handles the first
    delivery starts exactly the function of each reacting listener.  A
    callback that reacts to the value removes its own listener in the
    same turn, and one that does not react does nothing. *)
Lemma status_listener_one_shot (c : Client) (s : option Status)
    (reads : list (option Party)) :
  let r := deliver (EvStatus s) c in
  (∀ e, e ∈ attached c → reacts e.2 s = true → e ∉ attached r.1)
  ∧ deliver (EvStatus s) r.1 = (r.1, [])
  ∧ (let c' := resume_all (calls r.2) reads r.1 in
     deliver (EvStatus s) c' = (c', []))
  ∧ (NoDup ((attached c).*1) →
     calls r.2 = flat_map (λ e, started e.2 s) (attached c))
  ∧ (∀ h k, reacts k s = true → (h, k) ∉ attached (on_value k h (EvStatus s) c).1)
  ∧ (∀ h k, reacts k s = false → on_value k h (EvStatus s) c = (c, [])).
Proof.
  intros r. pose proof (deliver_quiescent s c) as Hq. fold r in Hq.
  split; [|split; [|split; [|split; [|split]]]].
  - intros e _ Hr He. specialize (Hq e He). congruence.
  - apply deliver_idle. assumption.
  - apply deliver_idle. apply resume_all_quiescent; [|assumption].
    unfold r, deliver. apply notify_status_started_on. constructor.
  - apply deliver_calls.
  - intros h k Hr He.
    destruct (on_value_reacts k h s c (h, k) Hr He) as [[_ Hne]|Hf].
    + apply Hne. reflexivity.
    + cbn [snd] in Hf. congruence.
  - intros h k. apply on_value_idle.
Qed.

(** ** The host relay *)

Section Relay.

Implicit Types (pt : Party) (p : Player) (id : string) (sid : option string).

Lemma with_player_twice id (f f' : Player → Player) pt :
  with_player id f' (with_player id f pt) = with_player id (λ p, f' (f p)) pt.
Proof.
  unfold with_player. cbn. rewrite lookup_insert_eq, insert_insert_eq. reflexivity.
Qed.

Lemma round_resets_apply sid b id pt :
  apply_update (round_resets sid b id) pt = with_player id (reset_player sid b id) pt.
Proof.
  unfold apply_update, round_resets.
  destruct b; cbn [app fold_left write_leaf]; rewrite !with_player_twice; reflexivity.
Qed.

Lemma with_player_lookup id id' f pt :
  players (with_player id f pt) !! id'
  = if decide (id = id') then Some (f (default no_player (players pt !! id)))
    else players pt !! id'.
Proof. unfold with_player. cbn. apply lookup_insert. Qed.

Lemma resets_apply sid b (ids : list string) : ∀ pt,
  NoDup ids →
  let pt' := apply_update (flat_map (round_resets sid b) ids) pt in
  (∀ id, players pt' !! id
         = if decide (id ∈ ids)
           then Some (reset_player sid b id (default no_player (players pt !! id)))
           else players pt !! id)
  ∧ host pt' = host pt ∧ status pt' = status pt ∧ gameMode pt' = gameMode pt
  ∧ round pt' = round pt ∧ partyTargetWord pt' = partyTargetWord pt
  ∧ wordSetterIndex pt' = wordSetterIndex pt ∧ wordQueue pt' = wordQueue pt.
Proof.
  induction ids as [|i ids IH]; intros pt Hnd.
  - cbn. split; [|repeat split]. intros id. rewrite decide_False; [reflexivity|].
    inversion 1.
  - apply NoDup_cons in Hnd as [Hi Hnd].
    cbn [flat_map]. unfold apply_update. rewrite fold_left_app.
    fold (apply_update (round_resets sid b i) pt). rewrite round_resets_apply.
    fold (apply_update (flat_map (round_resets sid b) ids)
            (with_player i (reset_player sid b i) pt)).
    destruct (IH (with_player i (reset_player sid b i) pt) Hnd) as (Hp & Hrest).
    split; [|exact Hrest].
    intros id. rewrite Hp, with_player_lookup.
    destruct (decide (id ∈ ids)) as [Hin|Hin].
    + rewrite (decide_True (P := id ∈ i :: ids)) by (right; assumption).
      rewrite (decide_False (P := i = id)) by (intros ->; contradiction). reflexivity.
    + destruct (decide (i = id)) as [->|Hne].
      * rewrite (decide_True (P := id ∈ id :: ids)) by left. reflexivity.
      * rewrite (decide_False (P := id ∈ i :: ids)); [reflexivity|].
        intros H. apply elem_of_cons in H as [->|H]; contradiction.
Qed.

Lemma Object_keys_spec (ps : gmap string Player) :
  NoDup (Object_keys ps) ∧ ∀ id, id ∈ Object_keys ps ↔ is_Some (ps !! id).
Proof.
  unfold Object_keys. split; [apply NoDup_fst_map_to_list|].
  intros id. rewrite list_elem_of_fmap. split.
  - intros ([i p] & -> & Hin). apply elem_of_map_to_list in Hin. eauto.
  - intros [p Hp]. exists (id, p). split; [reflexivity|].
    apply elem_of_map_to_list. assumption.
Qed.


End Relay.


(** ** Submitting the secret word *)




(** ** Leaving a party *)

Lemma attached_cleanup (hs : list nat) : ∀ c,
  attached (fold_left (λ c' h, off h c') hs c)
  = filter (λ e, e.1 ∉ hs) (attached c).
Proof.
  induction hs as [|h hs IH]; intros c; simpl.
  - induction (attached c) as [|e l IHl]; [reflexivity|].
    rewrite filter_cons, decide_True by (inversion 1). f_equal. assumption.
  - rewrite IH. unfold off. cbn [attached set_listeners].
    induction (attached c) as [|e l IHl]; [reflexivity|].
    rewrite !filter_cons.
    destruct (decide (e.1 ≠ h)) as [Hne|Heq].
    + rewrite filter_cons. destruct (decide (e.1 ∉ hs)) as [Hn|Hn].
      * rewrite decide_True; [f_equal; assumption|].
        intros H. apply elem_of_cons in H as [?|?]; contradiction.
      * rewrite decide_False; [assumption|].
        intros H. apply Hn. intros Hin. apply H. right. assumption.
    + rewrite decide_False; [assumption|].
      intros H. apply H.
      assert (e.1 = h) as -> by (destruct (decide (e.1 = h)); [assumption|contradiction]).
      left.
Qed.

(** [cleanupMp] empties the list of clean-up closures and detaches every
    listener that has one. *)
Lemma cleanupMp_releases (c : Client) :
  mpListeners (cleanupMp c) = []
  ∧ ((∀ e, e ∈ attached c → e.1 ∈ mpListeners c) → attached (cleanupMp c) = []).
Proof.
  split; [reflexivity|]. intros Htracked. unfold cleanupMp. cbn [attached].
  rewrite attached_cleanup. induction (attached c) as [|e l IH]; [reflexivity|].
  rewrite filter_cons, decide_False.
  - apply IH. intros e' He'. apply Htracked. right. assumption.
  - intros H. apply H. apply Htracked. left.
Qed.

(** When the awaited [remove()] resolves, or there is no party
    reference, [leaveParty] reaches [cleanupMp]. *)
Lemma leaveParty_completed (c : Client) (removed : bool) :
  mpPartyRef c = false ∨ removed = true →
  (leaveParty removed c).1 = cleanupMp c.
Proof.
  unfold leaveParty. intros [H| ->]; [rewrite H; reflexivity|].
  destruct (mpPartyRef c); reflexivity.
Qed.

(** C8, at the failing input: a guest in the lobby whose [remove()] is
    rejected.  [leaveParty] stops at the [await]; the three lobby
    listeners stay attached and their clean-up closures stay listed. *)
Theorem leaveParty_remove_rejected :
  let c := enterLobby (fresh_client "guest" false) in
  leaveParty false c = (c, [Send (RemovePlayer "guest")])
  ∧ attached (leaveParty false c).1
    = [(0, LobbyPlayers); (1, LobbyMode); (2, LobbyStatus)]
  ∧ mpListeners (leaveParty false c).1 = [0; 1; 2]
  ∧ attached (leaveParty true c).1 = []
  ∧ mpListeners (leaveParty true c).1 = [].
Proof. repeat split. Qed.

(** ** Letter case *)

(** [evaluateGuess] compares the letters as they are: a lower-case
    guess against the same word in upper case scores differently. *)
Lemma evaluateGuess_case_sensitive :
  evaluateGuess (toLowerCase "CRANE") (toUpperCase "CRANE")
  ≠ evaluateGuess (toUpperCase "CRANE") (toUpperCase "CRANE").
Proof. vm_compute. discriminate. Qed.

(** *** Renaming the letters *)

Section Renaming.

Variable f : ascii → ascii.
Hypothesis f_inj : ∀ a b, f a = f b → a = b.

Lemma val_map_inj (v v' : Js.val) : val_map f v = val_map f v' → v = v'.
Proof.
  destruct v, v'; cbn; try congruence. intros [= H]. apply f_inj in H. congruence.
Qed.

Lemma val_map_Null (v : Js.val) : val_map f v = Js.Null ↔ v = Js.Null.
Proof. destruct v; cbn; split; congruence. Qed.

Lemma find_index_map (v : Js.val) (a : list Js.val) :
  Js.find_index (val_map f v) (map (val_map f) a) = Js.find_index v a.
Proof.
  induction a as [|x a IH]; cbn [map Js.find_index]; [reflexivity|].
  rewrite IH. destruct (decide (x = v)) as [->|Hne].
  - rewrite decide_True by reflexivity. reflexivity.
  - rewrite decide_False; [reflexivity|]. intros H. apply val_map_inj in H. contradiction.
Qed.

Lemma indexOf_map (v : Js.val) (a : list Js.val) :
  Js.indexOf (val_map f v) (map (val_map f) a) = Js.indexOf v a.
Proof.
  destruct v as [| |c]; cbn [Js.indexOf val_map]; [reflexivity| |].
  - exact (find_index_map Js.Null a).
  - exact (find_index_map (Js.Chr c) a).
Qed.

Lemma insert_map (i : nat) (v : Js.val) (a : list Js.val) :
  map (val_map f) (<[i:=v]> a) = <[i:=val_map f v]> (map (val_map f) a).
Proof.
  revert i. induction a as [|x a IH]; intros [|i]; cbn; [reflexivity..|].
  f_equal. apply IH.
Qed.

Lemma set_Null_map (i : nat) (a : list Js.val) :
  Js.set i Js.Null (map (val_map f) a) = map (val_map f) (Js.set i Js.Null a).
Proof.
  unfold Js.set. rewrite length_map.
  destruct (decide (i < length a)).
  - rewrite insert_map. reflexivity.
  - rewrite !map_app. f_equal. f_equal.
    induction (i - length a) as [|k IH]; cbn; [reflexivity|]. f_equal. exact IH.
Qed.

Lemma presents_map (G : list Js.val) : ∀ (res : list LetterState) (T : list Js.val),
  presents (map (val_map f) G) res (map (val_map f) T) = presents G res T.
Proof.
  induction G as [|x G IH]; intros res T; [destruct res; reflexivity|].
  destruct res as [|r res]; [reflexivity|]. cbn [map presents].
  rewrite indexOf_map.
  destruct (decide (x = Js.Null)) as [->|Hne].
  - rewrite decide_True by reflexivity. rewrite IH. reflexivity.
  - rewrite decide_False by (rewrite val_map_Null; exact Hne).
    destruct (Js.indexOf x T) as [idx|].
    + rewrite set_Null_map, IH. reflexivity.
    + rewrite IH. reflexivity.
Qed.

Lemma res1_map (g : list ascii) : ∀ t, res1 (map f g) (map f t) = res1 g t.
Proof.
  unfold res1. induction g as [|a g IH]; intros [|b t]; cbn; [reflexivity..|].
  rewrite IH. f_equal.
  destruct (decide (a = b)) as [->|Hne].
  - rewrite decide_True by reflexivity. reflexivity.
  - rewrite decide_False; [reflexivity|]. intros H. apply f_inj in H. contradiction.
Qed.

Lemma gs1_map (g : list ascii) : ∀ t,
  gs1 (map f g) (map f t) = map (val_map f) (gs1 g t).
Proof.
  unfold gs1. induction g as [|a g IH]; intros [|b t]; cbn; [reflexivity..|].
  rewrite IH. f_equal.
  destruct (decide (a = b)) as [->|Hne].
  - rewrite decide_True by reflexivity. reflexivity.
  - rewrite decide_False; [reflexivity|]. intros H. apply f_inj in H. contradiction.
Qed.

Lemma tgt1_map (g : list ascii) : ∀ t,
  tgt1 (map f g) (map f t) = map (val_map f) (tgt1 g t).
Proof.
  unfold tgt1. induction g as [|a g IH]; intros [|b t]; cbn; [reflexivity..|].
  rewrite IH. f_equal.
  destruct (decide (a = b)) as [->|Hne].
  - rewrite decide_True by reflexivity. reflexivity.
  - rewrite decide_False; [reflexivity|]. intros H. apply f_inj in H. contradiction.
Qed.

(** The score depends on which letters are equal, not on what they
    are. *)
Lemma evaluateGuess_renaming (guess target : string) :
  String.length guess = WORD_LENGTH → String.length target = WORD_LENGTH →
  evaluateGuess (map_string f guess) (map_string f target) = evaluateGuess guess target.
Proof.
  intros Hg Ht.
  pose proof (evaluateGuess_presents guess target) as H1.
  pose proof (evaluateGuess_presents (map_string f guess) (map_string f target)) as H2.
  cbv zeta in H1, H2.
  rewrite !list_map_string, !length_map, !length_list_ascii in H2.
  rewrite !length_list_ascii in H1.
  rewrite (H1 Hg Ht), (H2 Hg Ht).
  rewrite res1_map, gs1_map, tgt1_map. apply presents_map.
Qed.

End Renaming.

(** Exchanging the case of the letters is one-to-one, and on a string in
    upper case it is [toLowerCase]. *)
Lemma toLowerCase_renaming :
  ∃ h : ascii → ascii,
    (∀ a b, h a = h b → a = b)
    ∧ ∀ w, map_string h (toUpperCase w) = toLowerCase w.
Proof.
  exists (λ c, if is_lower c then upper_char c else lower_char c).
  assert (Hinv : ∀ c : ascii,
            (λ c, if is_lower c then upper_char c else lower_char c)
              ((λ c, if is_lower c then upper_char c else lower_char c) c) = c).
  { intros [[] [] [] [] [] [] [] []]; reflexivity. }
  split.
  - intros a b Hab. rewrite <- (Hinv a), <- (Hinv b). cbn beta in Hab |- *.
    rewrite Hab. reflexivity.
  - intros w. unfold toUpperCase, toLowerCase.
    induction w as [|c w IH]; cbn [map_string]; [reflexivity|].
    rewrite IH, upper_char_not_lower, lower_upper_char. reflexivity.
Qed.

(** C6, as the code has it.  [evaluateGuess] compares the code units as
    they are and converts nothing (the counterexample above).  For
    words of five code units below 128 the result is the same once both
    words are in one case, whichever case that is and whatever case
    they were written in: the guess and the answer both upper-cased
    score as both lower-cased, and as any other spelling of them both
    upper-cased or both lower-cased.  The reason is that the score
    depends on which letters are equal: it is unchanged by any
    one-to-one renaming of the letters of both words. *)
Theorem evaluateGuess_case_normalized (g g' t t' : string) :
  String.length g = 5 → String.length t = 5 →
  ascii_only g = true → ascii_only t = true →
  toLowerCase g' = toLowerCase g →
  toLowerCase t' = toLowerCase t →
  evaluateGuess (toLowerCase g) (toLowerCase t)
  = evaluateGuess (toUpperCase g) (toUpperCase t)
  ∧ evaluateGuess (toUpperCase g') (toUpperCase t')
    = evaluateGuess (toUpperCase g) (toUpperCase t)
  ∧ evaluateGuess (toLowerCase g') (toLowerCase t')
    = evaluateGuess (toUpperCase g) (toUpperCase t)
  ∧ evaluateGuess (toUpperCase (toLowerCase g)) (toUpperCase t)
    = evaluateGuess (toUpperCase g) (toUpperCase t)
  ∧ (∀ f : ascii → ascii,
       (∀ a b, f a = f b → a = b) →
       evaluateGuess (map_string f g) (map_string f t) = evaluateGuess g t).
Proof.
  intros Hg Ht _ _ Hg' Ht'.
  assert (Hlow : evaluateGuess (toLowerCase g) (toLowerCase t)
                 = evaluateGuess (toUpperCase g) (toUpperCase t)).
  { destruct toLowerCase_renaming as (h & Hinj & Hh).
    rewrite <- (Hh g), <- (Hh t).
    apply evaluateGuess_renaming; [exact Hinj| |];
      unfold toUpperCase; rewrite length_map_string; assumption. }
  split; [exact Hlow|]. split; [|split; [|split]].
  - rewrite <- (toUpperCase_toLowerCase g'), <- (toUpperCase_toLowerCase t'), Hg', Ht'.
    rewrite !toUpperCase_toLowerCase. reflexivity.
  - rewrite Hg', Ht'. exact Hlow.
  - rewrite toUpperCase_toLowerCase. reflexivity.
  - intros f Hf. apply evaluateGuess_renaming; assumption.
Qed.

(** ** The theorems at sample inputs *)

(** The round barrier for a host with the sample snapshots: the write
    happens at the second snapshot only. *)
Lemma host_round_end_once_witness :
  barriers (fresh_client "host" true) = []
  ∧ run (EvPlayers <$> sample_snapshots) (listenForRoundEnd (fresh_client "host" true))
    = [[]; [Send (Update [StatusIs results])]; []].
Proof.
  split; [reflexivity|].
  destruct (host_round_end_once (fresh_client "host" true) sample_snapshots eq_refl)
    as (_ & H & _).
  rewrite H. vm_compute. reflexivity.
Defined.


(** On the second row of a hard-mode game whose first guess TRACE was
    scored against CRANE: GRADE holds no C and is refused with "Guess
    must contain C"; CHARE has H where R was found and is refused with
    "2nd letter must be R"; CRATE meets every constraint and is
    scored. *)
Lemma submitGuess_hard_mode_witness :
  submitGuess sample_words (sample_game "GRADE")
  = (tt, sample_game "GRADE", [MpClearTyping; Toast "Guess must contain C"; ShakeRow 1])
  ∧ submitGuess {[ "chare" ]} (sample_game "CHARE")
    = (tt, sample_game "CHARE", [MpClearTyping; Toast "2nd letter must be R"; ShakeRow 1])
  ∧ submitGuess sample_words (sample_game "CRATE")
    = (tt, sample_game "CRATE",
       [MpClearTyping; RevealRow 1 "CRATE" [correct; correct; correct; absent; correct]]).
Proof.
  split; [|split].
  - destruct (submitGuess_hard_mode sample_words (sample_game "GRADE") eq_refl
                ltac:(vm_compute; lia) ltac:(vm_compute; reflexivity)) as [Hreject _].
    destruct Hreject as (msg & Hmsg & Hwhich).
    { right. exists {| letter := "C"; minCount := 1 |}. split.
      - vm_compute. do 2 apply list_elem_of_further. apply list_elem_of_here.
      - vm_compute. lia. }
    assert (msg = "Guess must contain C") as ->; [|exact Hmsg].
    destruct Hwhich as [(pos & l & [Hin Hne] & _ & Hm)|(c & [Hin Hlt] & _ & Hm)].
    + exfalso. split_elem Hin; injection Hin as -> ->; apply Hne; reflexivity.
    + split_elem Hin; subst c;
        first [exfalso; vm_compute in Hlt; lia | rewrite Hm; reflexivity].
  - destruct (submitGuess_hard_mode {[ "chare" ]} (sample_game "CHARE") eq_refl
                ltac:(vm_compute; lia) ltac:(vm_compute; reflexivity)) as [Hreject _].
    destruct Hreject as (msg & Hmsg & Hwhich).
    { left. exists 1, (Some "R"%char). split.
      - vm_compute. apply list_elem_of_here.
      - vm_compute. discriminate. }
    assert (msg = "2nd letter must be R") as ->; [|exact Hmsg].
    destruct Hwhich as [(pos & l & [Hin Hne] & _ & Hm)|(c & [Hin Hlt] & _ & Hm)].
    + split_elem Hin; injection Hin as -> ->;
        first [exfalso; apply Hne; reflexivity | rewrite Hm; reflexivity].
    + exfalso. split_elem Hin; subst c; vm_compute in Hlt; lia.
  - destruct (submitGuess_hard_mode sample_words (sample_game "CRATE") eq_refl
                ltac:(vm_compute; lia) ltac:(vm_compute; reflexivity)) as [_ Haccept].
    destruct Haccept as [Hsub _]; [|exact Hsub].
    split.
    + intros pos l [Hin Hne]. split_elem Hin; injection Hin as -> ->; apply Hne; reflexivity.
    + intros c [Hin Hlt]. split_elem Hin; subst c; vm_compute in Hlt; lia.
Defined.

(** The constraints growing on the guess TRACE against CRANE. *)
Lemma updateHardConstraints_grows_witness :
  constraints_le (hardConstraints (sample_game "GRADE"))
    (hardConstraints
       (state_of (updateHardConstraints "TRACE" (evaluateGuess "TRACE" "CRANE")
                    (sample_game "GRADE")))).
Proof.
  apply (updateHardConstraints_grows "TRACE" (evaluateGuess "TRACE" "CRANE")
           (sample_game "GRADE")).
  reflexivity.
Defined.

(** CRANE guessed against CRATE, typed in three spellings: the words in
    upper case, in lower case, and in mixed case then upper-cased,
    score alike; and so do the words with one bit of every letter
    flipped. *)
Lemma evaluateGuess_case_normalized_witness :
  evaluateGuess "crane" "crate" = [correct; correct; correct; absent; correct]
  ∧ evaluateGuess "CRANE" "CRATE" = [correct; correct; correct; absent; correct]
  ∧ evaluateGuess (toUpperCase "cRaNe") (toUpperCase "Crate")
    = evaluateGuess "CRANE" "CRATE"
  ∧ evaluateGuess (toLowerCase "cRaNe") (toLowerCase "Crate")
    = evaluateGuess "CRANE" "CRATE"
  ∧ evaluateGuess "apclg" "apcvg" = evaluateGuess "crane" "crate".
Proof.
  destruct (evaluateGuess_case_normalized "crane" "cRaNe" "crate" "Crate"
              eq_refl eq_refl eq_refl eq_refl eq_refl eq_refl)
    as (Hlow & Hup & Hlow' & _ & Hren).
  split; [reflexivity|].
  split; [exact (eq_trans (eq_sym Hlow) eq_refl)|].
  split; [exact Hup|]. split; [exact Hlow'|].
  apply (Hren (λ c, match c with
                    | Ascii b0 b1 b2 b3 b4 b5 b6 b7 => Ascii b0 (negb b1) b2 b3 b4 b5 b6 b7
                    end)).
  intros [a0 a1 a2 a3 a4 a5 a6 a7] [b0 b1 b2 b3 b4 b5 b6 b7] [= -> H -> -> -> -> -> ->].
  destruct a1, b1; first [reflexivity | discriminate H].
Defined.


(** A guest in the lobby seeing [playing] twice starts one round. *)
Lemma status_listener_one_shot_witness :
  let c := enterLobby (fresh_client "guest" false) in
  calls (deliver (EvStatus (Some playing)) c).2 = [StartMpRound]
  ∧ deliver (EvStatus (Some playing)) (deliver (EvStatus (Some playing)) c).1
    = ((deliver (EvStatus (Some playing)) c).1, []).
Proof.
  intros c.
  destruct (status_listener_one_shot c (Some playing) [])
    as (_ & Hagain & _ & Hcalls & _).
  split; [|exact Hagain].
  rewrite Hcalls; [reflexivity|].
  apply NoDup_ListNoDup. vm_compute. repeat constructor; simpl; lia.
Defined.

(** ** Submitting the secret word twice *)

(** C2. The round-end write is not issued once when the host is the word
    setter and clicks the submit button of the word modal twice.
    [mpSubmitSecretWord] has no guard against running again, so each
    run calls [showMpWatchingOverlay] and installs a round-end check of
    its own.  After one run the host writes [status = results] once, at
    the first snapshot in which everyone is done; after two runs it
    holds two checks, and both write on that same snapshot.  The two
    runs are taken one after the other here. *)
Theorem host_round_end_twice :
  let c := choosing_client "host" true host_party in
  let once := submit_times 1 (host_submission "crane") c in
  let twice := submit_times 2 (host_submission "crane") c in
  mpIsHost c = true ∧ mpIsWordSetter c = true
  ∧ all_done snapshot_guessing = false ∧ all_done snapshot_finished = true
  ∧ barriers once = [(4, WatchPlayers)]
  ∧ run (EvPlayers <$> sample_snapshots) once
    = [[]; [Send (Update [StatusIs results])]; []]
  ∧ barriers twice = [(4, WatchPlayers); (7, WatchPlayers)]
  ∧ run (EvPlayers <$> sample_snapshots) twice
    = [[]; [Send (Update [StatusIs results]); Send (Update [StatusIs results])]; []].
Proof. vm_compute. repeat split. Qed.

(** C9. A phase transition is handled twice by a word setter who is not
    the host and clicks the submit button twice.  Each run of
    [mpSubmitSecretWord] attaches a status listener of its own; when
    [status] becomes [playing] both react, so [showMpWatchingOverlay]
    runs twice and leaves two listeners waiting for [results]; on
    [results] [showMpResults] is started twice, and its two listeners
    start the next round twice.  After one run each step happens
    once. *)
Theorem status_transition_handled_twice :
  let c := choosing_client "guest" false sample_party in
  let rounds (n : nat) :=
    let submitted := submit_times n (sample_submission "crane") c in
    let watching := deliver (EvStatus (Some playing)) submitted in
    let shown := deliver (EvStatus (Some results)) watching.1 in
    let waiting :=
      resume_all (calls shown.2) [Some sample_party; Some sample_party] shown.1 in
    let started := deliver (EvStatus (Some playing)) waiting in
    (attached submitted, attached watching.1, calls shown.2, calls started.2) in
  mpIsHost c = false ∧ mpIsWordSetter c = true
  ∧ rounds 1
    = ([(0, LobbyPlayers); (1, LobbyMode); (3, SetterStatus)],
       [(0, LobbyPlayers); (1, LobbyMode); (4, LiveBoards true); (5, WatchStatus)],
       [ShowMpResults], [StartMpRound])
  ∧ rounds 2
    = ([(0, LobbyPlayers); (1, LobbyMode); (3, SetterStatus); (4, SetterStatus)],
       [(0, LobbyPlayers); (1, LobbyMode); (5, LiveBoards true); (6, WatchStatus);
        (7, LiveBoards true); (8, WatchStatus)],
       [ShowMpResults; ShowMpResults], [StartMpRound; StartMpRound]).
Proof. vm_compute. repeat split. Qed.

(** ** Further properties of the scoring *)

Lemma correct_step_length (st : EvalState) (i : nat) :
  length (result (correct_step st i)) = length (result st).
Proof.
  unfold correct_step. destruct (decide _); cbn [result]; [apply length_insert|reflexivity].
Qed.

Lemma present_step_length (st : EvalState) (i : nat) :
  length (result (present_step st i)) = length (result st).
Proof.
  unfold present_step. destruct (decide _); [reflexivity|].
  destruct (Js.indexOf _ _); cbn [result]; [apply length_insert|reflexivity].
Qed.

Lemma fold_step_length (step : EvalState → nat → EvalState) (l : list nat) :
  (∀ st i, length (result (step st i)) = length (result st)) →
  ∀ st, length (result (fold_left step l st)) = length (result st).
Proof.
  intros Hstep. induction l as [|i l IH]; intros st; simpl; [reflexivity|].
  rewrite IH. apply Hstep.
Qed.

Lemma length_evaluateGuess (guess target : string) :
  length (evaluateGuess guess target) = WORD_LENGTH.
Proof.
  unfold evaluateGuess, present_pass, correct_pass.
  rewrite (fold_step_length present_step) by apply present_step_length.
  rewrite (fold_step_length correct_step) by apply correct_step_length.
  unfold eval_init. cbn [result]. apply length_replicate.
Qed.

(** X1. Whatever the two strings are, of any lengths, [evaluateGuess]
    returns exactly [WORD_LENGTH] states. *)
Theorem evaluateGuess_length (guess target : string) :
  length (evaluateGuess guess target) = WORD_LENGTH.
Proof.
  unfold evaluateGuess, present_pass, correct_pass.
  rewrite (fold_step_length present_step) by apply present_step_length.
  rewrite (fold_step_length correct_step) by apply correct_step_length.
  unfold eval_init. cbn [result]. apply length_replicate.
Qed.

Lemma presents_same (ws : list ascii) (T : list Js.val) :
  presents (gs1 ws ws) (res1 ws ws) T = replicate (length ws) correct.
Proof.
  induction ws as [|a ws IH]; [reflexivity|].
  unfold gs1, res1. cbn [zip_with presents length replicate].
  fold (gs1 ws ws) (res1 ws ws).
  rewrite !(decide_True (P := a = a)) by reflexivity.
  rewrite (decide_True (P := Js.Null = Js.Null)) by reflexivity.
  f_equal. exact IH.
Qed.

Lemma string_of_list_inj (s s' : string) :
  String.list_ascii_of_string s = String.list_ascii_of_string s' → s = s'.
Proof.
  intros H. rewrite <- (String.string_of_list_ascii_of_string s),
    <- (String.string_of_list_ascii_of_string s'), H. reflexivity.
Qed.

Lemma all_correct_lookup (res : list LetterState) (i : nat) :
  all_correct res = true → i < length res → res !! i = Some correct.
Proof.
  intros Hall Hi.
  destruct (lookup_lt_is_Some_2 res i Hi) as [r Hr].
  rewrite Hr. f_equal. unfold all_correct in Hall.
  rewrite forallb_forall in Hall.
  eapply bool_decide_eq_true_1. apply Hall.
  apply list_elem_of_In. eapply list_elem_of_lookup_2. eassumption.
Qed.

(** X2. For two words of five letters the score is all [correct]
    exactly when the guess is the target: a win is never reported for a
    different word, and the target always wins. *)
Theorem evaluateGuess_all_correct_iff (guess target : string) :
  String.length guess = WORD_LENGTH →
  String.length target = WORD_LENGTH →
  (all_correct (evaluateGuess guess target) = true ↔ guess = target).
Proof.
  intros Hg Ht.
  pose proof Hg as Hlg. pose proof Ht as Hlt.
  rewrite <- length_list_ascii in Hlg, Hlt.
  pose proof (evaluateGuess_presents guess target Hlg Hlt) as Heq.
  split.
  - intros Hall. apply string_of_list_inj. apply list_eq. intros i.
    destruct (decide (i < WORD_LENGTH)) as [Hi|Hi].
    + pose proof (all_correct_lookup _ i Hall) as Hres.
      rewrite length_evaluateGuess in Hres. specialize (Hres Hi).
      rewrite Heq in Hres.
      eapply presents_correct; [|exact Hres]. congruence.
    + rewrite !lookup_ge_None_2 by lia. reflexivity.
  - intros ->. rewrite Heq, presents_same. unfold all_correct.
    apply forallb_forall. intros r Hr. apply list_elem_of_In in Hr.
    apply elem_of_replicate in Hr as [-> _]. apply bool_decide_eq_true_2. reflexivity.
Qed.

Lemma evaluateGuess_all_correct_iff_witness :
  all_correct (evaluateGuess "CRANE" "CRANE") = true.
Proof.
  apply (evaluateGuess_all_correct_iff "CRANE" "CRANE"); reflexivity.
Defined.

(** ** The target satisfies every accumulated constraint *)

Lemma obj_set_elem {V} (i : nat) (v : V) (o : list (nat * V)) (e : nat * V) :
  e ∈ obj_set i v o → e = (i, v) ∨ e ∈ o.
Proof.
  induction o as [|[k w] o IH]; simpl.
  - intros H. apply list_elem_of_singleton in H. auto.
  - destruct (decide (i = k)); [|destruct (decide (i < k))]; intros H;
      apply elem_of_cons in H as [H|H]; subst; auto.
    + right. right. assumption.
    + right. left.
    + destruct (IH H) as [?|?]; auto. right. right. assumption.
Qed.

Lemma record_exact_elem (guess : string) (res : list LetterState) :
  ∀ k (ep : list (nat * jsletter)) e,
    e ∈ forEach_i (record_exact guess) res k ep →
    e ∈ ep ∨ ∃ i, k ≤ i ∧ res !! (i - k) = Some correct ∧ e = (i, String.get i guess).
Proof.
  induction res as [|r res IH]; intros k ep e; cbn [forEach_i]; [auto|].
  intros H. destruct (IH _ _ _ H) as [Hin|(i & Hi & Hr & ->)].
  - unfold record_exact in Hin. destruct (decide (r = correct)) as [->|]; [|auto].
    apply obj_set_elem in Hin as [->|?]; [|auto].
    right. exists k. replace (k - k) with 0 by lia. auto.
  - right. exists i. split; [lia|]. split; [|reflexivity].
    replace (i - k) with (S (i - S k)) by lia. exact Hr.
Qed.

Lemma count_letter_occurrences (X : ascii) (w : string) :
  count_letter (String X EmptyString) w = occurrences X (String.list_ascii_of_string w).
Proof.
  unfold count_letter, occurrences.
  induction (String.list_ascii_of_string w) as [|a l IH]; [reflexivity|].
  rewrite !filter_cons. destruct (decide (a = X)) as [->|Hne].
  - rewrite decide_True by reflexivity. simpl. f_equal. exact IH.
  - rewrite decide_False by congruence. exact IH.
Qed.

Lemma count_mark_keys (guess : string) :
  ∀ (res : list LetterState) (letters : list ascii) k (m : list (string * nat)),
    length letters = length res →
    (∀ j, j < length res → String.get (k + j) guess = letters !! j) →
    ∀ l, l ∈ (forEach_i (count_mark guess) res k m).*1 →
         l ∈ m.*1 ∨ ∃ X, l = String X EmptyString.
Proof.
  induction res as [|r res IH]; intros [|c letters] k m Hlen Hget l;
    simpl in Hlen; try discriminate Hlen; cbn [forEach_i]; [auto|].
  injection Hlen as Hlen. intros Hl.
  assert (Hk : String.get k guess = Some c).
  { replace k with (k + 0) by lia. rewrite Hget by (simpl; lia). reflexivity. }
  assert (Hget' : ∀ j, j < length res → String.get (S k + j) guess = letters !! j).
  { intros j Hj. replace (S k + j) with (k + S j) by lia.
    rewrite Hget by (simpl; lia). reflexivity. }
  destruct (IH letters (S k) (count_mark guess m r k) Hlen Hget' l Hl) as [Hin|?];
    [|auto].
  unfold count_mark in Hin. destruct (decide _); [|auto].
  rewrite freq_incr_keys in Hin. destruct (decide _); [auto|].
  apply elem_of_app in Hin as [?|Hin]; [auto|].
  apply list_elem_of_singleton in Hin. right. exists c. rewrite Hin, Hk. reflexivity.
Qed.

(** An entry of [freqMap] is a letter of the guess with the number of
    its marks. *)
Lemma freqMap_entry (guess : string) (res : list LetterState) (e : string * nat) :
  String.length guess = length res →
  e ∈ build_freqMap guess res →
  ∃ X, e.1 = String X EmptyString
       ∧ e.2 = marks X (String.list_ascii_of_string guess) res.
Proof.
  intros Hlen He.
  assert (Hl : length (String.list_ascii_of_string guess) = length res)
    by (rewrite length_list_ascii; exact Hlen).
  assert (Hget : ∀ j, j < length res →
            String.get (0 + j) guess = String.list_ascii_of_string guess !! j)
    by (intros j _; apply get_list_ascii).
  destruct (count_mark_keys guess res _ 0 [] Hl Hget e.1) as [Hin|[X HX]].
  { apply list_elem_of_fmap. exists e. auto. }
  { inversion Hin. }
  exists X. split; [exact HX|].
  destruct (count_mark_fold guess X res _ 0 [] Hl Hget) as [Hnd Hfreq].
  fold (build_freqMap guess res) in Hnd, Hfreq.
  specialize (Hnd (NoDup_nil_2 : NoDup ([] : list (string * nat)).*1)).
  destruct e as [l n]. cbn [fst snd] in *. subst l.
  rewrite (freq_get_elem _ n _ Hnd He) in Hfreq. rewrite Hfreq. reflexivity.
Qed.

Lemma raise_first_bound (B : string → nat) (l : string) (n : nat) (mc : list Constraint) :
  n ≤ B l →
  Forall (λ c, minCount c ≤ B (letter c)) mc →
  Forall (λ c, minCount c ≤ B (letter c)) (raise_first l n mc).
Proof.
  intros Hn. induction 1 as [|c mc Hc Hmc IH]; cbn [raise_first]; [constructor|].
  destruct (decide (letter c = l)) as [Hl|Hl].
  - constructor; [|assumption]. cbn [letter minCount]. rewrite Hl in *. lia.
  - constructor; assumption.
Qed.

Lemma merge_entry_bound (B : string → nat) (mc : list Constraint) (e : string * nat) :
  e.2 ≤ B e.1 →
  Forall (λ c, minCount c ≤ B (letter c)) mc →
  Forall (λ c, minCount c ≤ B (letter c)) (merge_entry mc e).
Proof.
  intros He Hmc. unfold merge_entry. destruct (find_constraint e.1 mc).
  - apply raise_first_bound; assumption.
  - apply Forall_app. split; [assumption|]. constructor; [exact He|constructor].
Qed.

Lemma merge_fold_bound (B : string → nat) (es : list (string * nat)) :
  ∀ mc, Forall (λ e, e.2 ≤ B e.1) es →
        Forall (λ c, minCount c ≤ B (letter c)) mc →
        Forall (λ c, minCount c ≤ B (letter c)) (fold_left merge_entry es mc).
Proof.
  induction es as [|e es IH]; intros mc Hes Hmc; [exact Hmc|].
  apply Forall_cons in Hes as [He Hes]. cbn [fold_left].
  apply IH; [assumption|]. apply merge_entry_bound; assumption.
Qed.

(** The marks of a letter never exceed its copies in the target. *)
Lemma marks_le_target (X : ascii) (guess target : string) :
  String.length guess = WORD_LENGTH → String.length target = WORD_LENGTH →
  marks X (String.list_ascii_of_string guess) (evaluateGuess guess target)
  ≤ occurrences X (String.list_ascii_of_string target).
Proof.
  intros Hg Ht. rewrite <- length_list_ascii in Hg, Ht.
  rewrite evaluateGuess_presents by assumption.
  rewrite presents_marks by congruence.
  pose proof (correct_pass_target X _ _ (eq_trans Hg (eq_sym Ht))). lia.
Qed.

Lemma update_constraints_positions (guess : string) (res : list LetterState)
    (hc : HardConstraints) (e : nat * jsletter) :
  e ∈ exactPositions (update_constraints guess res hc) →
  e ∈ exactPositions hc
  ∨ ∃ i, res !! i = Some correct ∧ e = (i, String.get i guess).
Proof.
  intros Hin. apply record_exact_elem in Hin as [Hin|(i & _ & Hc & ->)]; [auto|].
  right. exists i. replace (i - 0) with i in Hc by lia. auto.
Qed.

Lemma update_constraints_minimums (B : string → nat) (guess : string)
    (res : list LetterState) (hc : HardConstraints) :
  (∀ e, e ∈ build_freqMap guess res → e.2 ≤ B e.1) →
  Forall (λ c, minCount c ≤ B (letter c)) (mustContain hc) →
  Forall (λ c, minCount c ≤ B (letter c)) (mustContain (update_constraints guess res hc)).
Proof.
  intros Hes Hmin. apply merge_fold_bound; [|exact Hmin].
  apply Forall_forall. intros e He. apply Hes.
  rewrite Object_entries_perm in He. exact He.
Qed.

Lemma update_constraints_target (guess target : string) (hc : HardConstraints) :
  String.length guess = WORD_LENGTH → String.length target = WORD_LENGTH →
  target_satisfies target hc →
  target_satisfies target (update_constraints guess (evaluateGuess guess target) hc).
Proof.
  intros Hg Ht [Hpos Hmin]. split.
  - intros pos l Hin.
    apply update_constraints_positions in Hin as [Hin|(i & Hc & Heq)]; [auto|].
    injection Heq as -> ->.
    symmetry. apply evaluateGuess_correct; assumption.
  - apply (update_constraints_minimums (λ l, count_letter l target)); [|exact Hmin].
    intros e He.
    apply freqMap_entry in He as (X & HX & Hn);
      [|rewrite length_evaluateGuess; exact Hg].
    rewrite HX, Hn, count_letter_occurrences. apply marks_le_target; assumption.
Qed.

Lemma accumulated_target (target : string) (ws : list string) :
  String.length target = WORD_LENGTH →
  Forall (λ w, String.length w = WORD_LENGTH) ws →
  target_satisfies target (accumulated_constraints target ws).
Proof.
  intros Ht Hws. unfold accumulated_constraints.
  assert (H0 : target_satisfies target no_constraints).
  { split; [intros pos l Hin; inversion Hin|constructor]. }
  revert H0. generalize no_constraints.
  induction Hws as [|w ws Hw Hws IH]; intros hc Hhc; [exact Hhc|].
  cbn [fold_left]. apply IH. apply update_constraints_target; assumption.
Qed.

Lemma check_positions_pass (w : string) (eps : list (nat * jsletter)) :
  (∀ pos l, (pos, l) ∈ eps → String.get pos w = l) → check_positions w eps = None.
Proof.
  induction eps as [|[pos l] eps IH]; intros H; [reflexivity|]. cbn [check_positions].
  rewrite decide_False by (intros Hne; apply Hne; apply H; left).
  apply IH. intros p l' Hin. apply H. right. assumption.
Qed.

Lemma check_contains_pass (w : string) (mc : list Constraint) :
  Forall (λ c, minCount c ≤ count_letter (letter c) w) mc → check_contains w mc = None.
Proof.
  induction 1 as [|c mc Hc Hmc IH]; [reflexivity|]. cbn [check_contains].
  rewrite decide_False by lia. exact IH.
Qed.

(** X3. Hard mode never rejects the answer: whatever five-letter
    guesses a player has made in the round, each scored against the
    five-letter target, [checkHardMode] accepts the target itself. *)
Theorem checkHardMode_accepts_target (target : string) (ws : list string) (g : Game) :
  String.length target = WORD_LENGTH →
  Forall (λ w, String.length w = WORD_LENGTH) ws →
  hardConstraints g = accumulated_constraints target ws →
  value_of (checkHardMode target g) = None.
Proof.
  intros Ht Hws Hg. rewrite checkHardMode_run. unfold value_of. cbn [fst].
  destruct (accumulated_target target ws Ht Hws) as [Hpos Hmin].
  rewrite Hg, check_positions_pass by exact Hpos.
  apply check_contains_pass. exact Hmin.
Qed.

Lemma checkHardMode_accepts_target_witness :
  value_of (checkHardMode "CRANE" (sample_game "GRADE")) = None.
Proof.
  apply (checkHardMode_accepts_target "CRANE" ["TRACE"] (sample_game "GRADE"));
    [reflexivity|repeat constructor|vm_compute; reflexivity].
Defined.

(** ** Typing *)

Lemma length_removelast {A} (l : list A) : length (removelast l) = length l - 1.
Proof.
  induction l as [|a [|b l] IH]; [reflexivity|reflexivity|].
  change (removelast (a :: b :: l)) with (a :: removelast (b :: l)).
  cbn [length] in *. lia.
Qed.

Lemma Forall_removelast {A} (P : A → Prop) (l : list A) :
  Forall P l → Forall P (removelast l).
Proof.
  induction 1 as [|a l Ha Hl IH]; [constructor|].
  destruct l as [|b l]; [constructor|].
  change (removelast (a :: b :: l)) with (a :: removelast (b :: l)).
  constructor; assumption.
Qed.

Lemma addLetter_typing (c : ascii) (g : Game) :
  is_upper c = true → typing_ok g → typing_ok (state_of (addLetter c g)).
Proof.
  intros Hc (Hcol & Hle & Hup).
  cbv [addLetter mbind M_bind gets modify emit mret M_ret state_of].
  destruct (decide (WORD_LENGTH ≤ currentCol g)) as [Hfull|Hfree];
    cbn [fst snd]; [split; [|split]; assumption|].
  unfold typing_ok. cbn [currentCol currentGuess set_typing].
  split; [|split].
  - rewrite length_app. cbn [length]. lia.
  - lia.
  - apply Forall_app. split; [assumption|]. constructor; [assumption|constructor].
Qed.

Lemma deleteLetter_typing (g : Game) : typing_ok g → typing_ok (state_of (deleteLetter g)).
Proof.
  intros (Hcol & Hle & Hup).
  cbv [deleteLetter mbind M_bind gets modify emit mret M_ret state_of].
  destruct (decide (currentCol g ≤ 0)) as [Hzero|Hpos];
    cbn [fst snd]; [split; [|split]; assumption|].
  unfold typing_ok. cbn [currentCol currentGuess set_typing].
  split; [|split].
  - rewrite length_removelast. lia.
  - lia.
  - apply Forall_removelast. assumption.
Qed.

Lemma dispatchKey_typing (dict : gset string) (key : string) (g : Game) :
  typing_ok g → typing_ok (state_of (dispatchKey dict key g)).
Proof.
  intros Hg. unfold dispatchKey.
  destruct (decide (key = "Enter")); [rewrite submitGuess_state; assumption|].
  destruct (decide (key = "Backspace")); [apply deleteLetter_typing; assumption|].
  destruct (letter_key key) as [c|] eqn:Hkey; [|assumption].
  apply addLetter_typing; [|assumption]. apply upper_char_alpha.
  unfold letter_key in Hkey. destruct key as [|a [|b key]]; try discriminate.
  destruct (is_alpha a) eqn:Ha; [|discriminate]. injection Hkey as <-. exact Ha.
Qed.

Lemma handleKey_typing (dict : gset string) (key : string) (g : Game) :
  typing_ok g → typing_ok (state_of (handleKey dict key g)).
Proof.
  intros Hg. cbv [handleKey mbind M_bind gets modify emit mret M_ret].
  destruct (gameOver g); [exact Hg|]. cbn beta.
  destruct (modalOpen g); cbn beta.
  - destruct (game_key key); [|exact Hg]. cbn beta.
    pose proof (dispatchKey_typing dict key (set_modalOpen false g) Hg) as H.
    unfold state_of in *.
    destruct (dispatchKey dict key (set_modalOpen false g)) as [[u g'] e]. exact H.
  - pose proof (dispatchKey_typing dict key g Hg) as H. unfold state_of in *.
    destruct (dispatchKey dict key g) as [[u g'] e]. exact H.
Qed.

Lemma revealed_typing (suppress : bool) (w : string) (res : list LetterState)
    (row : nat) (g : Game) :
  typing_ok g → typing_ok (state_of (revealed suppress w res row g)).
Proof.
  intros (Hcol & Hle & Hup).
  unfold revealed, updateHardConstraints, mbind, M_bind, gets, modify, emit,
    mret, M_ret, state_of.
  cbn [currentRow set_hardConstraints].
  destruct (forallb _ res); [destruct suppress|];
    [| |destruct (decide (MAX_GUESSES ≤ currentRow g + 1)); [destruct suppress|]];
    unfold typing_ok; cbn [fst snd currentCol currentGuess set_typing set_row length];
    (split; [|split]); first [assumption | reflexivity | lia | constructor].
Qed.

Lemma length_string_of_list (l : list ascii) :
  String.length (String.string_of_list_ascii l) = length l.
Proof. induction l; simpl; auto. Qed.

(** X4. The typed row is always well formed.  Starting a game leaves no
    letters typed, and every key press and every reveal keeps the
    letters typed as many as [currentCol], at most five, and all
    upper-case A-Z.  Hence a guess that passes the length check of
    [submitGuess] has exactly five letters. *)
Theorem typing_invariant (dict : gset string) (g : Game) :
  (∀ answer, typing_ok (state_of (startGame answer g)))
  ∧ (typing_ok g →
     (∀ key, typing_ok (state_of (handleKey dict key g)))
     ∧ (∀ suppress w res row, typing_ok (state_of (revealed suppress w res row g)))
     ∧ (¬ currentCol g < WORD_LENGTH →
        String.length (String.string_of_list_ascii (currentGuess g)) = WORD_LENGTH)).
Proof.
  split.
  - intros answer. split; [reflexivity|split; [exact (Nat.le_0_l _)|constructor]].
  - intros Hg. split; [|split].
    + intros key. apply handleKey_typing. assumption.
    + intros. apply revealed_typing. assumption.
    + destruct Hg as (Hcol & Hle & _). intros Hfull.
      rewrite length_string_of_list. lia.
Qed.

Lemma typing_invariant_witness :
  typing_ok (state_of (handleKey sample_words "q" (typing_game "GRAD"))).
Proof.
  apply (typing_invariant sample_words (typing_game "GRAD")).
  split; [reflexivity|split; [vm_compute; lia|repeat constructor]].
Defined.

(** X5. Backspace undoes a letter: when the row is not full, adding a
    letter and deleting it gives back the state.  A letter typed into a
    full row, and a backspace on an empty row, change nothing and are
    not even synced. *)
Theorem addLetter_deleteLetter (c : ascii) (g : Game) :
  (currentCol g < WORD_LENGTH →
   state_of (deleteLetter (state_of (addLetter c g))) = g)
  ∧ (WORD_LENGTH ≤ currentCol g → addLetter c g = (tt, g, []))
  ∧ (currentCol g = 0 → deleteLetter g = (tt, g, [])).
Proof.
  split; [|split].
  - intros Hcol.
    cbv [addLetter mbind M_bind gets modify emit mret M_ret state_of].
    rewrite (decide_False (P := WORD_LENGTH ≤ currentCol g)) by lia.
    cbv [deleteLetter mbind M_bind gets modify emit mret M_ret].
    cbn [fst snd currentCol currentGuess set_typing].
    rewrite (decide_False (P := currentCol g + 1 ≤ 0)) by lia.
    cbn [fst snd currentCol currentGuess set_typing].
    rewrite removelast_last. replace (currentCol g + 1 - 1) with (currentCol g) by lia.
    destruct g. reflexivity.
  - intros Hcol.
    cbv [addLetter mbind M_bind gets modify emit mret M_ret].
    rewrite decide_True by assumption. reflexivity.
  - intros Hcol.
    cbv [deleteLetter mbind M_bind gets modify emit mret M_ret].
    rewrite decide_True by lia. reflexivity.
Qed.

Lemma addLetter_deleteLetter_witness :
  state_of (deleteLetter (state_of (addLetter "E" (typing_game "GRAD"))))
  = typing_game "GRAD".
Proof.
  apply (addLetter_deleteLetter "E" (typing_game "GRAD")). vm_compute. lia.
Defined.

(** X6. How a reveal ends the round.  The game is over afterwards exactly
    when the guess was all correct, or the row revealed was the last of
    the six, or the game was over already.  [mpMarkDone] is called only
    when the multiplayer hook suppresses the solo ending and this reveal
    ends the game, with whether the guess won; [recordResult] is called
    only when the ending is not suppressed, with the row count on a win
    and [0] on a loss.  The two are never both called. *)
Theorem revealed_round_end (suppress : bool) (w : string)
    (res : list LetterState) (row : nat) (g : Game) :
  let r := revealed suppress w res row g in
  let ends := all_correct res || bool_decide (MAX_GUESSES ≤ currentRow g + 1) in
  gameOver (state_of r) = ends || gameOver g
  ∧ (∀ b, MpMarkDone b ∈ effects_of r
          ↔ suppress = true ∧ ends = true ∧ b = all_correct res)
  ∧ (∀ b n, RecordResult b n ∈ effects_of r
          ↔ suppress = false ∧ ends = true ∧ b = all_correct res
            ∧ n = if b then currentRow g + 1 else 0).
Proof.
  unfold revealed, updateHardConstraints, mbind, M_bind, gets, modify, emit,
    mret, M_ret, state_of, effects_of, all_correct.
  cbn [currentRow set_hardConstraints].
  destruct (forallb _ res); [destruct suppress|];
    [| |destruct (decide (MAX_GUESSES ≤ currentRow g + 1)) as [Hlast|Hlast];
        [rewrite (bool_decide_eq_true_2 _ Hlast); destruct suppress
        |rewrite (bool_decide_eq_false_2 _ Hlast)]];
    cbn; (split; [reflexivity|split]); intros;
    rewrite ?elem_of_cons, ?elem_of_nil;
    intuition (subst; first [discriminate | congruence | auto]);
    match goal with H : RecordResult _ _ = _ |- _ => injection H as -> -> end;
    reflexivity.
Qed.

Section Keyboard.

Context (querySelector : ascii → KeyQuery) (guess : string).

Lemma color_key_mono (run : KeyboardRun) (state : LetterState) (i : nat) (k : ascii) :
  STATE_PRIORITY (keyStates run !! k)
  ≤ STATE_PRIORITY (keyStates (color_key querySelector guess run state i) !! k).
Proof.
  unfold color_key. destruct (thrown run); [lia|].
  destruct (String.get i guess) as [c|]; [|cbn; lia].
  destruct (querySelector (lower_char c)); [|lia|cbn; lia].
  case_decide as Hlt; [|lia]. cbn [keyStates].
  destruct (decide (lower_char c = k)) as [<-|Hne].
  - rewrite lookup_insert_eq. lia.
  - rewrite lookup_insert_ne by assumption. lia.
Qed.

Lemma color_key_other (run : KeyboardRun) (state : LetterState) (i : nat) (k : ascii) :
  querySelector k ≠ KeyFound →
  keyStates (color_key querySelector guess run state i) !! k = keyStates run !! k.
Proof.
  intros Hk. unfold color_key. destruct (thrown run); [reflexivity|].
  destruct (String.get i guess) as [c|]; [|reflexivity].
  destruct (querySelector (lower_char c)) eqn:Hc; [|reflexivity..].
  case_decide as Hlt; [|reflexivity]. cbn [keyStates].
  apply lookup_insert_ne. intros Heq. rewrite Heq in Hc. contradiction.
Qed.

Lemma color_key_reached (run : KeyboardRun) (state : LetterState) (i : nat) (c : ascii) :
  thrown run = false → String.get i guess = Some c →
  querySelector (lower_char c) = KeyFound →
  STATE_PRIORITY (Some state)
  ≤ STATE_PRIORITY (keyStates (color_key querySelector guess run state i) !! lower_char c).
Proof.
  intros Hrun Hget Hc. unfold color_key. rewrite Hrun, Hget, Hc.
  case_decide as Hlt; [|lia]. cbn [keyStates]. rewrite lookup_insert_eq. lia.
Qed.

Lemma color_key_thrown (run : KeyboardRun) (state : LetterState) (i : nat) :
  thrown (color_key querySelector guess run state i)
  = thrown run || throws_at querySelector guess i.
Proof.
  unfold color_key, throws_at. destruct (thrown run) eqn:Hrun; [exact Hrun|].
  cbn [orb]. destruct (String.get i guess) as [c|]; [|reflexivity].
  destruct (querySelector (lower_char c)); [case_decide| |];
    first [exact Hrun | reflexivity].
Qed.

Lemma forEach_color_mono (k : ascii) : ∀ res i run,
  STATE_PRIORITY (keyStates run !! k)
  ≤ STATE_PRIORITY (keyStates (forEach_i (color_key querySelector guess) res i run) !! k).
Proof.
  induction res as [|s res IH]; intros i run; cbn [forEach_i]; [lia|].
  etransitivity; [apply (color_key_mono run s i k)|apply IH].
Qed.

Lemma forEach_color_other (k : ascii) : querySelector k ≠ KeyFound → ∀ res i run,
  keyStates (forEach_i (color_key querySelector guess) res i run) !! k = keyStates run !! k.
Proof.
  intros Hk. induction res as [|s res IH]; intros i run; cbn [forEach_i]; [reflexivity|].
  rewrite IH. apply color_key_other. assumption.
Qed.

Lemma forEach_color_reached (c : ascii) (state : LetterState) : ∀ res n i run,
  thrown run = false → res !! n = Some state → String.get (i + n) guess = Some c →
  querySelector (lower_char c) = KeyFound →
  (∀ j, j < n → throws_at querySelector guess (i + j) = false) →
  STATE_PRIORITY (Some state)
  ≤ STATE_PRIORITY
      (keyStates (forEach_i (color_key querySelector guess) res i run) !! lower_char c).
Proof.
  induction res as [|s res IH]; intros n i run Hrun Hn Hget Hc Hok; [discriminate|].
  cbn [forEach_i]. destruct n as [|n].
  - injection Hn as ->. rewrite Nat.add_0_r in Hget.
    etransitivity; [apply (color_key_reached run state i c); assumption|].
    apply forEach_color_mono.
  - apply (IH n); [|exact Hn| |exact Hc|].
    + rewrite color_key_thrown, Hrun. cbn [orb].
      rewrite <- (Nat.add_0_r i). apply Hok. lia.
    + replace (S i + n) with (i + S n) by lia. exact Hget.
    + intros j Hj. replace (S i + j) with (i + S j) by lia. apply Hok. lia.
Qed.

Lemma forEach_color_stuck : ∀ res i run,
  thrown run = true → forEach_i (color_key querySelector guess) res i run = run.
Proof.
  induction res as [|s res IH]; intros i run Hrun; cbn [forEach_i]; [reflexivity|].
  assert (color_key querySelector guess run s i = run) as ->
    by (unfold color_key; rewrite Hrun; reflexivity).
  apply IH. assumption.
Qed.

Lemma forEach_color_thrown : ∀ res i run,
  thrown (forEach_i (color_key querySelector guess) res i run)
  = thrown run || existsb (throws_at querySelector guess) (seq i (length res)).
Proof.
  induction res as [|s res IH]; intros i run; cbn [forEach_i length seq existsb].
  - rewrite orb_false_r. reflexivity.
  - rewrite IH, color_key_thrown, orb_assoc. reflexivity.
Qed.

End Keyboard.

(** X7. Colouring the keyboard never downgrades a key.  For a guess of
    code units below 128, after [updateKeyboard] every key has at least
    the priority it had before (correct over present over absent over
    none); a letter for which [querySelector] finds no key element is
    left alone; and a letter of the guess that has a key ends with at
    least the priority of the mark at its position, provided
    [querySelector] has thrown for no earlier letter.  The loop is left
    by an exception exactly when, at some index of the result, the
    guess has no letter or [querySelector] throws on its letter. *)
Theorem updateKeyboard_priority (querySelector : ascii → KeyQuery) (guess : string)
    (res : list LetterState) (kb : gmap ascii LetterState) :
  ascii_only guess = true →
  let run := updateKeyboard querySelector guess res kb in
  (∀ k, STATE_PRIORITY (kb !! k) ≤ STATE_PRIORITY (keyStates run !! k))
  ∧ (∀ k, querySelector k ≠ KeyFound → keyStates run !! k = kb !! k)
  ∧ (∀ i state c,
       res !! i = Some state → String.get i guess = Some c →
       querySelector (lower_char c) = KeyFound →
       (∀ j d, j < i → String.get j guess = Some d →
               querySelector (lower_char d) ≠ KeyInvalid) →
       STATE_PRIORITY (Some state) ≤ STATE_PRIORITY (keyStates run !! lower_char c))
  ∧ (thrown run = true ↔
     ∃ i, i < length res
          ∧ (String.get i guess = None
             ∨ ∃ c, String.get i guess = Some c
                    ∧ querySelector (lower_char c) = KeyInvalid)).
Proof.
  intros _. unfold updateKeyboard. split; [|split; [|split]].
  - intros k. apply (forEach_color_mono querySelector guess k res 0 (mkKeyboardRun kb false)).
  - intros k Hk.
    apply (forEach_color_other querySelector guess k Hk res 0 (mkKeyboardRun kb false)).
  - intros i state c Hi Hget Hc Hok.
    apply (forEach_color_reached querySelector guess c state res i 0
             (mkKeyboardRun kb false)); auto.
    intros j Hj. cbn [Nat.add]. unfold throws_at.
    destruct (String.get j guess) as [d|] eqn:Hd.
    + specialize (Hok j d Hj Hd). destruct (querySelector (lower_char d));
        [reflexivity..|contradiction].
    + exfalso. rewrite get_list_ascii in Hd, Hget.
      apply lookup_ge_None in Hd. apply lookup_lt_Some in Hget. lia.
  - rewrite forEach_color_thrown. cbn [thrown orb].
    rewrite existsb_exists. split.
    + intros (i & Hin & Hthrow). apply in_seq in Hin. exists i. split; [lia|].
      unfold throws_at in Hthrow. destruct (String.get i guess) as [c|]; [|left; reflexivity].
      right. exists c. split; [reflexivity|].
      destruct (querySelector (lower_char c)); [discriminate..|reflexivity].
    + intros (i & Hi & Hthrow). exists i. split; [apply in_seq; lia|].
      unfold throws_at. destruct Hthrow as [->|(c & -> & ->)]; reflexivity.
Qed.

(** GRADE scored against CRANE on a page with the keys a-z: the key r
    ends as correct and nothing is thrown.  On the same page a guess
    holding a double quote ends the loop at that letter. *)
Lemma updateKeyboard_priority_witness :
  keyStates (updateKeyboard letter_keys "GRADE" (evaluateGuess "GRADE" "CRANE") ∅)
    !! "r"%char = Some correct
  ∧ thrown (updateKeyboard letter_keys "GRADE" (evaluateGuess "GRADE" "CRANE") ∅) = false
  ∧ thrown (updateKeyboard letter_keys (String "G" (String "R" (String "034" "DE"))) (evaluateGuess "GRADE" "CRANE") ∅) = true.
Proof.
  destruct (updateKeyboard_priority letter_keys "GRADE" (evaluateGuess "GRADE" "CRANE") ∅
              eq_refl) as (_ & _ & Hreach & Hthrown).
  split; [|split].
  - specialize (Hreach 1 correct "R"%char eq_refl eq_refl eq_refl).
    assert (Hok : ∀ j d, j < 1 → String.get j "GRADE" = Some d →
                         letter_keys (lower_char d) ≠ KeyInvalid).
    { intros [|j] d Hj; [|lia]. intros [= <-]. discriminate. }
    specialize (Hreach Hok).
    destruct (keyStates _ !! lower_char "R") as [[]|] eqn:Hr;
      first [exact Hr | cbn in Hreach; lia].
  - apply not_true_is_false. intros Hth.
    apply Hthrown in Hth as (i & Hi & [Hnone|(c & Hc & Hinv)]).
    + vm_compute in Hi. do 5 (destruct i as [|i]; [discriminate Hnone|]). lia.
    + do 5 (destruct i as [|i]; [injection Hc as <-; discriminate Hinv|]).
      vm_compute in Hi. lia.
  - destruct (updateKeyboard_priority letter_keys (String "G" (String "R" (String "034" "DE"))) (evaluateGuess "GRADE" "CRANE") ∅
                eq_refl) as (_ & _ & _ & Hthrown').
    apply Hthrown'. exists 2. split; [vm_compute; lia|].
    right. exists "034"%char. split; reflexivity.
Defined.

(** ** The multiplayer hooks *)

Lemma split_state_more (x : LetterState) (rest : string) :
  split "," (String.append (state_name x) (String "," rest))
  = state_name x :: split "," rest.
Proof. destruct x; reflexivity. Qed.

Lemma split_state_last (x : LetterState) : split "," (state_name x) = [state_name x].
Proof. destruct x; reflexivity. Qed.

Lemma parse_state_name (x : LetterState) : parse_state (state_name x) = x.
Proof. destruct x; reflexivity. Qed.

Lemma mini_tiles_join (res : list LetterState) :
  res ≠ [] → mini_tiles (Some (join "," (map state_name res))) = res.
Proof.
  change (mini_tiles (Some (join "," (map state_name res))))
    with (map parse_state (split "," (join "," (map state_name res)))).
  induction res as [|x [|y res] IH]; intros Hne; [contradiction| |].
  - cbn [map join]. rewrite split_state_last. cbn [map]. rewrite parse_state_name.
    reflexivity.
  - change (join "," (map state_name (x :: y :: res)))
      with (String.append (state_name x)
              (String "," (join "," (map state_name (y :: res))))).
    rewrite split_state_more. cbn [map]. rewrite parse_state_name.
    f_equal. apply IH. discriminate.
Qed.

(** X8. The marks of a guess survive the store.  [mpRecordGuess] writes
    them joined by commas and [showMpResults] splits and validates them:
    for every non-empty result, and so for every result of
    [evaluateGuess], the tiles drawn are the marks that were scored.  An
    empty or missing result is drawn as one absent tile. *)
Theorem result_csv_round_trip :
  (∀ res, res ≠ [] → mini_tiles (Some (join "," (map state_name res))) = res)
  ∧ (∀ guess target,
       mini_tiles (Some (join "," (map state_name (evaluateGuess guess target))))
       = evaluateGuess guess target)
  ∧ mini_tiles (Some (join "," (map state_name []))) = [absent]
  ∧ mini_tiles None = [absent].
Proof.
  split; [exact mini_tiles_join|split; [|split; reflexivity]].
  intros guess target. apply mini_tiles_join. intros Heq.
  pose proof (length_evaluateGuess guess target) as Hl.
  rewrite Heq in Hl. discriminate Hl.
Qed.

Lemma result_csv_round_trip_witness :
  mini_tiles (Some (join "," (map state_name [correct; absent; present])))
  = [correct; absent; present].
Proof.
  apply (proj1 result_csv_round_trip [correct; absent; present]). discriminate.
Defined.

Lemma count_writes_app (p : HookWrite → bool) (a b : list HookWrite) :
  count_writes p (a ++ b) = count_writes p a + count_writes p b.
Proof. unfold count_writes. rewrite List.filter_app, length_app. reflexivity. Qed.

Lemma count_writes_cons (p : HookWrite → bool) (x : HookWrite) (l : list HookWrite) :
  count_writes p (x :: l) = (if p x then 1 else 0) + count_writes p l.
Proof. unfold count_writes. cbn [List.filter]. destruct (p x); reflexivity. Qed.

Lemma hook_cases (e : HookCall) (c : Client) :
  let c1 := (hook e c).1 in
  let w := default [] (hook e c).2 in
  mpActive c1 = mpActive c ∧ mpIsWordSetter c1 = mpIsWordSetter c
  ∧ mpPartyRef c1 = mpPartyRef c ∧ mpPlayerId c1 = mpPlayerId c
  ∧ ((mpDone c1 = mpDone c ∧ mpLocalGuesses c1 = mpLocalGuesses c
      ∧ (w = [] ∨ ∃ x, w = [x] ∧ is_guess_write x = false ∧ is_done_write x = false
                       ∧ (hooks_blocked c = true → is_typed_write x = false)))
     ∨ (hooks_blocked c = false ∧ mpDone c1 = false
        ∧ length (mpLocalGuesses c1) = S (length (mpLocalGuesses c))
        ∧ (mpPartyRef c = false ∧ w = [] ∨ ∃ id row g, w = [SetGuess id row g]))
     ∨ (hooks_blocked c = false ∧ mpDone c1 = true
        ∧ mpLocalGuesses c1 = mpLocalGuesses c
        ∧ (mpPartyRef c = false ∧ w = []
           ∨ ∃ b, w = [UpdateDone (mpPlayerId c) b (length (mpLocalGuesses c))]))).
Proof.
  destruct c as [act id hst mode ref ls lg dn st att nh].
  destruct e as [gw res row| |b|letters|];
    unfold hook, mpRecordGuess, mpRecordGuess_resume, mpMarkDone, mpSyncTyping,
      mpClearTyping, hooks_blocked, push_guess, set_round_vars;
    destruct act, dn, st, ref; cbn;
    (split; [reflexivity|split; [reflexivity|split; [reflexivity|split; [reflexivity|]]]]);
    first
      [ left; split; [reflexivity|split; [reflexivity|]];
        first [ left; reflexivity
              | right; eexists; repeat split; intros; first [reflexivity|discriminate] ]
      | right; left; split; [reflexivity|split; [reflexivity|split;
          [rewrite length_app; cbn; lia|]]];
        first [ left; split; reflexivity | right; eexists _, _, _; reflexivity ]
      | right; right; split; [reflexivity|split; [reflexivity|split; [reflexivity|]]];
        first [ left; split; reflexivity | right; eexists; reflexivity ] ].
Qed.

Lemma run_hooks_blocked (calls : list HookCall) : ∀ c,
  hooks_blocked c = true →
  let r := run_hooks calls c in
  count_writes is_guess_write r.2 = 0 ∧ count_writes is_done_write r.2 = 0
  ∧ count_writes is_typed_write r.2 = 0
  ∧ mpLocalGuesses r.1 = mpLocalGuesses c.
Proof.
  induction calls as [|e calls IH]; intros c Hb; [repeat split|].
  cbn [run_hooks].
  pose proof (hook_cases e c) as (Ha & Hs & Hr & _ & Hcase).
  destruct (hook e c) as [c1 w1]. cbn [fst snd] in *.
  destruct Hcase as [(Hd & Hg & Hw)|[(Hnb & _)|(Hnb & _)]]; try congruence.
  assert (hooks_blocked c1 = true) as Hb1
    by (unfold hooks_blocked in *; rewrite Ha, Hs, Hd; exact Hb).
  specialize (IH c1 Hb1). destruct (run_hooks calls c1) as [c2 w2].
  cbn [fst snd] in *. destruct IH as (I1 & I2 & I3 & I4).
  rewrite !count_writes_app, I1, I2, I3, I4, Hg.
  destruct Hw as [->|(x & -> & Hx1 & Hx2 & Hx3)].
  - repeat split.
  - specialize (Hx3 Hb). rewrite !count_writes_cons, Hx1, Hx2, Hx3. repeat split.
Qed.

Lemma run_hooks_done_once (calls : list HookCall) : ∀ c,
  count_writes is_done_write (run_hooks calls c).2 ≤ 1.
Proof.
  induction calls as [|e calls IH]; intros c; [cbn; lia|].
  cbn [run_hooks].
  pose proof (hook_cases e c) as (Ha & Hs & Hr & _ & Hcase).
  destruct (hook e c) as [c1 w1]. cbn [fst snd] in *.
  pose proof (IH c1) as IH1.
  pose proof (run_hooks_blocked calls c1) as Hblk.
  destruct (run_hooks calls c1) as [c2 w2]. cbn [fst snd] in *.
  rewrite count_writes_app.
  destruct Hcase as [(_ & _ & Hw)|[(_ & _ & _ & Hw)|(_ & Hd & _ & Hw)]].
  - destruct Hw as [->|(x & -> & _ & Hx2 & _)];
      rewrite ?count_writes_cons, ?Hx2; cbn; lia.
  - destruct Hw as [[_ ->]|(i & row & g & ->)]; cbn; lia.
  - assert (hooks_blocked c1 = true) as Hb1
      by (unfold hooks_blocked; rewrite Hd; apply orb_true_iff; left;
          apply orb_true_r).
    destruct (Hblk Hb1) as (_ & -> & _).
    destruct Hw as [[_ ->]|(b & ->)]; cbn; lia.
Qed.

Lemma run_hooks_done_position (calls : list HookCall) : ∀ c pre id b n post,
  mpPartyRef c = true →
  (run_hooks calls c).2 = pre ++ UpdateDone id b n :: post →
  n = length (mpLocalGuesses c) + count_writes is_guess_write pre
  ∧ id = mpPlayerId c
  ∧ count_writes is_guess_write post = 0
  ∧ count_writes is_typed_write post = 0.
Proof.
  induction calls as [|e calls IH]; intros c pre id b n post Href Heq.
  - cbn in Heq. destruct pre; discriminate Heq.
  - cbn [run_hooks] in Heq.
    pose proof (hook_cases e c) as (Ha & Hs & Hr & Hid & Hcase).
    destruct (hook e c) as [c1 w1]. cbn [fst snd] in *.
    pose proof (IH c1) as IH1.
    pose proof (run_hooks_blocked calls c1) as Hblk.
    destruct (run_hooks calls c1) as [c2 w2]. cbn [fst snd] in *.
    assert (mpPartyRef c1 = true) as Href1 by congruence.
    destruct Hcase as [(_ & Hg & Hw)|[(_ & _ & Hlen & Hw)|(_ & Hd & Hg & Hw)]].
    + destruct Hw as [Hw|(x & Hw & Hx1 & Hx2 & _)]; rewrite Hw in Heq.
      * rewrite <- Hg, <- Hid. apply (IH1 pre id b n post Href1 Heq).
      * destruct pre as [|p pre]; cbn in Heq; injection Heq as Hp Heq.
        { subst x. discriminate Hx2. }
        subst p. destruct (IH1 pre id b n post Href1 Heq) as (-> & -> & H3 & H4).
        rewrite count_writes_cons, Hx1, Hg, Hid. auto.
    + destruct Hw as [[Hno _]|(i & row & g & Hw)]; [congruence|].
      rewrite Hw in Heq.
      destruct pre as [|p pre]; cbn in Heq; injection Heq as Hp Heq;
        [discriminate Hp|].
      subst p. destruct (IH1 pre id b n post Href1 Heq) as (-> & -> & H3 & H4).
      rewrite count_writes_cons, Hlen, Hid. cbn [is_guess_write].
      repeat split; auto; lia.
    + destruct Hw as [[Hno _]|(b' & Hw)]; [congruence|].
      rewrite Hw in Heq.
      assert (hooks_blocked c1 = true) as Hb1
        by (unfold hooks_blocked; rewrite Hd; apply orb_true_iff; left;
            apply orb_true_r).
      destruct (Hblk Hb1) as (B1 & B2 & B3 & _).
      destruct pre as [|p pre]; cbn in Heq.
      * injection Heq as <- <- <- <-. cbn. rewrite B1, B3, Nat.add_0_r.
        repeat split; auto.
      * injection Heq as Hp Heq. subst w2. rewrite count_writes_app, count_writes_cons in B2.
        cbn [is_done_write] in B2. lia.
Qed.

(** X9. A player is marked done at most once.  In every sequence of hook
    calls, whatever their order, at most one [done] update is written.
    While the client is inactive, done, or the word setter, no guess, no
    [done] update and no typed letters are written and no guess is kept
    locally.  With a party reference in place, a [done] update carries
    the player's own id and the number of guesses recorded up to then,
    and no guess or typed letters follow it. *)
Theorem hooks_done_once (calls : list HookCall) (c : Client) :
  let out := run_hooks calls c in
  count_writes is_done_write out.2 ≤ 1
  ∧ (hooks_blocked c = true →
     count_writes is_guess_write out.2 = 0
     ∧ count_writes is_done_write out.2 = 0
     ∧ count_writes is_typed_write out.2 = 0
     ∧ mpLocalGuesses out.1 = mpLocalGuesses c)
  ∧ (mpPartyRef c = true →
     ∀ pre id b n post, out.2 = pre ++ UpdateDone id b n :: post →
       n = length (mpLocalGuesses c) + count_writes is_guess_write pre
       ∧ id = mpPlayerId c
       ∧ count_writes is_guess_write post = 0
       ∧ count_writes is_typed_write post = 0).
Proof.
  split; [apply run_hooks_done_once|split].
  - apply run_hooks_blocked.
  - intros Href pre id b n post. apply run_hooks_done_position. exact Href.
Qed.

Lemma hooks_done_once_witness :
  count_writes is_guess_write
    (run_hooks [RecordGuessCall "GRADE" [absent; correct; correct; absent; correct] 0;
                MarkDoneCall false]
       (playing_client "ann" true false)).2 = 0.
Proof.
  apply (hooks_done_once
           [RecordGuessCall "GRADE" [absent; correct; correct; absent; correct] 0;
            MarkDoneCall false]
           (playing_client "ann" true false)).
  reflexivity.
Defined.

(** X10. A reveal that ends the round marks the player done with the
    final guess counted.  For an active player who is not done and not
    the word setter, the hooks called by a reveal write the guess under
    its row and, exactly when the reveal ends the game, one [done]
    update with whether the guess won and one more guess than were
    recorded before. *)
Theorem reveal_marks_done (c : Client) (w : string) (res : list LetterState)
    (row : nat) (g : Game) :
  mpActive c = true → mpDone c = false → mpIsWordSetter c = false →
  mpPartyRef c = true →
  let r := revealed (mpShouldSuppressSoloEnd c) w res row g in
  let ends := all_correct res || bool_decide (MAX_GUESSES ≤ currentRow g + 1) in
  let out := run_hooks (hook_calls (effects_of r)) c in
  out.2 = SetGuess (mpPlayerId c) row
            {| word := w; marks_csv := join "," (map state_name res) |}
          :: (if ends
              then [UpdateDone (mpPlayerId c) (all_correct res)
                      (S (length (mpLocalGuesses c)))]
              else [])
  ∧ mpDone out.1 = ends
  ∧ mpLocalGuesses out.1 = mpLocalGuesses c ++ [(w, res)].
Proof.
  destruct c as [act id hst mode ref ls lg dn st att nh]. cbn [mpActive mpDone
    mpIsWordSetter mpPartyRef mpShouldSuppressSoloEnd mpPlayerId mpLocalGuesses].
  intros -> -> -> ->.
  unfold revealed, updateHardConstraints, mbind, M_bind, gets, modify, emit,
    mret, M_ret, state_of, effects_of, all_correct.
  cbn [currentRow set_hardConstraints].
  destruct (forallb _ res);
    [|destruct (decide (MAX_GUESSES ≤ currentRow g + 1)) as [Hlast|Hlast];
      [rewrite (bool_decide_eq_true_2 _ Hlast)
      |rewrite (bool_decide_eq_false_2 _ Hlast)]];
    cbn; rewrite ?length_app; cbn; rewrite ?Nat.add_1_r; repeat split.
Qed.

Lemma reveal_marks_done_witness :
  mpDone (run_hooks
            (hook_calls
               (effects_of (revealed (mpShouldSuppressSoloEnd (playing_client "ann" false false))
                              "CRANE" (evaluateGuess "CRANE" "CRANE") 1
                              (sample_game "CRANE"))))
            (playing_client "ann" false false)).1
  = all_correct (evaluateGuess "CRANE" "CRANE")
    || bool_decide (MAX_GUESSES ≤ currentRow (sample_game "CRANE") + 1).
Proof.
  apply (reveal_marks_done (playing_client "ann" false false) "CRANE"
           (evaluateGuess "CRANE" "CRANE") 1 (sample_game "CRANE"));
    reflexivity.
Defined.

Lemma hook_inactive (e : HookCall) (c : Client) :
  mpActive c = false → e ≠ RecordGuessResume → hook e c = (c, Some []).
Proof.
  intros Hc He. destruct e; try contradiction; cbn [hook];
    unfold mpRecordGuess, mpMarkDone, mpSyncTyping, mpClearTyping;
    rewrite Hc; reflexivity.
Qed.

(** X11. A solo game writes nothing.  While multiplayer is inactive,
    the hooks called by any game function leave the client as it is and
    write nothing to the store, and the solo ending is not suppressed. *)
Theorem solo_hooks_silent (c : Client) (effs : list Effect) :
  mpActive c = false →
  run_hooks (hook_calls effs) c = (c, []) ∧ mpShouldSuppressSoloEnd c = false.
Proof.
  intros Hc. split; [|exact Hc].
  induction effs as [|e effs IH]; [reflexivity|].
  unfold hook_calls in *. cbn [omap list_omap].
  destruct e; try exact IH; cbn [run_hooks];
    (rewrite hook_inactive by (assumption || discriminate));
    rewrite IH; reflexivity.
Qed.

Lemma solo_hooks_silent_witness :
  run_hooks (hook_calls (effects_of (addLetter "E" (typing_game "GRAD"))))
    (fresh_client "ann" false)
  = (fresh_client "ann" false, [])
  ∧ mpShouldSuppressSoloEnd (fresh_client "ann" false) = false.
Proof.
  apply (solo_hooks_silent (fresh_client "ann" false)). reflexivity.
Defined.

(** ** Party codes and player names *)

Lemma code_char_total (b : nat) : is_Some (code_char b).
Proof.
  unfold code_char. rewrite get_list_ascii. apply lookup_lt_is_Some.
  rewrite length_list_ascii. apply Nat.mod_upper_bound. discriminate.
Qed.

Lemma code_char_alphabet (b : nat) (c : ascii) :
  code_char b = Some c →
  c ∈ String.list_ascii_of_string party_chars
  ∧ (is_upper c || is_digit c) = true ∧ is_space c = false
  ∧ c ∉ ["0"; "O"; "1"; "I"]%char.
Proof.
  unfold code_char. rewrite get_list_ascii. intros Hget.
  split; [eapply list_elem_of_lookup_2; exact Hget|].
  assert (b mod String.length party_chars < 32) as Hlt
    by (apply Nat.mod_upper_bound; discriminate).
  revert Hget Hlt. generalize (b mod String.length party_chars). intros k Hget Hlt.
  do 32 (destruct k as [|k];
         [injection Hget as <-; repeat split; try reflexivity;
          rewrite !not_elem_of_cons; repeat split; try discriminate; apply not_elem_of_nil|]).
  lia.
Qed.

Lemma omap_code_char (arr : list nat) :
  length (omap code_char arr) = length arr
  ∧ Forall (λ c, ∃ b, code_char b = Some c) (omap code_char arr).
Proof.
  induction arr as [|b arr [IH1 IH2]]; [split; [reflexivity|constructor]|].
  cbn [omap list_omap]. destruct (code_char_total b) as [c Hc]. rewrite Hc.
  split; [cbn; f_equal; exact IH1|constructor; [exists b; exact Hc|exact IH2]].
Qed.

Lemma drop_spaces_id (l : list ascii) :
  (∀ c, l !! 0 = Some c → is_space c = false) → drop_spaces l = l.
Proof.
  destruct l as [|c l]; [reflexivity|]. intros H. cbn [drop_spaces].
  rewrite (H c eq_refl). reflexivity.
Qed.

Lemma trim_id (l : list ascii) :
  Forall (λ c, is_space c = false) l →
  trim (String.string_of_list_ascii l) = String.string_of_list_ascii l.
Proof.
  intros Hl. unfold trim. rewrite String.list_ascii_of_string_of_list_ascii.
  rewrite (drop_spaces_id l).
  2: { intros c Hc. eapply (proj1 (Forall_lookup _ _) Hl). exact Hc. }
  rewrite (drop_spaces_id (rev l)); [rewrite rev_involutive; reflexivity|].
  intros c Hc. apply list_elem_of_lookup_2 in Hc.
  apply list_elem_of_In, in_rev, list_elem_of_In in Hc.
  exact (proj1 (Forall_forall _ _) Hl c Hc).
Qed.

Lemma map_string_id (f : ascii → ascii) (l : list ascii) :
  Forall (λ c, f c = c) l →
  map_string f (String.string_of_list_ascii l) = String.string_of_list_ascii l.
Proof. induction 1 as [|c l Hc _ IH]; cbn; [reflexivity|]. rewrite Hc, IH. reflexivity. Qed.

Lemma upper_char_id (c : ascii) : (is_upper c || is_digit c) = true → upper_char c = c.
Proof.
  unfold upper_char, is_upper, is_digit, is_lower. intros H.
  destruct (97 <=? nat_of_ascii c) eqn:H1; [|reflexivity].
  apply Nat.leb_le in H1. cbn [andb].
  apply orb_true_iff in H as [H|H]; apply andb_true_iff in H as [_ H];
    apply Nat.leb_le in H; lia.
Qed.

(** X12. A generated party code can be joined.  For every byte array,
    [generatePartyCode] gives one character per byte, each from the
    32-character alphabet that leaves out [0], [O], [1] and [I]; the
    normalisation [joinParty] applies to the typed code leaves a
    generated code as it is, and a code from six bytes passes the length
    check.  Every character of the alphabet is drawn by exactly eight of
    the 256 byte values. *)
Theorem generatePartyCode_accepted (arr : list nat) :
  let code := generatePartyCode arr in
  String.length code = length arr
  ∧ Forall (λ c, c ∈ String.list_ascii_of_string party_chars
                 ∧ c ∉ ["0"; "O"; "1"; "I"]%char)
      (String.list_ascii_of_string code)
  ∧ normalize_code code = code
  ∧ (length arr = 6 → code_accepted (normalize_code code) = true)
  ∧ (∀ c, c ∈ String.list_ascii_of_string party_chars →
          length (List.filter (λ b, bool_decide (code_char b = Some c)) (seq 0 256)) = 8).
Proof.
  destruct (omap_code_char arr) as [Hlen Hall].
  assert (Forall (λ c, c ∈ String.list_ascii_of_string party_chars
                       ∧ (is_upper c || is_digit c) = true ∧ is_space c = false
                       ∧ c ∉ ["0"; "O"; "1"; "I"]%char) (omap code_char arr)) as Hchars.
  { eapply Forall_impl; [exact Hall|]. intros c [b Hb]. exact (code_char_alphabet b c Hb). }
  assert (normalize_code (generatePartyCode arr) = generatePartyCode arr) as Hnorm.
  { unfold normalize_code, generatePartyCode, toUpperCase, filter_string.
    rewrite trim_id by (eapply Forall_impl; [exact Hchars|]; intros c H; apply H).
    rewrite map_string_id
      by (eapply Forall_impl; [exact Hchars|]; intros c H; apply upper_char_id, H).
    rewrite String.list_ascii_of_string_of_list_ascii.
    rewrite forallb_filter_id; [reflexivity|].
    apply forallb_forall. intros c Hc. apply list_elem_of_In in Hc.
    apply (proj1 (Forall_forall _ _) Hchars c Hc). }
  cbn zeta. split; [|split; [|split; [|split]]].
  - unfold generatePartyCode. rewrite length_string_of_list. exact Hlen.
  - unfold generatePartyCode. rewrite String.list_ascii_of_string_of_list_ascii.
    eapply Forall_impl; [exact Hchars|]. intros c H. split; apply H.
  - exact Hnorm.
  - intros H6. rewrite Hnorm. unfold code_accepted, generatePartyCode.
    rewrite length_string_of_list, Hlen, H6. reflexivity.
  - intros c Hc. apply list_elem_of_In in Hc. cbn in Hc.
    repeat (destruct Hc as [<-|Hc]; [vm_compute; reflexivity|]). contradiction.
Qed.

Lemma generatePartyCode_accepted_witness :
  code_accepted (normalize_code (generatePartyCode [0; 31; 32; 200; 255; 97])) = true.
Proof.
  apply (generatePartyCode_accepted [0; 31; 32; 200; 255; 97]). reflexivity.
Defined.

Lemma drop_spaces_drop (l : list ascii) : ∃ k, drop_spaces l = drop k l.
Proof.
  induction l as [|c l [k IH]]; [exists 0; reflexivity|].
  cbn [drop_spaces]. destruct (is_space c); [exists (S k); exact IH|exists 0; reflexivity].
Qed.

Lemma drop_spaces_head (l : list ascii) (c : ascii) :
  drop_spaces l !! 0 = Some c → is_space c = false.
Proof.
  induction l as [|x l IH]; [discriminate|]. cbn [drop_spaces].
  destruct (is_space x) eqn:Hx; [exact IH|]. intros [= <-]. exact Hx.
Qed.

Lemma drop_spaces_last (l : list ascii) (c : ascii) :
  is_space c = false → ∃ s, drop_spaces (l ++ [c]) = s ++ [c].
Proof.
  intros Hc. induction l as [|x l [s IH]].
  - exists []. cbn. rewrite Hc. reflexivity.
  - cbn [app drop_spaces]. destruct (is_space x); [exists s; exact IH|].
    exists (x :: l). reflexivity.
Qed.

(** Trimming keeps a contiguous part of the list, and what it keeps
    starts with no white space. *)
Lemma trim_segment (l : list ascii) :
  let t := rev (drop_spaces (rev (drop_spaces l))) in
  (∃ k1 k2, t = take k2 (drop k1 l))
  ∧ (∀ c, t !! 0 = Some c → is_space c = false).
Proof.
  cbn zeta. split.
  - destruct (drop_spaces_drop l) as [k1 ->].
    destruct (drop_spaces_drop (rev (drop k1 l))) as [k ->].
    rewrite skipn_rev, rev_involutive. eauto.
  - intros c. destruct (drop_spaces l) as [|x m] eqn:Hm; [discriminate|].
    assert (is_space x = false) as Hx by (apply (drop_spaces_head l); rewrite Hm; reflexivity).
    cbn [rev]. destruct (drop_spaces_last (rev m) x Hx) as [s ->].
    rewrite rev_app_distr. cbn. intros [= <-]. exact Hx.
Qed.

Lemma collapse_head (l : list ascii) (c : ascii) :
  collapse_spaces true l !! 0 = Some c → is_space c = false.
Proof.
  induction l as [|x l IH]; [discriminate|]. cbn [collapse_spaces].
  destruct (is_space x) eqn:Hx; [exact IH|]. intros [= <-]. exact Hx.
Qed.

Lemma collapse_single (l : list ascii) : ∀ b i a c,
  collapse_spaces b l !! i = Some a → collapse_spaces b l !! S i = Some c →
  is_space a = true → is_space c = false.
Proof.
  induction l as [|x l IH]; intros b i a c; [discriminate|].
  cbn [collapse_spaces]. destruct (is_space x) eqn:Hx.
  - destruct b; [apply IH|].
    destruct i as [|i]; [|apply IH].
    cbn. intros _ Hc _. exact (collapse_head l c Hc).
  - destruct i as [|i]; [|apply IH]. cbn. intros [= <-] _ Ha. congruence.
Qed.

Lemma collapse_chars (l : list ascii) : ∀ b,
  Forall (λ c, name_char c = true) l →
  Forall (λ c, name_char c = true) (collapse_spaces b l).
Proof.
  induction l as [|x l IH]; intros b Hl; [constructor|].
  apply Forall_cons in Hl as [Hx Hl]. cbn [collapse_spaces].
  destruct (is_space x); [destruct b|]; try constructor; auto.
Qed.

Lemma name_space (c : ascii) : name_char c = true → is_space c = true → c = " "%char.
Proof.
  destruct c as [[] [] [] [] [] [] [] []]; vm_compute; intros H1 H2;
    first [reflexivity | discriminate H1 | discriminate H2].
Qed.

Lemma collapse_id (l : list ascii) : ∀ b,
  Forall (λ c, name_char c = true) l →
  (∀ i, l !! i = Some " "%char → l !! S i ≠ Some " "%char) →
  (b = true → l !! 0 ≠ Some " "%char) →
  collapse_spaces b l = l.
Proof.
  induction l as [|x l IH]; intros b Hl Hdouble Hhead; [reflexivity|].
  apply Forall_cons in Hl as [Hx Hl]. cbn [collapse_spaces].
  assert (∀ i, l !! i = Some " "%char → l !! S i ≠ Some " "%char) as Hdouble'
    by (intros i; apply (Hdouble (S i))).
  destruct (is_space x) eqn:Hsp.
  - apply (name_space x Hx) in Hsp. subst x.
    destruct b; [exfalso; apply (Hhead eq_refl); reflexivity|].
    f_equal. apply IH; [assumption|assumption|].
    intros _. apply (Hdouble 0). reflexivity.
  - f_equal. apply IH; [assumption|assumption|discriminate].
Qed.

Lemma sanitizePlayerName_list (raw : string) :
  String.list_ascii_of_string (sanitizePlayerName raw)
  = take 20 (rev (drop_spaces (rev (drop_spaces
      (collapse_spaces false
         (List.filter name_char (String.list_ascii_of_string raw))))))).
Proof.
  unfold sanitizePlayerName, slice_to, trim, filter_string.
  rewrite !String.list_ascii_of_string_of_list_ascii. reflexivity.
Qed.

(** X13. What a sanitised player name looks like.  It has at most 20
    characters, all of them letters, digits, spaces, hyphens or
    apostrophes; it does not start with a space and has no two spaces in
    a row.  A name that already is like that, and does not end in a
    space either, is returned unchanged. *)
Theorem sanitizePlayerName_clean (raw : string) :
  let out := String.list_ascii_of_string (sanitizePlayerName raw) in
  let l := String.list_ascii_of_string raw in
  length out ≤ 20
  ∧ Forall (λ c, name_char c = true) out
  ∧ (∀ c, out !! 0 = Some c → c ≠ " "%char)
  ∧ (∀ i, out !! i = Some " "%char → out !! S i ≠ Some " "%char)
  ∧ (length l ≤ 20 →
     Forall (λ c, name_char c = true) l →
     (∀ i, l !! i = Some " "%char →
           0 < i ∧ S i < length l ∧ l !! S i ≠ Some " "%char) →
     sanitizePlayerName raw = raw).
Proof.
  cbn zeta. rewrite sanitizePlayerName_list.
  set (l := String.list_ascii_of_string raw).
  set (L := collapse_spaces false (List.filter name_char l)).
  assert (Forall (λ c, name_char c = true) L) as HL.
  { apply collapse_chars. apply Forall_forall. intros c Hc.
    apply list_elem_of_In, filter_In in Hc. apply Hc. }
  destruct (trim_segment L) as [(k1 & k2 & Hseg) Hhead].
  split; [|split; [|split; [|split]]].
  - rewrite length_take. lia.
  - rewrite Hseg. apply Forall_take, Forall_take, Forall_drop. exact HL.
  - intros c Hc. apply lookup_take_Some in Hc as [Hc _].
    apply Hhead in Hc. intros ->. discriminate Hc.
  - rewrite Hseg. intros i Hi Hi'.
    apply lookup_take_Some in Hi as [Hi _], Hi' as [Hi' _].
    apply lookup_take_Some in Hi as [Hi _], Hi' as [Hi' _].
    rewrite lookup_drop in Hi, Hi'.
    replace (k1 + S i) with (S (k1 + i)) in Hi' by lia.
    pose proof (collapse_single _ _ _ _ _ Hi Hi' eq_refl) as H. discriminate H.
  - intros Hlen Hchars Hspaces.
    assert (L = l) as HLl.
    { subst L. rewrite forallb_filter_id.
      - apply collapse_id; [exact Hchars| |discriminate].
        intros i Hi. apply (Hspaces i Hi).
      - apply forallb_forall. intros c Hc. apply list_elem_of_In in Hc.
        exact (proj1 (Forall_forall _ _) Hchars c Hc). }
    assert (sanitizePlayerName raw
            = String.string_of_list_ascii (String.list_ascii_of_string (sanitizePlayerName raw)))
      as -> by (symmetry; apply String.string_of_list_ascii_of_string).
    rewrite sanitizePlayerName_list. fold l. fold L. rewrite HLl.
    rewrite (drop_spaces_id l).
    2: { intros c Hc. destruct (is_space c) eqn:Hsp; [|reflexivity].
         assert (name_char c = true) as Hn
           by (eapply (proj1 (Forall_lookup _ _) Hchars); exact Hc).
         apply (name_space c Hn) in Hsp. subst c.
         destruct (Hspaces 0 Hc) as [H0 _]. lia. }
    rewrite (drop_spaces_id (rev l)).
    2: { intros c Hc. destruct (is_space c) eqn:Hsp; [|reflexivity].
         destruct l as [|x l'] using rev_ind; [discriminate Hc|].
         rewrite rev_app_distr in Hc. cbn in Hc. injection Hc as ->.
         assert (name_char c = true) as Hn.
         { eapply (proj1 (Forall_forall _ _) Hchars). apply elem_of_app. right.
           apply list_elem_of_here. }
         apply (name_space c Hn) in Hsp. subst c.
         assert ((l' ++ [" "%char]) !! length l' = Some " "%char) as Hlast
           by (rewrite lookup_app_r by lia; rewrite Nat.sub_diag; reflexivity).
         destruct (Hspaces _ Hlast) as (_ & Hlt & _).
         rewrite length_app in Hlt. cbn in Hlt. lia. }
    rewrite rev_involutive, take_ge by exact Hlen.
    apply String.string_of_list_ascii_of_string.
Qed.

Lemma sanitizePlayerName_clean_witness : sanitizePlayerName "Ann-Marie O'Neil" = "Ann-Marie O'Neil".
Proof.
  apply (sanitizePlayerName_clean "Ann-Marie O'Neil").
  - vm_compute. lia.
  - repeat constructor.
  - intros i Hi.
    do 16 (destruct i as [|i]; [try discriminate Hi; repeat split; cbn; try lia; discriminate|]).
    discriminate Hi.
Defined.

(** ** The word of the day *)

Lemma rem_rem_mod (d n : Z) :
  (0 < n)%Z → Z.rem (Z.rem d n + n) n = (d mod n)%Z.
Proof.
  intros Hn.
  assert (- n < Z.rem d n)%Z as Hlo
    by (pose proof (Z.rem_bound_abs d n ltac:(lia)); lia).
  rewrite Z.rem_mod_nonneg by lia.
  rewrite (Z.rem_eq d n) by lia.
  replace (d - n * (d ÷ n) + n)%Z with (d + (1 - d ÷ n) * n)%Z by lia.
  apply Z.mod_add. lia.
Qed.

(** X14. The daily word cycles through the answers.  With a non-empty
    answer list, [pickWord] finds a word for every day, also for days
    before the epoch: the entry at the day number modulo the length of
    the list, so the same word comes back after as many days as there
    are answers.  With an empty list no index exists. *)
Theorem pickWord_daily_cycle (ANSWERS : list string) (epochDay : Z) :
  (ANSWERS ≠ [] →
   pickWord_daily ANSWERS epochDay
   = toUpperCase <$> ANSWERS !! Z.to_nat (epochDay mod Z.of_nat (length ANSWERS))
   ∧ is_Some (pickWord_daily ANSWERS epochDay)
   ∧ pickWord_daily ANSWERS (epochDay + Z.of_nat (length ANSWERS))
     = pickWord_daily ANSWERS epochDay)
  ∧ pickWord_daily [] epochDay = None.
Proof.
  split; [|reflexivity]. intros Hne.
  assert (0 < Z.of_nat (length ANSWERS))%Z as Hn
    by (destruct ANSWERS; [contradiction|cbn [length]; lia]).
  assert (∀ d, pickWord_daily ANSWERS d
               = toUpperCase <$> ANSWERS !! Z.to_nat (d mod Z.of_nat (length ANSWERS)))
    as Hpick.
  { intros d. unfold pickWord_daily, daily_index.
    rewrite decide_False by lia. cbn [mbind option_bind].
    rewrite rem_rem_mod by exact Hn. reflexivity. }
  split; [apply Hpick|split].
  - rewrite Hpick. apply fmap_is_Some, lookup_lt_is_Some.
    pose proof (Z.mod_pos_bound epochDay _ Hn). lia.
  - rewrite !Hpick. rewrite <- (Z.mul_1_l (Z.of_nat (length ANSWERS))) at 1.
    rewrite Z.mod_add by lia. reflexivity.
Qed.

Lemma pickWord_daily_cycle_witness :
  pickWord_daily ["crane"; "slate"; "grade"] (-4 + Z.of_nat 3)
  = pickWord_daily ["crane"; "slate"; "grade"] (-4).
Proof.
  apply (pickWord_daily_cycle ["crane"; "slate"; "grade"] (-4)). discriminate.
Defined.

(** ** Statistics *)

Lemma shown_count_insert (d : gmap nat Num) (row i n : nat) :
  d !! row = Some (Count n) →
  shown_count (<[row := increment (d !! row)]> d) i
  = shown_count d i + (if decide (row = i) then 1 else 0).
Proof.
  intros Hrow. unfold shown_count. rewrite lookup_insert.
  destruct (decide (row = i)) as [<-|Hne].
  - rewrite Hrow. cbn. lia.
  - lia.
Qed.

(** X15. The statistics stay consistent.  From the initial statistics,
    and after every result recorded for a row from 1 to 6, wins are
    within the games played, the current streak within the best streak,
    the best streak within the wins, and the six bars of the
    distribution add up to the wins.  A loss resets the streak and
    leaves the distribution alone; a win recorded for a row without a
    bar stores [NaN] there. *)
Theorem recordResult_consistent (isWon : bool) (rowUsed : nat) (s : Stats) :
  stats_ok initial_stats
  ∧ (stats_ok s → (isWon = true → 1 ≤ rowUsed ≤ MAX_GUESSES) →
     stats_ok (recordResult isWon rowUsed s))
  ∧ (isWon = false →
     streak (recordResult isWon rowUsed s) = 0
     ∧ maxStreak (recordResult isWon rowUsed s) = maxStreak s
     ∧ distribution (recordResult isWon rowUsed s) = distribution s)
  ∧ (isWon = true → distribution s !! rowUsed = None →
     distribution (recordResult isWon rowUsed s) !! rowUsed = Some NaN).
Proof.
  split; [|split; [|split]].
  - unfold stats_ok. cbn [wins played streak maxStreak initial_stats distribution].
    repeat split; try lia.
    intros i Hi. exists 0. unfold MAX_GUESSES in Hi.
    assert (i = 1 ∨ i = 2 ∨ i = 3 ∨ i = 4 ∨ i = 5 ∨ i = 6) as Hcases by lia.
    repeat (destruct Hcases as [->|Hcases]); try subst i; reflexivity.
  - intros (Hw & Hs & Hm & Hbars & Hsum) Hrow. unfold recordResult.
    destruct isWon; unfold stats_ok;
      cbn [wins played streak maxStreak distribution];
      [|repeat split; first [lia | assumption]].
    specialize (Hrow eq_refl). destruct (Hbars rowUsed Hrow) as [n Hn].
    split; [lia|split; [lia|split; [lia|split]]].
    + intros i Hi. rewrite lookup_insert.
      destruct (decide (rowUsed = i)) as [<-|_]; [|apply Hbars; exact Hi].
      rewrite Hn. eauto.
    + rewrite <- Hsum. unfold MAX_GUESSES in *. cbn [seq map sum_list].
      rewrite !(shown_count_insert _ _ _ n Hn).
      assert (rowUsed = 1 ∨ rowUsed = 2 ∨ rowUsed = 3 ∨ rowUsed = 4 ∨ rowUsed = 5
              ∨ rowUsed = 6) as Hcases by lia.
      repeat (destruct Hcases as [->|Hcases]); try subst rowUsed;
        repeat case_decide; unfold id; lia.
  - intros ->. repeat split.
  - intros -> Hnone. unfold recordResult. cbn [distribution].
    rewrite lookup_insert, decide_True by reflexivity. rewrite Hnone. reflexivity.
Qed.

Lemma recordResult_consistent_witness :
  stats_ok (recordResult true 3 initial_stats).
Proof.
  apply (recordResult_consistent true 3 initial_stats).
  - apply (recordResult_consistent true 3 initial_stats).
  - intros _. unfold MAX_GUESSES. lia.
Defined.

(** ** The word-setter queue *)

Lemma obj_set_entries {A} (l : list A) : ∀ j v,
  obj_set (j + length l) v (entries_from j l) = entries_from j (l ++ [v]).
Proof.
  induction l as [|x l IH]; intros j v; cbn [entries_from length app obj_set].
  - rewrite Nat.add_0_r. reflexivity.
  - rewrite decide_False by lia. rewrite decide_False by lia.
    f_equal. replace (j + S (length l)) with (S j + length l) by lia. apply IH.
Qed.

Lemma forEach_entries (l : list string) : ∀ pre,
  forEach_i (λ q id i, obj_set i id q) l (length pre) (entries_from 0 pre)
  = entries_from 0 (pre ++ l).
Proof.
  induction l as [|x l IH]; intros pre; cbn [forEach_i].
  - rewrite app_nil_r. reflexivity.
  - cbn beta.
    rewrite (obj_set_entries pre 0 x
               : obj_set (length pre) x (entries_from 0 pre) = _).
    replace (S (length pre)) with (length (pre ++ [x]))
      by (rewrite length_app; cbn; lia).
    rewrite IH, <- app_assoc. reflexivity.
Qed.

Lemma build_queue_entries (l : list string) : build_queue l = entries_from 0 l.
Proof. exact (forEach_entries l []). Qed.

Lemma obj_get_entries {A} (l : list A) : ∀ j i,
  obj_get (j + i) (entries_from j l) = l !! i.
Proof.
  induction l as [|x l IH]; intros j i; cbn [entries_from obj_get]; [reflexivity|].
  destruct i as [|i].
  - rewrite decide_True by lia. reflexivity.
  - rewrite decide_False by lia.
    replace (j + S i) with (S j + i) by lia. apply IH.
Qed.

Lemma length_entries {A} (l : list A) : ∀ j, length (entries_from j l) = length l.
Proof. induction l as [|x l IH]; intros j; cbn; [reflexivity|]. rewrite IH. reflexivity. Qed.

Lemma play_again_rounds_spec (shuffled : list string) (pt : Party) :
  shuffled ≠ [] → ∀ k,
  play_again_rounds k (start_custom shuffled pt)
  = Some {| host := host pt; status := choosing; gameMode := gameMode pt;
            round := round pt + 1 + k; partyTargetWord := "";
            wordSetterIndex := k mod length shuffled;
            wordQueue := build_queue shuffled; players := players pt |}.
Proof.
  intros Hne.
  assert (length shuffled ≠ 0) as Hlen by (destruct shuffled; [contradiction|discriminate]).
  induction k as [|k IH]; cbn [play_again_rounds].
  - unfold start_custom. rewrite Nat.add_0_r, Nat.Div0.mod_0_l. reflexivity.
  - rewrite IH. cbn [mbind option_bind]. unfold play_again_custom, next_setter_index.
    cbn [wordQueue wordSetterIndex host gameMode round players].
    rewrite build_queue_entries, length_entries, decide_False by exact Hlen.
    cbn [mbind option_bind]. f_equal. f_equal; [lia|].
    rewrite Nat.Div0.add_mod_idemp_l. f_equal. lia.
Qed.

(** X16. The word setter rotates through the whole queue.  After the
    host starts a custom game with a non-empty shuffled order and plays
    again [k] times, the party is in its choosing phase, [k + 1] rounds
    on, and the setter read by [handleChoosingPhase] is the entry of the
    shuffled order at [k] modulo its length: every player of the order
    sets the word once in each cycle.  With an empty queue, play-again
    has no next index. *)
Theorem setter_rotation (shuffled : list string) (pt : Party) (k : nat) :
  (shuffled ≠ [] →
   ∃ pt', play_again_rounds k (start_custom shuffled pt) = Some pt'
          ∧ current_setter pt' = shuffled !! (k mod length shuffled)
          ∧ is_Some (current_setter pt')
          ∧ status pt' = choosing ∧ round pt' = round pt + 1 + k
          ∧ partyTargetWord pt' = "" ∧ players pt' = players pt)
  ∧ (wordQueue pt = [] → play_again_custom pt = None).
Proof.
  split.
  - intros Hne. eexists. split; [apply play_again_rounds_spec; exact Hne|].
    unfold current_setter. cbn [wordSetterIndex wordQueue status round
      partyTargetWord players].
    rewrite build_queue_entries.
    rewrite (obj_get_entries shuffled 0 (k mod length shuffled)
             : obj_get (k mod length shuffled) (entries_from 0 shuffled) = _).
    repeat split. apply lookup_lt_is_Some, Nat.mod_upper_bound.
    destruct shuffled; [contradiction|discriminate].
  - intros Hq. unfold play_again_custom, next_setter_index. rewrite Hq. reflexivity.
Qed.

Lemma setter_rotation_witness :
  ∃ pt', play_again_rounds 3 (start_custom ["guest"; "host"] sample_party) = Some pt'
         ∧ current_setter pt' = ["guest"; "host"] !! (3 mod length ["guest"; "host"])
         ∧ is_Some (current_setter pt')
         ∧ status pt' = choosing ∧ round pt' = round sample_party + 1 + 3
         ∧ partyTargetWord pt' = "" ∧ players pt' = players sample_party.
Proof.
  apply (setter_rotation ["guest"; "host"] sample_party 3). discriminate.
Defined.

(** X17. A freshly reset round is not over.  After the resets the relay
    writes for the players of a party, the all-done check of the
    round-end listener holds exactly when the party is not empty and
    the word setter is its only player; with no setter, or with any
    other player, it fails. *)
Theorem reset_round_not_done (sid : option string) (clearProposed : bool) (pt : Party) :
  let pt' := apply_update
               (flat_map (round_resets sid clearProposed) (Object_keys (players pt)))
               pt in
  all_done (players pt') = true
  ↔ players pt ≠ ∅ ∧ ∀ id, is_Some (players pt !! id) → Some id = sid.
Proof.
  cbn zeta. destruct (Object_keys_spec (players pt)) as [Hnd Hkeys].
  destruct (resets_apply sid clearProposed (Object_keys (players pt)) pt Hnd)
    as [Hlook _].
  rewrite all_done_spec. split.
  - intros [Hne Hall]. split.
    + intros Hempty. apply Hne. apply map_eq. intros id. rewrite Hlook.
      rewrite decide_False; [rewrite Hempty; reflexivity|].
      rewrite Hkeys, Hempty, lookup_empty. intros [? [=]].
    + intros id Hid. specialize (Hall id). rewrite Hlook in Hall.
      rewrite decide_True in Hall by (apply Hkeys; exact Hid).
      specialize (Hall _ eq_refl). cbn [reset_player done] in Hall.
      injection Hall as Hall. apply bool_decide_eq_true_1 in Hall. exact Hall.
  - intros [Hne Hall]. split.
    + intros Hempty. apply Hne. apply map_eq. intros id. rewrite lookup_empty.
      destruct (players pt !! id) eqn:Hid; [|reflexivity].
      assert (is_Some (players pt !! id)) as Hsome by eauto.
      pose proof (f_equal (λ m, m !! id) Hempty) as Hl. cbn beta in Hl.
      rewrite Hlook, lookup_empty in Hl.
      rewrite decide_True in Hl by (apply Hkeys; exact Hsome). discriminate Hl.
    + intros id p. rewrite Hlook.
      destruct (decide (id ∈ Object_keys (players pt))) as [Hin|Hnin].
      * intros [= <-]. cbn [reset_player done]. f_equal.
        apply bool_decide_eq_true_2, Hall, Hkeys, Hin.
      * intros Hp. exfalso. apply Hnin, Hkeys. eauto.
Qed.

Lemma reset_round_not_done_witness :
  all_done
    (players
       (apply_update
          (flat_map (round_resets (Some "host") true) (Object_keys (players lone_party)))
          lone_party)) = true.
Proof.
  apply (reset_round_not_done (Some "host") true lone_party). split.
  - apply map_non_empty_singleton.
  - intros id [p Hp]. cbn [players lone_party] in Hp.
    apply lookup_singleton_Some in Hp as [<- _]. reflexivity.
Defined.

(** ** Key presses and reveals *)

Lemma addLetter_effects (c : ascii) (g : Game) (e : Effect) :
  e ∈ effects_of (addLetter c g) → ∃ letters, e = MpSyncTyping letters.
Proof.
  cbv [addLetter mbind M_bind gets modify emit mret M_ret effects_of].
  destruct (decide _); cbn [snd app]; [intros H; inversion H|].
  rewrite list_elem_of_singleton. eauto.
Qed.

Lemma deleteLetter_effects (g : Game) (e : Effect) :
  e ∈ effects_of (deleteLetter g) → ∃ letters, e = MpSyncTyping letters.
Proof.
  cbv [deleteLetter mbind M_bind gets modify emit mret M_ret effects_of].
  destruct (decide _); cbn [snd app]; [intros H; inversion H|].
  rewrite list_elem_of_singleton. eauto.
Qed.

Lemma forallb_string_list (f : ascii → bool) (l : list ascii) :
  Forall (λ c, f c = true) l →
  forallb_string f (String.string_of_list_ascii l) = true.
Proof. induction 1 as [|c l Hc _ IH]; cbn; [reflexivity|]. rewrite Hc, IH. reflexivity. Qed.

Lemma submitGuess_reveals (dict : gset string) (g : Game) (row : nat)
    (guess : string) (res : list LetterState) :
  RevealRow row guess res ∈ effects_of (submitGuess dict g) →
  ¬ currentCol g < WORD_LENGTH
  ∧ row = currentRow g
  ∧ guess = String.string_of_list_ascii (currentGuess g)
  ∧ isValidWord dict guess = true
  ∧ (hardMode g = true → value_of (checkHardMode guess g) = None)
  ∧ res = evaluateGuess guess (targetWord g).
Proof.
  cbv [submitGuess mbind M_bind gets emit mret M_ret effects_of].
  destruct (decide (currentCol g < WORD_LENGTH)) as [Hcol|Hcol]; cbn [snd app].
  { rewrite !elem_of_cons, elem_of_nil. intros [H|[H|[]]]; discriminate H. }
  destruct (isValidWord dict _) eqn:Hvalid; cbn [negb snd app].
  2: { rewrite !elem_of_cons, elem_of_nil. intros [H|[H|[H|[]]]]; discriminate H. }
  destruct (hardMode g) eqn:Hhard.
  - rewrite checkHardMode_run.
    remember (match check_positions (String.string_of_list_ascii (currentGuess g))
                      (exactPositions (hardConstraints g)) with
              | Some msg => Some msg
              | None => check_contains (String.string_of_list_ascii (currentGuess g))
                          (mustContain (hardConstraints g))
              end) as v eqn:Hv.
    destruct v as [msg|]; cbn [fst snd app].
    + rewrite !elem_of_cons, elem_of_nil. intros [H|[H|[H|[]]]]; discriminate H.
    + rewrite !elem_of_cons, elem_of_nil. intros [H|[H|[]]]; [discriminate H|].
      injection H as -> -> ->. repeat split; auto.
      intros _. rewrite checkHardMode_run. symmetry. exact Hv.
  - cbn [fst snd app]. rewrite !elem_of_cons, elem_of_nil.
    intros [H|[H|[]]]; [discriminate H|].
    injection H as -> -> ->. repeat split; auto. discriminate.
Qed.

Lemma dispatchKey_reveals (dict : gset string) (key : string) (g : Game) (row : nat)
    (guess : string) (res : list LetterState) :
  RevealRow row guess res ∈ effects_of (dispatchKey dict key g) →
  key = "Enter" ∧ RevealRow row guess res ∈ effects_of (submitGuess dict g).
Proof.
  unfold dispatchKey.
  destruct (decide (key = "Enter")) as [->|_]; [auto|].
  destruct (decide (key = "Backspace")) as [_|_].
  - intros H. apply deleteLetter_effects in H as [? H]. discriminate H.
  - destruct (letter_key key).
    + intros H. apply addLetter_effects in H as [? H]. discriminate H.
    + intros H. inversion H.
Qed.

(** X18. What a revealed row always is.  When a key press on a
    well-formed typed row starts a reveal, the key was Enter, the game
    was not over, the row is the current one, and the guess is the typed
    row: five upper-case letters, in the word list, passing the hard
    mode check when hard mode is on, and scored by [evaluateGuess]
    against the target. *)
Theorem handleKey_reveals (dict : gset string) (key : string) (g : Game) (row : nat)
    (guess : string) (res : list LetterState) :
  typing_ok g →
  RevealRow row guess res ∈ effects_of (handleKey dict key g) →
  key = "Enter" ∧ gameOver g = false ∧ row = currentRow g
  ∧ guess = String.string_of_list_ascii (currentGuess g)
  ∧ String.length guess = WORD_LENGTH
  ∧ forallb_string is_upper guess = true
  ∧ isValidWord dict guess = true
  ∧ (hardMode g = true → value_of (checkHardMode guess g) = None)
  ∧ res = evaluateGuess guess (targetWord g).
Proof.
  intros (Hcol & Hle & Hup) Hin.
  assert (∃ g0, (g0 = g ∨ g0 = set_modalOpen false g) ∧ gameOver g = false
                ∧ key = "Enter"
                ∧ RevealRow row guess res ∈ effects_of (submitGuess dict g0))
    as (g0 & Hg0 & Hover & -> & Hsub).
  { revert Hin.
    cbv [handleKey mbind M_bind gets modify emit mret M_ret effects_of].
    destruct (gameOver g); [intros H; inversion H|]. cbn beta iota.
    destruct (modalOpen g); cbn beta iota.
    - destruct (game_key key); [|intros H; inversion H]. cbn beta iota.
      pose proof (dispatchKey_reveals dict key (set_modalOpen false g) row guess res)
        as Hd. unfold effects_of in Hd.
      destruct (dispatchKey dict key (set_modalOpen false g)) as [[u g'] effs].
      cbn [fst snd app]. rewrite elem_of_cons. intros [H|H]; [discriminate H|].
      destruct (Hd H) as [-> Hs]. exists (set_modalOpen false g). auto.
    - pose proof (dispatchKey_reveals dict key g row guess res) as Hd.
      unfold effects_of in Hd.
      destruct (dispatchKey dict key g) as [[u g'] effs]. cbn [fst snd app].
      intros H. destruct (Hd H) as [-> Hs]. exists g. auto. }
  destruct (submitGuess_reveals dict g0 row guess res Hsub)
    as (Hfull & Hrow & Hguess & Hvalid & Hhard & Hres).
  assert (currentCol g0 = currentCol g ∧ currentRow g0 = currentRow g
          ∧ currentGuess g0 = currentGuess g ∧ hardMode g0 = hardMode g
          ∧ targetWord g0 = targetWord g ∧ hardConstraints g0 = hardConstraints g)
    as (E1 & E2 & E3 & E4 & E5 & E6)
    by (destruct Hg0 as [->| ->]; repeat split).
  rewrite E1 in Hfull. rewrite E2 in Hrow. rewrite E3 in Hguess.
  rewrite E4 in Hhard. rewrite E5 in Hres.
  rewrite checkHardMode_run, E6 in Hhard.
  subst row guess res.
  split; [reflexivity|split; [exact Hover|split; [reflexivity|split; [reflexivity|]]]].
  split; [rewrite length_string_of_list; unfold WORD_LENGTH in *; lia|].
  split; [apply forallb_string_list; exact Hup|].
  split; [exact Hvalid|split; [|reflexivity]].
  intros Hh. rewrite checkHardMode_run. exact (Hhard Hh).
Qed.

Lemma handleKey_reveals_witness :
  "Enter" = "Enter" ∧ gameOver (sample_game "CRATE") = false
  ∧ 1 = currentRow (sample_game "CRATE")
  ∧ "CRATE" = String.string_of_list_ascii (currentGuess (sample_game "CRATE"))
  ∧ String.length "CRATE" = WORD_LENGTH
  ∧ forallb_string is_upper "CRATE" = true
  ∧ isValidWord sample_words "CRATE" = true
  ∧ (hardMode (sample_game "CRATE") = true →
     value_of (checkHardMode "CRATE" (sample_game "CRATE")) = None)
  ∧ evaluateGuess "CRATE" "CRANE"
    = evaluateGuess "CRATE" (targetWord (sample_game "CRATE")).
Proof.
  apply (handleKey_reveals sample_words "Enter" (sample_game "CRATE") 1 "CRATE"
           (evaluateGuess "CRATE" "CRANE")).
  - split; [reflexivity|split; [vm_compute; lia|repeat constructor]].
  - vm_compute. repeat (first [apply list_elem_of_here | apply list_elem_of_further]).
Defined.

Lemma revealed_over (suppress : bool) (w : string) (res : list LetterState)
    (row : nat) (g : Game) :
  gameOver (state_of (revealed suppress w res row g))
  = all_correct res || bool_decide (MAX_GUESSES ≤ currentRow g + 1) || gameOver g.
Proof.
  unfold revealed, updateHardConstraints, mbind, M_bind, gets, modify, emit,
    mret, M_ret, state_of, all_correct.
  cbn [currentRow set_hardConstraints].
  destruct (forallb _ res); [destruct suppress; reflexivity|].
  destruct (decide (MAX_GUESSES ≤ currentRow g + 1)) as [Hlast|Hlast];
    [rewrite (bool_decide_eq_true_2 _ Hlast); destruct suppress
    |rewrite (bool_decide_eq_false_2 _ Hlast)]; reflexivity.
Qed.

Lemma revealed_target (suppress : bool) (w : string) (res : list LetterState)
    (row : nat) (g : Game) :
  targetWord (state_of (revealed suppress w res row g)) = targetWord g.
Proof.
  unfold revealed, updateHardConstraints, mbind, M_bind, gets, modify, emit,
    mret, M_ret, state_of.
  cbn [currentRow set_hardConstraints].
  destruct (forallb _ res); [destruct suppress; reflexivity|].
  destruct (decide (MAX_GUESSES ≤ currentRow g + 1)); [destruct suppress|];
    reflexivity.
Qed.

Lemma reveal_all_spec (suppress : bool) (rs : list (string * list LetterState * nat)) :
  ∀ g,
  let g' := reveal_all suppress rs g in
  currentRow g' = currentRow g + length rs
  ∧ targetWord g' = targetWord g
  ∧ hardConstraints g'
    = fold_left (λ hc r, update_constraints r.1.1 r.1.2 hc) rs (hardConstraints g)
  ∧ gameOver g'
    = gameOver g || existsb (λ r, all_correct r.1.2) rs
      || bool_decide (rs ≠ [] ∧ MAX_GUESSES ≤ currentRow g + length rs).
Proof.
  induction rs as [|[[w res] row] rs IH]; intros g; cbn zeta.
  - unfold reveal_all. cbn [fold_left length existsb].
    rewrite Nat.add_0_r, bool_decide_eq_false_2 by (intros [H _]; apply H; reflexivity).
    rewrite !orb_false_r. auto.
  - unfold reveal_all in *. cbn [fold_left length existsb fst snd].
    specialize (IH (state_of (revealed suppress w res row g))). cbn zeta in IH.
    destruct IH as (I1 & I2 & I3 & I4).
    destruct (revealed_run suppress w res row g) as (R1 & R2 & _).
    rewrite I1, I2, I3, I4, R1, R2, revealed_target, revealed_over.
    split; [lia|split; [reflexivity|split; [reflexivity|]]].
    apply Bool.eq_iff_eq_true. rewrite !orb_true_iff, !bool_decide_eq_true.
    split.
    + intros [[[[H|H]|H]|H]|[Hne H]]; auto.
      * right. split; [discriminate|lia].
      * right. split; [discriminate|lia].
    + intros [[H|[H|H]]|[_ H]]; auto 6.
      destruct rs as [|r rs]; [left; left; left; right; cbn [length] in H; lia|].
      right. split; [discriminate|cbn [length] in *; lia].
Qed.

(** X19. Rows and the end of the game.  After the reveal callbacks of
    any rows have run, the current row has advanced by their number, the
    target is unchanged, the hard-mode constraints are those of the
    start updated by each row in turn, and the game is over exactly
    when it was over before, or one of the rows was all correct, or the
    row count has reached six.  From a freshly started game the
    constraints are built from none and the rows count from zero. *)
Theorem reveal_all_rows (suppress : bool) (rs : list (string * list LetterState * nat))
    (answer : string) (g : Game) :
  (let g' := reveal_all suppress rs g in
   currentRow g' = currentRow g + length rs
   ∧ targetWord g' = targetWord g
   ∧ hardConstraints g'
     = fold_left (λ hc r, update_constraints r.1.1 r.1.2 hc) rs (hardConstraints g)
   ∧ gameOver g'
     = gameOver g || existsb (λ r, all_correct r.1.2) rs
       || bool_decide (rs ≠ [] ∧ MAX_GUESSES ≤ currentRow g + length rs))
  ∧ (let g' := reveal_all suppress rs (state_of (startGame answer g)) in
     currentRow g' = length rs
     ∧ targetWord g' = toUpperCase answer
     ∧ hardConstraints g'
       = fold_left (λ hc r, update_constraints r.1.1 r.1.2 hc) rs no_constraints
     ∧ (gameOver g' = true
        ↔ (∃ r, r ∈ rs ∧ all_correct r.1.2 = true) ∨ MAX_GUESSES ≤ length rs)).
Proof.
  split; [apply reveal_all_spec|].
  destruct (reveal_all_spec suppress rs (state_of (startGame answer g)))
    as (H1 & H2 & H3 & H4).
  cbn zeta. rewrite H1, H2, H3, H4.
  split; [reflexivity|split; [reflexivity|split; [reflexivity|]]].
  change (gameOver (state_of (startGame answer g))) with false.
  change (currentRow (state_of (startGame answer g))) with 0.
  cbn [orb Nat.add]. rewrite orb_true_iff, existsb_exists, bool_decide_eq_true.
  split.
  - intros [(r & Hin & Hr)|[_ Hlen]]; [left; exists r; split;
      [apply list_elem_of_In; exact Hin|exact Hr]|right; exact Hlen].
  - intros [(r & Hin & Hr)|Hlen]; [left; exists r; split;
      [apply list_elem_of_In; exact Hin|exact Hr]|right].
    split; [|exact Hlen]. intros ->. unfold MAX_GUESSES in Hlen. cbn in Hlen. lia.
Qed.

(** X20. Enter does not consume the typed row.  With no modal open, a
    press of Enter leaves the game state as it is, so a second Enter
    before the reveal callback runs starts the same reveal again; and
    two callbacks for one submitted row advance the current row by two,
    each recording the guess under the same row. *)
Theorem enter_twice (dict : gset string) (g : Game) (s1 s2 : bool) (w : string)
    (res : list LetterState) (row : nat) :
  (modalOpen g = false →
   state_of (handleKey dict "Enter" g) = g
   ∧ handleKey dict "Enter" (state_of (handleKey dict "Enter" g))
     = handleKey dict "Enter" g)
  ∧ (let g1 := state_of (revealed s1 w res row g) in
     let r2 := revealed s2 w res row g1 in
     currentRow (state_of r2) = currentRow g + 2
     ∧ MpRecordGuess w res row ∈ effects_of (revealed s1 w res row g)
     ∧ MpRecordGuess w res row ∈ effects_of r2).
Proof.
  split.
  - intros Hmodal.
    assert (state_of (handleKey dict "Enter" g) = g) as Hstate.
    { cbv [handleKey mbind M_bind gets modify emit mret M_ret state_of].
      destruct (gameOver g); [reflexivity|]. rewrite Hmodal. cbn beta iota.
      unfold dispatchKey. rewrite decide_True by reflexivity.
      pose proof (submitGuess_state dict g) as Hs. unfold state_of in Hs.
      destruct (submitGuess dict g) as [[u g'] effs]. exact Hs. }
    split; [exact Hstate|]. rewrite Hstate. reflexivity.
  - cbn zeta.
    destruct (revealed_run s1 w res row g) as (R1 & _ & R3).
    destruct (revealed_run s2 w res row (state_of (revealed s1 w res row g)))
      as (Q1 & _ & Q3).
    rewrite Q1, R1. split; [lia|split; assumption].
Qed.

Lemma enter_twice_witness :
  state_of (handleKey sample_words "Enter" (sample_game "CRATE")) = sample_game "CRATE"
  ∧ handleKey sample_words "Enter"
      (state_of (handleKey sample_words "Enter" (sample_game "CRATE")))
    = handleKey sample_words "Enter" (sample_game "CRATE")
  ∧ effects_of (handleKey sample_words "Enter" (sample_game "CRATE"))
    = [MpClearTyping; RevealRow 1 "CRATE" [correct; correct; correct; absent; correct]].
Proof.
  destruct (enter_twice sample_words (sample_game "CRATE") false false "CRATE" [] 1)
    as [Henter _].
  destruct (Henter eq_refl) as [Hstate Hagain].
  split; [exact Hstate|]. split; [exact Hagain|]. vm_compute. reflexivity.
Defined.

(** ** What each mark means *)

Lemma gs1_equal (g : list ascii) : ∀ t i a,
  length g = length t → g !! i = Some a → t !! i = Some a →
  gs1 g t !! i = Some Js.Null.
Proof.
  induction g as [|x g IH]; intros [|y t] i a Hlen; simpl in Hlen;
    try discriminate Hlen; [intros H; discriminate H|].
  injection Hlen as Hlen. unfold gs1. cbn [zip_with]. fold (gs1 g t).
  destruct i as [|i]; simpl.
  - intros [= ->] [= ->]. rewrite decide_True by reflexivity. reflexivity.
  - apply IH. exact Hlen.
Qed.

Lemma occurrences_pos (X : ascii) (t : list ascii) (i : nat) :
  t !! i = Some X → 0 < occurrences X t.
Proof.
  revert i. induction t as [|y t IH]; intros [|i]; simpl; try discriminate.
  - intros [= ->]. rewrite occurrences_cons, decide_True by reflexivity. lia.
  - intros H. rewrite occurrences_cons. specialize (IH i H). lia.
Qed.

(** X21. What each mark means.  For a guess and a target of five
    letters and a position holding the letter [X] in the guess: the mark
    is [correct] exactly when the target holds [X] at the same position;
    a [present] mark is given only where the target holds another letter
    and has [X] somewhere; and a letter the target does not have is
    marked [absent]. *)
Theorem evaluateGuess_positions (guess target : string) (i : nat) (X : ascii) :
  String.length guess = WORD_LENGTH →
  String.length target = WORD_LENGTH →
  String.get i guess = Some X →
  let res := evaluateGuess guess target in
  (res !! i = Some correct ↔ String.get i target = Some X)
  ∧ (res !! i = Some present →
     String.get i target ≠ Some X
     ∧ 0 < occurrences X (String.list_ascii_of_string target))
  ∧ (occurrences X (String.list_ascii_of_string target) = 0 →
     res !! i = Some absent).
Proof.
  intros Hg Ht Hi. cbn zeta.
  rewrite <- length_list_ascii in Hg, Ht.
  pose proof (evaluateGuess_presents guess target Hg Ht) as Heq. cbn zeta in Heq.
  rewrite Heq. clear Heq. rewrite !get_list_ascii in *.
  set (g := String.list_ascii_of_string guess) in *.
  set (t := String.list_ascii_of_string target) in *.
  assert (length g = length t) as Hlen by congruence.
  assert (presents (gs1 g t) (res1 g t) (tgt1 g t) !! i = Some correct
          ↔ t !! i = Some X) as Hcorrect.
  { split.
    - intros H. apply presents_correct in H; [|exact Hlen]. congruence.
    - intros H. apply presents_matched; [exact Hlen|].
      apply (gs1_equal g t i X); assumption. }
  assert (occurrences X t = 0 →
          presents (gs1 g t) (res1 g t) (tgt1 g t) !! i = Some absent) as Habsent.
  { intros Hnone.
    destruct (gs1_lookup X g t i Hlen Hi) as [Hnull|Hchr].
    - exfalso. pose proof (presents_matched g t (tgt1 g t) i Hlen Hnull) as Hc.
      apply Hcorrect in Hc. apply occurrences_pos in Hc. lia.
    - apply (presents_exhausted X g t (tgt1 g t) i Hlen); [|exact Hchr].
      pose proof (correct_pass_target X g t Hlen). lia. }
  split; [exact Hcorrect|split; [|exact Habsent]].
  intros Hp. split.
  - intros Hsame. apply Hcorrect in Hsame. congruence.
  - destruct (occurrences X t) eqn:Hocc; [|lia].
    specialize (Habsent eq_refl). congruence.
Qed.

Lemma evaluateGuess_positions_witness :
  evaluateGuess "GRADE" "CRANE" !! 1 = Some correct ↔ String.get 1 "CRANE" = Some "R"%char.
Proof.
  apply (evaluateGuess_positions "GRADE" "CRANE" 1 "R"); reflexivity.
Defined.

(** ** The countdown *)

Lemma length_append (a b : string) :
  String.length (String.append a b) = String.length a + String.length b.
Proof. induction a as [|c a IH]; simpl; [reflexivity|]. f_equal. exact IH. Qed.

Lemma pad2_short (n : N) : (n < 100)%N → String.length (pad2 (pretty n)) = 2.
Proof.
  intros Hn.
  assert (forallb (λ k, String.length (pad2 (pretty (N.of_nat k))) =? 2) (seq 0 100) = true)
    as Hall by (vm_compute; reflexivity).
  rewrite forallb_forall in Hall.
  specialize (Hall (N.to_nat n)). rewrite N2Nat.id in Hall.
  apply Nat.eqb_eq, Hall, in_seq. lia.
Qed.

(** X22. The countdown fields.  For every number of milliseconds left,
    the minutes and the seconds [updateTimer] shows are below 60, and
    hours, minutes and seconds together are the whole seconds left.
    With less than a hundred hours left the text is [hh:mm:ss], eight
    characters long. *)
Theorem timer_fields (diff : N) :
  (timer_minutes diff < 60)%N ∧ (timer_seconds diff < 60)%N
  ∧ (3600 * timer_hours diff + 60 * timer_minutes diff + timer_seconds diff
     = diff / 1000)%N
  ∧ ((diff < 360000000)%N → String.length (timer_text diff) = 8).
Proof.
  unfold timer_text, timer_hours, timer_minutes, timer_seconds.
  split; [|split; [|split]].
  - zify. Z.to_euclidean_division_equations. lia.
  - zify. Z.to_euclidean_division_equations. lia.
  - zify. Z.to_euclidean_division_equations. lia.
  - intros Hd. rewrite !length_append, !pad2_short; [reflexivity| | |].
    all: zify; Z.to_euclidean_division_equations; lia.
Qed.

Lemma timer_fields_witness : String.length (timer_text 3723004) = 8.
Proof. apply (timer_fields 3723004). reflexivity. Defined.

(** ** Signing in *)

Ltac sign_in_case :=
  repeat match goal with
         | |- _ ∧ _ => split
         | |- _ ↔ _ => split
         | |- _ → _ => intro
         | H : _ ∧ _ |- _ => destruct H
         | H : ∃ _, _ |- _ => destruct H
         end;
  subst;
  try first [ lia | reflexivity | discriminate | congruence
            | eexists; split; [reflexivity|assumption] ].

(** X23. The sign-in is tried at most three times.  Whatever the
    attempts do, they are numbered 1, 2, 3 in order and stop at the
    first that succeeds or is refused as not allowed; every attempt but
    the last made was a retryable failure and was followed by its wait,
    1200 ms then 2400 ms, and no wait follows the third attempt.  The
    loop returns exactly when its last attempt succeeded, gives the
    sign-in-disabled error exactly when it was refused as not allowed,
    and rethrows the last error exactly when the third attempt was a
    retryable failure. *)
Theorem sign_in_bounded (outcome : nat → AttemptOutcome) :
  let steps := (sign_in outcome).1 in
  let r := (sign_in outcome).2 in
  ∃ k, 1 ≤ k ≤ MAX_TRIES ∧ attempts steps = seq 1 k
       ∧ back_offs steps = take (k - 1) [1200; 2400]
       ∧ (∀ j, 1 ≤ j < k → retryable (outcome j))
       ∧ (r = Ready ↔ outcome k = SignedIn)
       ∧ (r = SignInDisabled
          ↔ outcome k = Rejected (Some "auth/operation-not-allowed"))
       ∧ (r = LastError ↔ k = MAX_TRIES ∧ retryable (outcome k)).
Proof.
  cbn zeta. unfold sign_in, MAX_TRIES, retryable. cbn [sign_in_loop].
  destruct (outcome 1) as [|c1] eqn:H1; [exists 1; cbn; rewrite H1; sign_in_case|].
  destruct (decide (c1 = Some "auth/operation-not-allowed")) as [->|N1];
    [exists 1; cbn; rewrite H1; sign_in_case|].
  destruct (outcome 2) as [|c2] eqn:H2;
    [exists 2; cbn; rewrite H2; sign_in_case; assert (j = 1) as -> by lia; eauto|].
  destruct (decide (c2 = Some "auth/operation-not-allowed")) as [->|N2];
    [exists 2; cbn; rewrite H2; sign_in_case; assert (j = 1) as -> by lia; eauto|].
  exists 3.
  assert (∀ j, 1 ≤ j < 3 →
            ∃ code, outcome j = Rejected code
                    ∧ code ≠ Some "auth/operation-not-allowed") as Hfail.
  { intros j Hj. assert (j = 1 ∨ j = 2) as [->| ->] by lia; eauto. }
  destruct (outcome 3) as [|c3] eqn:H3; [cbn; sign_in_case; apply Hfail; lia|].
  destruct (decide (c3 = Some "auth/operation-not-allowed")) as [->|N3];
    cbn; sign_in_case; apply Hfail; lia.
Qed.

(** ** Player ids *)

Lemma append_empty_r (a : string) : String.append a "" = a.
Proof.
  induction a as [|c a IH]; [reflexivity|].
  change (String c (String.append a "") = String c a). f_equal. exact IH.
Qed.

Lemma join_empty_cons (x : string) (l : list string) :
  join "" (x :: l) = String.append x (join "" l).
Proof. destruct l; cbn [join]; [rewrite append_empty_r|]; reflexivity. Qed.

Lemma append_inj_length (a a' b b' : string) :
  String.length a = String.length a' →
  String.append a b = String.append a' b' → a = a' ∧ b = b'.
Proof.
  revert a'. induction a as [|c a IH]; intros [|c' a'] Hlen; simpl in Hlen;
    try discriminate Hlen; [auto|].
  change (String c (String.append a b) = String c' (String.append a' b')
          → String c a = String c' a' ∧ b = b').
  intros [= -> H]. destruct (IH a' ltac:(lia) H) as [-> ->]. auto.
Qed.

Lemma forallb_string_append (f : ascii → bool) (a b : string) :
  forallb_string f (String.append a b) = forallb_string f a && forallb_string f b.
Proof.
  induction a as [|c a IH]; [reflexivity|].
  change (forallb_string f (String c (String.append a b))
          = forallb_string f (String c a) && forallb_string f b).
  cbn [forallb_string]. rewrite IH, andb_assoc. reflexivity.
Qed.

Lemma byte_hex_shape (b : nat) :
  b < 256 →
  String.length (pad2 (toString16 b)) = 2
  ∧ forallb_string is_hex (pad2 (toString16 b)) = true.
Proof.
  intros Hb.
  assert (forallb (λ k, (String.length (pad2 (toString16 k)) =? 2)
                        && forallb_string is_hex (pad2 (toString16 k)))
            (seq 0 256) = true) as Hall by (vm_compute; reflexivity).
  rewrite forallb_forall in Hall. specialize (Hall b).
  apply andb_true_iff in Hall as [H1 H2]; [|apply in_seq; lia].
  apply Nat.eqb_eq in H1. auto.
Qed.

Lemma byte_hex_inj (a b : nat) :
  a < 256 → b < 256 → pad2 (toString16 a) = pad2 (toString16 b) → a = b.
Proof.
  intros Ha Hb Heq.
  assert (forallb (λ x, forallb (λ y,
            implb (String.eqb (pad2 (toString16 x)) (pad2 (toString16 y))) (x =? y))
            (seq 0 256)) (seq 0 256) = true) as Hall by (vm_compute; reflexivity).
  rewrite forallb_forall in Hall. specialize (Hall a ltac:(apply in_seq; lia)).
  rewrite forallb_forall in Hall. specialize (Hall b ltac:(apply in_seq; lia)).
  rewrite Heq, String.eqb_refl in Hall. apply Nat.eqb_eq. exact Hall.
Qed.

Lemma new_player_id_shape (arr : list nat) :
  Forall (λ b, b < 256) arr →
  String.length (new_player_id arr) = 2 * length arr
  ∧ forallb_string is_hex (new_player_id arr) = true.
Proof.
  unfold new_player_id. induction 1 as [|b arr Hb _ [IH1 IH2]]; [split; reflexivity|].
  cbn [map]. rewrite join_empty_cons, length_append, forallb_string_append.
  destruct (byte_hex_shape b Hb) as [-> ->]. rewrite IH1, IH2. cbn [length]. split; [lia|reflexivity].
Qed.

Lemma new_player_id_inj (a : list nat) : ∀ b,
  Forall (λ x, x < 256) a → Forall (λ x, x < 256) b →
  new_player_id a = new_player_id b → a = b.
Proof.
  induction a as [|x a IH]; intros b Ha Hb Heq.
  - destruct b as [|y b]; [reflexivity|]. exfalso.
    apply (f_equal String.length) in Heq.
    rewrite (proj1 (new_player_id_shape _ Hb)) in Heq. cbn in Heq. lia.
  - destruct b as [|y b].
    + exfalso. apply (f_equal String.length) in Heq.
      rewrite (proj1 (new_player_id_shape _ Ha)) in Heq. cbn in Heq. lia.
    + apply Forall_cons in Ha as [Hx Ha]. apply Forall_cons in Hb as [Hy Hb].
      unfold new_player_id in Heq. cbn [map] in Heq.
      rewrite !join_empty_cons in Heq.
      apply append_inj_length in Heq as [Hhead Htail].
      * f_equal; [exact (byte_hex_inj x y Hx Hy Hhead)|exact (IH b Ha Hb Htail)].
      * rewrite (proj1 (byte_hex_shape x Hx)), (proj1 (byte_hex_shape y Hy)).
        reflexivity.
Qed.

(** X24. The player id is stable and collision-free.  With sixteen
    random bytes at hand, [getOrCreatePlayerId] never returns the empty
    string, and calling it again on the session item it left returns the
    same id and leaves the item alone, whatever the new random bytes.
    Without a signed-in user and without a stored id, the id is the 32
    lower-case hexadecimal digits of the bytes, and different byte
    arrays give different ids. *)
Theorem getOrCreatePlayerId_stable (authUid : string) (stored : option string)
    (arr arr' : list nat) :
  Forall (λ b, b < 256) arr → length arr = 16 →
  let r := getOrCreatePlayerId authUid stored arr in
  r.1 ≠ ""
  ∧ getOrCreatePlayerId authUid r.2 arr' = r
  ∧ (authUid = "" → stored = None ∨ stored = Some "" →
     r = (new_player_id arr, Some (new_player_id arr))
     ∧ String.length r.1 = 32 ∧ forallb_string is_hex r.1 = true)
  ∧ (∀ other, Forall (λ b, b < 256) other →
              new_player_id other = new_player_id arr → other = arr).
Proof.
  intros Harr Hlen. cbn zeta.
  destruct (new_player_id_shape arr Harr) as [Hn Hhex]. rewrite Hlen in Hn.
  assert (new_player_id arr ≠ "") as Hne
    by (intros Heq; rewrite Heq in Hn; discriminate Hn).
  split; [|split; [|split]].
  - unfold getOrCreatePlayerId.
    destruct (decide (authUid = "")); [|assumption].
    destruct stored as [id|]; [destruct (decide (id = ""))|]; assumption.
  - unfold getOrCreatePlayerId.
    destruct (decide (authUid = "")) as [_|_]; [|reflexivity].
    destruct stored as [id|]; [destruct (decide (id = "")) as [->|Hid]|];
      cbn [fst snd]; rewrite ?decide_False by assumption; reflexivity.
  - intros -> Hstored. unfold getOrCreatePlayerId. rewrite decide_True by reflexivity.
    destruct Hstored as [->| ->]; [|rewrite decide_True by reflexivity];
      cbn [fst]; auto.
  - intros other Hother Heq. exact (new_player_id_inj other arr Hother Harr Heq).
Qed.

Lemma getOrCreatePlayerId_stable_witness :
  getOrCreatePlayerId ""
    (getOrCreatePlayerId "" None (seq 240 16)).2 (seq 0 16)
  = getOrCreatePlayerId "" None (seq 240 16).
Proof.
  assert (Forall (λ b, b < 256) (seq 240 16)) as Hbytes
    by (apply Forall_forall; intros b Hb; apply elem_of_seq in Hb; lia).
  exact (proj1 (proj2 (getOrCreatePlayerId_stable "" None (seq 240 16) (seq 0 16)
                         Hbytes eq_refl))).
Defined.

(** ** Hard mode and the guess just played *)

Lemma marks_le_occurrences (X : ascii) (g : list ascii) : ∀ res,
  marks X g res ≤ occurrences X g.
Proof.
  induction g as [|c g IH]; intros [|r res]; try (unfold marks; cbn; lia).
  rewrite marks_cons, occurrences_cons. specialize (IH res).
  destruct (decide (c = X ∧ is_marked r)) as [[-> _]|_];
    [rewrite decide_True by reflexivity|destruct (decide (c = X))]; lia.
Qed.

Lemma update_constraints_self (w : string) (res : list LetterState)
    (hc : HardConstraints) :
  String.length w = length res →
  target_satisfies w hc → target_satisfies w (update_constraints w res hc).
Proof.
  intros Hlen [Hpos Hmin]. split.
  - intros pos l Hin.
    apply update_constraints_positions in Hin as [Hin|(i & _ & Heq)]; [auto|].
    injection Heq as -> ->. reflexivity.
  - apply (update_constraints_minimums (λ l, count_letter l w)); [|exact Hmin].
    intros e He. apply freqMap_entry in He as (X & HX & Hn); [|exact Hlen].
    rewrite HX, Hn, count_letter_occurrences. apply marks_le_occurrences.
Qed.

(** X25. Hard mode never rejects the guess just played.  If a word
    passes [checkHardMode] and is then revealed with any marks, one per
    letter, it still passes [checkHardMode] against the constraints its
    own reveal recorded. *)
Theorem checkHardMode_accepts_played (suppress : bool) (w : string)
    (res : list LetterState) (row : nat) (g : Game) :
  String.length w = length res →
  value_of (checkHardMode w g) = None →
  value_of (checkHardMode w (state_of (revealed suppress w res row g))) = None.
Proof.
  intros Hlen Hpass. apply checkHardMode_None in Hpass as [Hpos Hmin].
  assert (target_satisfies w (hardConstraints g)) as Hsat.
  { split.
    - intros pos l Hin. destruct (decide (String.get pos w = l)) as [|Hne]; [assumption|].
      exfalso. apply (Hpos pos l). split; assumption.
    - apply Forall_forall. intros c Hc.
      destruct (decide (count_letter (letter c) w < minCount c)) as [Hlt|]; [|lia].
      exfalso. apply (Hmin c). split; assumption. }
  apply (update_constraints_self w res _ Hlen) in Hsat as [Hpos' Hmin'].
  destruct (revealed_run suppress w res row g) as (_ & Hhc & _).
  rewrite checkHardMode_run, Hhc. unfold value_of. cbn [fst].
  rewrite check_positions_pass by exact Hpos'.
  apply check_contains_pass. exact Hmin'.
Qed.

Lemma checkHardMode_accepts_played_witness :
  value_of (checkHardMode "CRATE"
              (state_of (revealed false "CRATE" (evaluateGuess "CRATE" "CRANE") 1
                           (sample_game "CRATE")))) = None.
Proof.
  apply (checkHardMode_accepts_played false "CRATE" (evaluateGuess "CRATE" "CRANE") 1
           (sample_game "CRATE")); vm_compute; reflexivity.
Defined.

(** ** The word list *)

(** X26. The word list is matched without regard to case.  A word of
    code units below 128 is valid exactly when its lower-case form is in
    the list, so the upper-case word the keys type is as valid as the
    word itself; and an entry of the list that has a letter A-Z is never
    matched: taking it out of the list changes the validity of no such
    word. *)
Theorem isValidWord_case (dict : gset string) (w : string) :
  ascii_only w = true →
  isValidWord dict (toUpperCase w) = isValidWord dict w
  ∧ isValidWord dict (toLowerCase w) = isValidWord dict w
  ∧ (∀ entry, forallb_string (λ c, negb (is_upper c)) entry = false →
              isValidWord (dict ∖ {[ entry ]}) w = isValidWord dict w).
Proof.
  intros _. unfold isValidWord. rewrite toLowerCase_toUpperCase, toLowerCase_idemp.
  split; [reflexivity|split; [reflexivity|]].
  intros entry Hentry. apply bool_decide_ext.
  rewrite elem_of_difference, elem_of_singleton. split; [intros [H _]; exact H|].
  intros H. split; [exact H|]. intros Heq.
  rewrite <- Heq, toLowerCase_no_upper in Hentry. discriminate Hentry.
Qed.

Lemma isValidWord_case_witness :
  isValidWord {[ "crane"; "Slate" ]} (toUpperCase "Crane")
  = isValidWord {[ "crane"; "Slate" ]} "Crane"
  ∧ isValidWord ({[ "crane"; "Slate" ]} ∖ {[ "Slate" ]}) "Crane"
    = isValidWord {[ "crane"; "Slate" ]} "Crane".
Proof.
  destruct (isValidWord_case {[ "crane"; "Slate" ]} "Crane" eq_refl) as (Hup & _ & Hout).
  split; [exact Hup|]. apply Hout. reflexivity.
Defined.
